(** * update_gp_endoflife.py: the version parser, the feed loader, the
    document parser and the updater, with the properties of its
    specification.

    Text is a list of characters.  A character is a code point below 256
    ([ascii]): on these the classes of Python's [re] for [str] patterns are
    the ones defined below ([\d] is 0-9, [\s] is [str.isspace]).

    The script's patterns are written as terms of a small regular-expression
    syntax and run by a backtracking matcher that follows the rules of
    Python's [re]: alternatives left to right, greedy and lazy repetition,
    numbered groups, look-ahead, [^] under MULTILINE and [$] without it. *)

From Stdlib Require Import Ascii String NArith Lia.
From stdpp Require Import base option list relations gmap strings.

Abbreviation str := (list ascii).

Definition lit (s : string) : str := list_ascii_of_string s.

Definition nl : ascii := "010"%char.
Definition dquote : ascii := "034"%char.
Definition backslash : ascii := "092"%char.

(** ** Character classes *)

Definition code (c : ascii) : N := N_of_ascii c.

(** [\d] *)
Definition is_digit (c : ascii) : bool := ((48 <=? code c) && (code c <=? 57))%N.

(** [\s], and the characters removed by [str.strip()] *)
Definition is_space (c : ascii) : bool :=
  (((9 <=? code c) && (code c <=? 13)) || ((28 <=? code c) && (code c <=? 32))
   || (code c =? 133) || (code c =? 160))%N.

(** [\S] *)
Definition not_space (c : ascii) : bool := negb (is_space c).

(** any character but the double quote *)
Definition not_quote (c : ascii) : bool := negb (Ascii.eqb c dquote).

(** [.] without DOTALL *)
Definition not_newline (c : ascii) : bool := negb (Ascii.eqb c nl).

(** [.] under DOTALL *)
Definition any_char (c : ascii) : bool := true.

Definition is_quote (c : ascii) : bool := Ascii.eqb c dquote.

(** ** String helpers of the Python runtime *)

Fixpoint take_while (p : ascii -> bool) (s : str) : str :=
  match s with
  | x :: t => if p x then x :: take_while p t else []
  | [] => []
  end.

Fixpoint drop_while (p : ascii -> bool) (s : str) : str :=
  match s with
  | x :: t => if p x then drop_while p t else s
  | [] => []
  end.

(** [s.strip()] and [s.strip(chars)]: the characters of the class are removed
    at both ends. *)
Definition lstrip (p : ascii -> bool) (s : str) : str := drop_while p s.
Definition rstrip (p : ascii -> bool) (s : str) : str := rev (drop_while p (rev s)).
Definition strip (p : ascii -> bool) (s : str) : str := lstrip p (rstrip p s).

Fixpoint starts_with (pre s : str) : bool :=
  match pre, s with
  | [], _ => true
  | a :: pre', b :: s' => Ascii.eqb a b && starts_with pre' s'
  | _ :: _, [] => false
  end.

(** [needle in hay] *)
Fixpoint contains (needle hay : str) : bool :=
  starts_with needle hay ||
  match hay with
  | [] => false
  | _ :: t => contains needle t
  end.

(** [int(s)] on a string of decimal digits.  CPython raises ValueError for
    a string of more than [sys.int_max_str_digits] digits, 4300 unless the
    interpreter is told otherwise; [int_of_digits] is total and is the value
    of [int] for the strings within that limit. *)
Definition digit_value (c : ascii) : N := (code c - 48)%N.
Definition int_of_digits (s : str) : N :=
  fold_left (fun acc c => (acc * 10 + digit_value c)%N) s 0%N.

Definition int_max_str_digits : nat := 4300.

(** ** Regular expressions *)

Inductive regex : Type :=
| Eps
| Chr (c : ascii)
| Cls (p : ascii -> bool)
| Seq (r1 r2 : regex)
| Alt (r1 r2 : regex)
| Rep (greedy : bool) (p : ascii -> bool)
| Group (n : nat) (r : regex)
| Ahead (r : regex)
| Bol
| Eos.

(** [p+], [r?], a literal string and a sequence *)
Definition Plus (p : ascii -> bool) : regex := Seq (Cls p) (Rep true p).
Definition Opt (r : regex) : regex := Alt r Eps.
Definition Lits (s : str) : regex := foldr (fun c r => Seq (Chr c) r) Eps s.
Definition Lit (s : string) : regex := Lits (lit s).
Definition seqs (rs : list regex) : regex := foldr Seq Eps rs.

(** The matcher's state: the text before the cursor (last character first),
    the text after it, and the groups set so far (latest first).  The rest of
    a pattern is a continuation on that state. *)
Definition caps := list (nat * str).
Definition mstate : Type := str * str * caps.
Definition cont : Type := str -> str -> caps -> option mstate.

Definition accept : cont := fun bef aft cs => Some (bef, aft, cs).

Fixpoint group (n : nat) (cs : caps) : option str :=
  match cs with
  | (i, s) :: t => if Nat.eqb i n then Some s else group n t
  | [] => None
  end.

Definition at_line_start (bef : str) : bool :=
  match bef with
  | [] => true
  | c :: _ => Ascii.eqb c nl
  end.

Definition at_string_end (aft : str) : bool :=
  match aft with
  | [] => true
  | [c] => Ascii.eqb c nl
  | _ => false
  end.

(** Repetition of a class followed by the rest of the pattern [k]: the greedy
    one tries one more character before it tries [k], the lazy one tries [k]
    first. *)
Fixpoint rep (greedy : bool) (p : ascii -> bool) (k : cont)
    (bef aft : str) (cs : caps) : option mstate :=
  match aft with
  | x :: t =>
      if p x then
        if greedy then
          match rep greedy p k (x :: bef) t cs with
          | Some res => Some res
          | None => k bef aft cs
          end
        else
          match k bef aft cs with
          | Some res => Some res
          | None => rep greedy p k (x :: bef) t cs
          end
      else k bef aft cs
  | [] => k bef aft cs
  end.

(** [run r k bef aft cs]: match [r] at the cursor, then the rest of the
    pattern [k]; [None] when every way of matching [r] makes [k] fail. *)
Fixpoint run (r : regex) (k : cont) : cont :=
  match r with
  | Eps => k
  | Chr c =>
      fun bef aft cs =>
        match aft with
        | x :: t => if Ascii.eqb x c then k (x :: bef) t cs else None
        | [] => None
        end
  | Cls p =>
      fun bef aft cs =>
        match aft with
        | x :: t => if p x then k (x :: bef) t cs else None
        | [] => None
        end
  | Seq r1 r2 => run r1 (run r2 k)
  | Alt r1 r2 =>
      fun bef aft cs =>
        match run r1 k bef aft cs with
        | Some res => Some res
        | None => run r2 k bef aft cs
        end
  | Rep g p => rep g p k
  | Group n r1 =>
      fun bef aft cs =>
        run r1 (fun bef' aft' cs' =>
                  k bef' aft' ((n, rev (take (length bef' - length bef) bef')) :: cs'))
            bef aft cs
  | Ahead r1 =>
      fun bef aft cs =>
        match run r1 accept bef aft cs with
        | Some (_, _, cs') => k bef aft cs'
        | None => None
        end
  | Bol => fun bef aft cs => if at_line_start bef then k bef aft cs else None
  | Eos => fun bef aft cs => if at_string_end aft then k bef aft cs else None
  end.

(** A match object: [start()], [end()], [group(0)] and the numbered groups. *)
Record rmatch := {
  m_start : nat;
  m_end : nat;
  m_text : str;
  m_groups : caps
}.

Definition match_at (r : regex) (bef aft : str) : option rmatch :=
  match run r accept bef aft [] with
  | Some (bef', _, cs) =>
      Some {| m_start := length bef;
              m_end := length bef';
              m_text := rev (take (length bef' - length bef) bef');
              m_groups := cs |}
  | None => None
  end.

(** [re.match(r, s)] *)
Definition re_match (r : regex) (s : str) : option rmatch := match_at r [] s.

(** [re.search(r, s)]: the leftmost position with a match *)
Fixpoint search_from (r : regex) (bef aft : str) : option rmatch :=
  match match_at r bef aft with
  | Some m => Some m
  | None =>
      match aft with
      | x :: t => search_from r (x :: bef) t
      | [] => None
      end
  end.

Definition re_search (r : regex) (s : str) : option rmatch := search_from r [] s.

(** The scan shared by [finditer] and [sub]: the text cut into the matches
    found from left to right, a match never starting inside the one before,
    and the characters between them.  [skip] counts the characters of the
    last match still to pass.  (All patterns of the script match at least one
    character; after an empty match the scan moves one character on.) *)
Inductive piece : Type :=
| Text (c : ascii)
| Hit (m : rmatch).

Fixpoint scan (r : regex) (skip : nat) (bef aft : str) : list piece :=
  match skip with
  | S n =>
      match aft with
      | x :: t => scan r n (x :: bef) t
      | [] => []
      end
  | 0 =>
      match match_at r bef aft with
      | Some m =>
          Hit m ::
          match aft with
          | x :: t =>
              match m_end m - m_start m with
              | 0 => Text x :: scan r 0 (x :: bef) t
              | S n => scan r n (x :: bef) t
              end
          | [] => []
          end
      | None =>
          match aft with
          | x :: t => Text x :: scan r 0 (x :: bef) t
          | [] => []
          end
      end
  end.

(** [pattern.finditer(s)] *)
Definition finditer (r : regex) (s : str) : list rmatch :=
  omap (fun p => match p with Hit m => Some m | Text _ => None end) (scan r 0 [] s).

(** A replacement template after [re] has parsed it: literal text and group
    references. *)
Inductive tpart : Type :=
| TLit (s : str)
| TGroup (n : nat).

Definition expand (tpl : list tpart) (m : rmatch) : str :=
  flat_map (fun p => match p with
                     | TLit s => s
                     | TGroup n => default [] (group n (m_groups m))
                     end) tpl.

(** [re.sub(r, template, s)] *)
Definition re_sub (r : regex) (tpl : list tpart) (s : str) : str :=
  flat_map (fun p => match p with Text c => [c] | Hit m => expand tpl m end)
           (scan r 0 [] s).

(** ** The script *)

(** *** Errors the script can raise *)

Inductive error : Type :=
| TypeError     (* an ordering comparison with None *)
| KeyError      (* a feed record without a field *)
| ValueError    (* a release date that strptime refuses *)
| ReplEscape.   (* a backslash in a value put into a replacement template:
                   re reads it as an escape; the model stops there *)

Inductive result (A : Type) : Type :=
| Ok (a : A)
| Raise (e : error).
Arguments Ok {A} a.
Arguments Raise {A} e.

Definition bind {A B : Type} (x : result A) (f : A -> result B) : result B :=
  match x with
  | Ok a => f a
  | Raise e => Raise e
  end.

Notation "'do' x <- e1 ; e2" := (bind e1 (fun x => e2))
  (at level 10, x pattern, e1 at level 100, e2 at level 200).

(** *** parse_version *)

Definition version_tuple : Type := N * N * N * N.

(** Python's ordering of tuples of four integers *)
Definition version_ltb (a b : version_tuple) : bool :=
  let '(a1, a2, a3, a4) := a in
  let '(b1, b2, b3, b4) := b in
  ((a1 <? b1) || ((a1 =? b1) &&
   ((a2 <? b2) || ((a2 =? b2) &&
    ((a3 <? b3) || ((a3 =? b3) && (a4 <? b4)))))))%N.

Definition version_gtb (a b : version_tuple) : bool := version_ltb b a.

(** [(\d+)\.(\d+)\.(\d+)(?:-c(\d+))?$] *)
Definition version_re : regex :=
  seqs [Group 1 (Plus is_digit); Chr "."; Group 2 (Plus is_digit); Chr ".";
        Group 3 (Plus is_digit);
        Opt (seqs [Lit "-c"; Group 4 (Plus is_digit)]); Eos].

Definition parse_version (version_str : str) : option version_tuple :=
  match re_match version_re version_str with
  | None => None
  | Some m =>
      let g := fun n => default [] (group n (m_groups m)) in
      let major := int_of_digits (g 1) in
      let minor := int_of_digits (g 2) in
      let patch := int_of_digits (g 3) in
      let build := match group 4 (m_groups m) with
                   | Some b => int_of_digits b
                   | None => 0%N
                   end in
      Some (major, minor, patch, build)
  end.

(** *** get_release_cycle *)

(** [(\d+\.\d+)] *)
Definition cycle_re : regex :=
  Group 1 (seqs [Plus is_digit; Chr "."; Plus is_digit]).

Definition get_release_cycle (version_str : str) : option str :=
  match re_match cycle_re version_str with
  | Some m => group 1 (m_groups m)
  | None => None
  end.

(** *** load_json_versions *)

(** A record of the decoded feed: the fields the script reads, [None] for a
    field the record does not have.  The values are texts: a feed in which a
    [version] is null or a number ([re.match] raises TypeError on it), or in
    which an entry is not an object, is not a [list feed_entry]. *)
Record feed_entry := {
  entry_version : option str;
  entry_released_on : option str
}.

(** The values of the dictionary the loader returns. *)
Record cycle_info := {
  version : str;
  date : str
}.

Definition get_field (f : option str) : result str :=
  match f with
  | Some v => Ok v
  | None => Raise KeyError
  end.

Fixpoint for_each {S A : Type} (body : S -> A -> result S) (s : S) (l : list A) : result S :=
  match l with
  | [] => Ok s
  | a :: l' => do s' <- body s a; for_each body s' l'
  end.

Section FeedLoader.

(** [datetime.strptime(s, "%Y/%m/%d %H:%M:%S").strftime("%Y-%m-%d")] of the
    Python library: [None] when strptime raises ValueError. *)
Variable reformat_date : str -> option str.

Definition load_entry (cycles : gmap str cycle_info) (entry : feed_entry)
    : result (gmap str cycle_info) :=
  do version_str <- get_field (entry_version entry);
  match parse_version version_str with
  | None => Ok cycles
  | Some parsed =>
      match get_release_cycle version_str with
      | None => Ok cycles
      | Some cycle =>
          do released_on <- get_field (entry_released_on entry);
          match reformat_date released_on with
          | None => Raise ValueError
          | Some released_date =>
              let updated :=
                <[cycle := {| version := version_str; date := released_date |}]> cycles in
              match cycles !! cycle with
              | None => Ok updated
              | Some old =>
                  match parse_version (version old) with
                  | None => Raise TypeError
                  | Some old_parsed =>
                      if version_gtb parsed old_parsed then Ok updated else Ok cycles
                  end
              end
          end
      end
  end.

(** The argument is the list [json.loads] returns. *)
Definition load_json_versions (entries : list feed_entry) : result (gmap str cycle_info) :=
  for_each load_entry ∅ entries.

End FeedLoader.

(** *** parse_md_releases *)

Record release := {
  releaseCycle : str;
  latest : option str;
  latestReleaseDate : option str;
  _start : nat;
  _end : nat;
  _text : str
}.

(** The pattern of a block, under MULTILINE and DOTALL: at a line start, two
    spaces, [- releaseCycle: ], the quoted cycle, then as little as possible
    up to a newline followed by [  - releaseCycle:] or by [---]. *)
Definition block_re : regex :=
  seqs [Bol; Lit "  - releaseCycle: "; Chr dquote; Group 1 (Plus not_quote); Chr dquote;
        Rep false any_char;
        Ahead (Alt (seqs [Chr nl; Lit "  - releaseCycle:"]) (seqs [Chr nl; Lit "---"]))].

(** Four spaces, the field, a colon and a space, [(.+)] *)
Definition field_re (field : string) : regex :=
  seqs [Lit "    "; Lit field; Lit ": "; Group 1 (Plus not_newline)].

Definition extract (field : string) (text : str) : option str :=
  match re_search (field_re field) text with
  | None => None
  | Some m =>
      let val := strip is_space (default [] (group 1 (m_groups m))) in
      Some (strip is_quote val)
  end.

Definition release_of_match (m : rmatch) : release :=
  let block := m_text m in
  let cycle := default [] (group 1 (m_groups m)) in
  {| releaseCycle := cycle;
     latest := extract "latest" block;
     latestReleaseDate := extract "latestReleaseDate" block;
     _start := m_start m;
     _end := m_end m;
     _text := block |}.

Definition parse_md_releases (content : str) : list release :=
  map release_of_match (finditer block_re content).

(** *** apply_updates *)

(** A value put into a replacement template by an f-string.  [re.sub] reads
    a backslash of the template as the start of an escape, which it expands
    or refuses; the model expands none: a value with a backslash ends the
    call with [ReplEscape], and what is said of the result of a substitution
    is said for values without backslash. *)
Definition interpolate (v : str) : result str :=
  if existsb (Ascii.eqb backslash) v then Raise ReplEscape else Ok v.

(** Four spaces and [latest: ] in group 1, then a quoted value *)
Definition latest_value_re : regex :=
  seqs [Group 1 (Lit "    latest: "); Chr dquote; Rep true not_quote; Chr dquote].

(** Four spaces and [latestReleaseDate: ] in group 1, then [\S+] *)
Definition date_value_re : regex :=
  seqs [Group 1 (Lit "    latestReleaseDate: "); Plus not_space].

(** The whole of four spaces, [latest: ] and the quoted value in group 1 *)
Definition latest_line_re : regex :=
  Group 1 (seqs [Lit "    latest: "; Chr dquote; Rep true not_quote; Chr dquote]).

Definition update_block (block new_version new_date : str) : result str :=
  do v <- interpolate new_version;
  let updated_block :=
    re_sub latest_value_re [TGroup 1; TLit ([dquote] ++ v ++ [dquote])] block in
  do d <- interpolate new_date;
  if contains (lit "    latestReleaseDate:") updated_block then
    Ok (re_sub date_value_re [TGroup 1; TLit d] updated_block)
  else
    Ok (re_sub latest_line_re
               [TGroup 1; TLit ([nl] ++ lit "    latestReleaseDate: " ++ d)]
               updated_block).

Definition default_version : version_tuple := (0, 0, 0, 0)%N.

(** One turn of the loop over the reversed releases; [Ok st] unchanged is
    [continue]. *)
Definition update_release (json_cycles : gmap str cycle_info)
    (st : str * list str) (release : release) : result (str * list str) :=
  let '(content, changes) := st in
  let cycle := releaseCycle release in
  match json_cycles !! cycle with
  | None => Ok st
  | Some info =>
      let current_version := default [] (latest release) in
      let new_version := version info in
      let new_date := date info in
      let current_parsed :=
        match current_version with
        | [] => Some default_version
        | _ => parse_version current_version
        end in
      match parse_version new_version with
      | None => Ok st
      | Some new_parsed =>
          match current_parsed with
          | None => Raise TypeError
          | Some cur =>
              if negb (version_gtb new_parsed cur) then Ok st
              else
                do updated_block <- update_block (_text release) new_version new_date;
                let content' :=
                  take (_start release) content ++ updated_block ++ drop (_end release) content in
                Ok (content',
                    changes ++ [cycle ++ lit ": " ++ current_version ++ lit " -> " ++ new_version])
          end
      end
  end.

Definition apply_updates (content : str) (releases : list release)
    (json_cycles : gmap str cycle_info) : result (str * list str) :=
  for_each (update_release json_cycles) (content, []) (rev releases).

(** *** main *)

(** The files by path, as bytes, and the lines the script has printed.
    Every path can be written to. *)
Record world := {
  files : gmap str (list ascii);
  stdout : list str
}.

(** The arguments [--json], [--md] and [--output]. *)
Record args := {
  json : str;
  md : str;
  output : str
}.

(** What ends a run before its end: a file that is not there, an input
    that cannot be decoded or is not a JSON list of objects with text
    fields, or an exception of the loader or the updater. *)
Inductive fault : Type :=
| NoSuchFile
| BadInput
| Script (e : error).

(** The end of the process: its exit status, or the exception nobody
    caught. *)
Inductive ending : Type :=
| Exit (status : nat)
| Uncaught (f : fault).

Inductive attempt (A : Type) : Type :=
| Got (a : A)
| Failed (f : fault).
Arguments Got {A} a.
Arguments Failed {A} f.

Definition and_then {A B : Type} (x : attempt A) (f : A -> attempt B) : attempt B :=
  match x with
  | Got a => f a
  | Failed e => Failed e
  end.

Notation "'get' x <- e1 ; e2" := (and_then e1 (fun x => e2))
  (at level 10, x pattern, e1 at level 100, e2 at level 200).

Definition of_option {A : Type} (f : fault) (x : option A) : attempt A :=
  match x with
  | Some a => Got a
  | None => Failed f
  end.

Definition of_result {A : Type} (x : result A) : attempt A :=
  match x with
  | Ok a => Got a
  | Raise e => Failed (Script e)
  end.

(** [raw[:2] in (b"\xff\xfe", b"\xfe\xff")] *)
Definition has_utf16_mark (raw : list ascii) : bool :=
  let head := take 2 raw in
  bool_decide (head = ["255"%char; "254"%char]) || bool_decide (head = ["254"%char; "255"%char]).

Definition print (w : world) (line : str) : world :=
  {| files := files w; stdout := stdout w ++ [line] |}.

Definition write_file (w : world) (path : str) (raw : list ascii) : world :=
  {| files := <[path := raw]> (files w); stdout := stdout w |}.

Section Main.

(** Of the Python library: the date conversion of the loader; the codecs
    [utf-16] and [utf-8-sig] and [json.loads], [None] when they raise (or the
    value is not a list of objects with text fields); the reading of a text
    file opened with [encoding="utf-8"], [None] when it raises; the bytes a
    text file opened for writing with [encoding="utf-8"] gets. *)
Variable reformat_date : str -> option str.
Variable decode_utf16 : list ascii -> option str.
Variable decode_utf8_sig : list ascii -> option str.
Variable json_loads : str -> option (list feed_entry).
Variable read_text : list ascii -> option str.
Variable write_text : str -> list ascii.

(** Lines 46 to 51 of [load_json_versions], then its loop. *)
Definition load_json_file (w : world) (json_path : str) : attempt (gmap str cycle_info) :=
  get raw <- of_option NoSuchFile (files w !! json_path);
  get text <- of_option BadInput
                (if has_utf16_mark raw then decode_utf16 raw else decode_utf8_sig raw);
  get entries <- of_option BadInput (json_loads text);
  of_result (load_json_versions reformat_date entries).

Definition read_md (w : world) (md_path : str) : attempt str :=
  get raw <- of_option NoSuchFile (files w !! md_path);
  of_option BadInput (read_text raw).

Definition main (a : args) (w : world) : world * ending :=
  match (get json_cycles <- load_json_file w (json a);
         get content <- read_md w (md a);
         let releases := parse_md_releases content in
         of_result (apply_updates content releases json_cycles)) with
  | Failed f => (w, Uncaught f)
  | Got (updated_content, changes) =>
      match changes with
      | [] => (print w (lit "NO_UPDATES"), Exit 0)
      | _ :: _ =>
          let w1 := write_file w (output a) (write_text updated_content) in
          let w2 := print w1 (lit "UPDATES_FOUND") in
          (foldl print w2 changes, Exit 0)
      end
  end.

End Main.

(** * Statements *)

(** ** The grammar of a version string *)

Definition digits (s : str) : Prop := s <> [] /\ Forall (fun c => is_digit c = true) s.

(** digits [.] digits [.] digits, then [-c] digits when there is a build *)
Definition version_text (a b c : str) (build : option str) : str :=
  a ++ lit "." ++ b ++ lit "." ++ c ++
  match build with
  | Some d => lit "-c" ++ d
  | None => []
  end.

Definition version_value (a b c : str) (build : option str) : version_tuple :=
  (int_of_digits a, int_of_digits b, int_of_digits c,
   match build with
   | Some d => int_of_digits d
   | None => 0%N
   end).

Definition version_parts (a b c : str) (build : option str) : Prop :=
  digits a /\ digits b /\ digits c /\
  match build with
  | Some d => digits d
  | None => True
  end.

(** The whole string is in the grammar. *)
Definition in_grammar (s : str) : Prop :=
  exists a b c build, version_parts a b c build /\ s = version_text a b c build.


(** The groups of a match of the version pattern. *)
Definition version_caps (a b c : str) (build : option str) : caps :=
  match build with
  | Some d => [(4, d)]
  | None => []
  end ++ [(3, c); (2, b); (1, a)].


(** ** The order of version tuples *)

Definition version_lt (a b : version_tuple) : Prop :=
  let '(a1, a2, a3, a4) := a in
  let '(b1, b2, b3, b4) := b in
  (a1 < b1 \/ (a1 = b1 /\ (a2 < b2 \/ (a2 = b2 /\ (a3 < b3 \/ (a3 = b3 /\ a4 < b4))))))%N.

Definition version_le (a b : version_tuple) : Prop := a = b \/ version_lt a b.

(** ** What the updater does with one block *)

(** [release["latest"] or ""] *)
Definition current_version (r : release) : str := default [] (latest r).

(** The tuple the block's version is compared as: the default for a block
    without a version, [None] for a version that is not of the grammar. *)
Definition current_parsed (r : release) : option version_tuple :=
  match current_version r with
  | [] => Some default_version
  | _ => parse_version (current_version r)
  end.

Definition change_line (cycle old new : str) : str :=
  cycle ++ lit ": " ++ old ++ lit " -> " ++ new.

(** The block qualifies for an update: its cycle is in the feed, and the
    feed's version is of the grammar and greater than the block's. *)
Definition qualifies (json_cycles : gmap str cycle_info) (r : release) : option cycle_info :=
  match json_cycles !! releaseCycle r with
  | None => None
  | Some info =>
      match parse_version (version info), current_parsed r with
      | Some new, Some cur => if version_gtb new cur then Some info else None
      | _, _ => None
      end
  end.

(** The change line of a block that qualifies. *)
Definition block_change (json_cycles : gmap str cycle_info) (r : release) : option str :=
  match qualifies json_cycles r with
  | Some info => Some (change_line (releaseCycle r) (current_version r) (version info))
  | None => None
  end.

(** The text that replaces a block: the updated block when it qualifies, its
    own text otherwise. *)
Definition new_text (json_cycles : gmap str cycle_info) (r : release) : str :=
  match qualifies json_cycles r with
  | Some info =>
      match update_block (_text r) (version info) (date info) with
      | Ok t => t
      | Raise _ => _text r
      end
  | None => _text r
  end.

(** ** Blocks and their offsets *)

(** The blocks lie in [s], which starts at offset [off] of the document, in
    order and one after the end of the other, and the text of each is the
    text between its offsets. *)
Fixpoint laid_out (off : nat) (s : str) (rs : list release) : Prop :=
  match rs with
  | [] => True
  | r :: rs' =>
      off <= _start r /\ _start r < _end r /\ _end r <= off + length s /\
      _text r = take (_end r - _start r) (drop (_start r - off) s) /\
      laid_out (_end r) (drop (_end r - off) s) rs'
  end.

(** [s] with the text of each block replaced by [f]. *)
Fixpoint rebuild (f : release -> str) (off : nat) (s : str) (rs : list release) : str :=
  match rs with
  | [] => s
  | r :: rs' =>
      take (_start r - off) s ++ f r ++ rebuild f (_end r) (drop (_end r - off) s) rs'
  end.


(** ** Example inputs *)

Definition quoted (s : string) : str := [dquote] ++ lit s ++ [dquote].
Definition unlines (ls : list str) : str := flat_map (fun l => l ++ [nl]) ls.
Definition cycle_line (c : string) : str := lit "  - releaseCycle: " ++ quoted c.
Definition latest_line (v : string) : str := lit "    latest: " ++ quoted v.
Definition date_line (d : string) : str := lit "    latestReleaseDate: " ++ lit d.

Definition feed_of (l : list (string * (string * string))) : gmap str cycle_info :=
  list_to_map (map (fun e => (lit (fst e),
                              {| version := lit (fst (snd e)); date := lit (snd (snd e)) |})) l).

(** A registry document with two blocks, the second without a release date. *)
Definition ex_doc : str :=
  unlines [lit "---"; lit "releases:";
           cycle_line "6.3"; latest_line "6.3.2"; date_line "2025-11-01"; lit "    link: x";
           lit "";
           cycle_line "6.2"; latest_line "6.2.1"; lit "    link: y";
           lit "---"; lit "text"].

Definition ex_feed : gmap str cycle_info :=
  feed_of [("6.3", ("6.3.3-c842", "2025-12-17")); ("6.2", ("6.2.8", "2025-10-10"))].

Definition ex_doc_updated : str :=
  unlines [lit "---"; lit "releases:";
           cycle_line "6.3"; latest_line "6.3.3-c842"; date_line "2025-12-17"; lit "    link: x";
           lit "";
           cycle_line "6.2"; latest_line "6.2.8"; date_line "2025-10-10"; lit "    link: y";
           lit "---"; lit "text"].

(** A feed that is not newer than [ex_doc]. *)
Definition ex_feed_old : gmap str cycle_info :=
  feed_of [("6.3", ("6.3.2", "2025-11-01")); ("6.2", ("6.2.0", "2025-01-10"))].

(** A block whose recorded version is not of the grammar. *)
Definition ex_doc_tbd : str :=
  unlines [cycle_line "6.3"; latest_line "TBD"; lit "---"].


(** ** The feed map *)

(** The record at index [i] of the feed is of cycle [c] and has the parsed
    version [v]. *)
Definition feed_version_at (entries : list feed_entry) (i : nat) (c : str)
    (version_str : str) (v : version_tuple) : Prop :=
  exists e, entries !! i = Some e /\ entry_version e = Some version_str /\
            get_release_cycle version_str = Some c /\ parse_version version_str = Some v.

(** [info] is made from the first record among those of cycle [c] with the
    greatest version. *)
Definition first_maximal (reformat_date : str -> option str) (entries : list feed_entry)
    (c : str) (info : cycle_info) : Prop :=
  exists i e released_on v,
    entries !! i = Some e /\
    entry_version e = Some (version info) /\
    entry_released_on e = Some released_on /\
    reformat_date released_on = Some (date info) /\
    get_release_cycle (version info) = Some c /\
    parse_version (version info) = Some v /\
    forall j version_str v',
      feed_version_at entries j c version_str v' ->
      version_le v' v /\ (v' = v -> i <= j).

Definition feed_invariant (reformat_date : str -> option str) (entries : list feed_entry)
    (cycles : gmap str cycle_info) : Prop :=
  forall c,
    match cycles !! c with
    | Some info => first_maximal reformat_date entries c info
    | None => forall j version_str v, ~ feed_version_at entries j c version_str v
    end.


(** A stand-in for the date conversion, for the examples: the first ten
    characters with the slashes turned into dashes. *)
Definition ex_reformat (s : str) : option str :=
  Some (map (fun c => if Ascii.eqb c "/" then "-"%char else c) (take 10 s)).

Definition ex_entry (v released : string) : feed_entry :=
  {| entry_version := Some (lit v); entry_released_on := Some (lit released) |}.

(** A feed with two records of the same greatest version of cycle 6.3 and a
    record whose version is not of the grammar. *)
Definition ex_entries : list feed_entry :=
  [ex_entry "6.3.2" "2025/11/01 00:00:00";
   ex_entry "6.3.3-c842" "2025/12/17 00:00:00";
   ex_entry "beta" "2025/12/18 00:00:00";
   ex_entry "6.2.8" "2025/10/10 00:00:00";
   ex_entry "6.3.3-c842" "2025/12/19 00:00:00"].


(** ** What each pattern matches at the start of a text *)

(** The value between double quotes at the start of [s], and the text after
    the closing quote. *)
Definition quoted_here (s : str) : option (str * str) :=
  match s with
  | c :: t =>
      if is_quote c then
        match drop_while not_quote t with
        | _ :: rest => Some (take_while not_quote t, rest)
        | [] => None
        end
      else None
  | [] => None
  end.

Definition latest_key : str := lit "    latest: ".
Definition date_key : str := lit "    latestReleaseDate: ".
Definition cycle_key : str := lit "  - releaseCycle: ".

(** Four spaces, [latest: ] and a quoted value: the value and the rest. *)
Definition latest_here (s : str) : option (str * str) :=
  if starts_with latest_key s then quoted_here (drop (length latest_key) s) else None.

(** Four spaces, [latestReleaseDate: ] and a token without white space: the
    token and the rest. *)
Definition date_here (s : str) : option (str * str) :=
  if starts_with date_key s then
    match take_while not_space (drop (length date_key) s) with
    | [] => None
    | d => Some (d, drop_while not_space (drop (length date_key) s))
    end
  else None.

(** Four spaces, the field, a colon, a space, and the rest of the line when
    it is not empty. *)
Definition field_here (field : string) (s : str) : option str :=
  let key := lit "    " ++ lit field ++ lit ": " in
  if starts_with key s then
    match take_while not_newline (drop (length key) s) with
    | [] => None
    | val => Some val
    end
  else None.

(** The text that ends a block: a newline and [  - releaseCycle:], or a
    newline and [---]. *)
Definition is_terminator (s : str) : bool :=
  starts_with (nl :: lit "  - releaseCycle:") s || starts_with (nl :: lit "---") s.

(** The text up to the first terminator, and the text from it on. *)
Fixpoint find_terminator (s : str) : option (str * str) :=
  if is_terminator s then Some ([], s)
  else
    match s with
    | x :: t =>
        match find_terminator t with
        | Some (body, rest) => Some (x :: body, rest)
        | None => None
        end
    | [] => None
    end.

(** The header of a block: the cycle between the quotes and the text after
    the closing quote. *)
Definition header_here (s : str) : option (str * str) :=
  if starts_with cycle_key s then
    match quoted_here (drop (length cycle_key) s) with
    | Some (c :: cycle, rest) => Some (c :: cycle, rest)
    | _ => None
    end
  else None.

(** A block at the start of [s]: its cycle, its text after the header, and
    the text from the terminator on. *)
Definition block_here (s : str) : option (str * str * str) :=
  match header_here s with
  | Some (cycle, after) =>
      match find_terminator after with
      | Some (body, rest) => Some (cycle, body, rest)
      | None => None
      end
  | None => None
  end.

Definition block_text (cycle body : str) : str :=
  cycle_key ++ [dquote] ++ cycle ++ [dquote] ++ body.

Definition latest_text (v : str) : str := latest_key ++ [dquote] ++ v ++ [dquote].


(** ** The scan of a text *)

(** Every match of the pattern passes at least one character. *)
Definition nonempty_matches (r : regex) : Prop :=
  forall bef aft m, match_at r bef aft = Some m -> m_start m < m_end m.

(** The pieces of a scan that starts after [bef], when no match is empty:
    a character where the pattern does not match, a match and what follows
    its text where it does. *)
Inductive scanned (r : regex) : str -> str -> list piece -> Prop :=
| scanned_nil bef : scanned r bef [] []
| scanned_text bef x t ps :
    match_at r bef (x :: t) = None ->
    scanned r (x :: bef) t ps ->
    scanned r bef (x :: t) (Text x :: ps)
| scanned_hit bef w rest m ps :
    w <> [] ->
    match_at r bef (w ++ rest) = Some m ->
    m_start m = length bef -> m_end m = length bef + length w -> m_text m = w ->
    scanned r (rev w ++ bef) rest ps ->
    scanned r bef (w ++ rest) (Hit m :: ps).

Definition hits (ps : list piece) : list rmatch :=
  omap (fun p => match p with Hit m => Some m | Text _ => None end) ps.

(** The text of the pieces, with [f] for the text of a match. *)
Definition pieces_text (f : rmatch -> str) (ps : list piece) : str :=
  flat_map (fun p => match p with Text c => [c] | Hit m => f m end) ps.


(** ** Blocks of a document *)

(** At offset [p] of [content] a block starts that has the cycle [cycle] and,
    after its header, the text [body]: [p] is the start of a line, the header
    is there with a cycle that is not empty and has no double quote, what
    follows the body is a terminator, and no terminator starts inside the
    body. *)
Definition block_at (content : str) (p : nat) (cycle body : str) : Prop :=
  at_line_start (rev (take p content)) = true /\
  p <= length content /\
  cycle <> [] /\ (dquote ∉ cycle) /\
  exists rest,
    drop p content = block_text cycle body ++ rest /\
    is_terminator rest = true /\
    forall b1 b2, body = b1 ++ b2 -> b2 <> [] -> is_terminator (b2 ++ rest) = false.

(** The line of a header at offset [p]: the start of a line, then two
    spaces, [- releaseCycle: ] and a quoted cycle that is not empty. *)
Definition header_at (content : str) (p : nat) : Prop :=
  at_line_start (rev (take p content)) = true /\
  header_here (drop p content) <> None.

(** A document whose only block is not followed by a terminator. *)
Definition ex_doc_open : str := unlines [cycle_line "6.3"; latest_line "6.3.2"].

(** Documents in which a line that is no header and no [---] line ends the
    block: a line that starts with [---] and goes on, and a line with a
    cycle that is not quoted. *)
Definition ex_doc_rule : str :=
  unlines [cycle_line "6.3"; latest_line "6.3.2"; lit "---- a rule"; lit "    link: x";
           lit "---"].

Definition ex_doc_unquoted_cycle : str :=
  unlines [cycle_line "6.3"; latest_line "6.3.2"; lit "  - releaseCycle: 6.2";
           lit "    link: x"; lit "---"].

(** A document in which a header line lies inside the quoted cycle of the
    header before it, whose closing quote is missing. *)
Definition ex_doc_split_cycle : str :=
  unlines [lit "  - releaseCycle: " ++ [dquote] ++ lit "a"; cycle_line "b"; lit "---"].


(** ** The characters of a version of the grammar *)

Definition version_char (c : ascii) : bool :=
  is_digit c || Ascii.eqb c "." || Ascii.eqb c "-" || Ascii.eqb c "c" || Ascii.eqb c nl.

(** Blocks without a [latest] field: one with nothing else, one with a
    release date. *)
Definition ex_doc_no_latest : str :=
  unlines [cycle_line "6.3"; lit "    link: x"; lit "---"].

Definition ex_doc_date_only : str :=
  unlines [cycle_line "6.3"; date_line "2020-01-01"; lit "---"].

Definition ex_doc_date_only_updated : str :=
  unlines [cycle_line "6.3"; date_line "2025-12-17"; lit "---"].

Definition ex_feed_zero : gmap str cycle_info :=
  feed_of [("6.3", ("0.0.0", "2020-01-01"))].


(** ** Substitution as replacement from left to right *)

(** [here s] is the text a pattern matches at the start of [s], with the rest
    of [s]; [replaced here f s s'] says that [s'] is [s] with the matches
    found from left to right replaced by [f] of their text. *)
Inductive replaced (here : str -> option (str * str)) (f : str -> str) : str -> str -> Prop :=
| replaced_nil : replaced here f [] []
| replaced_skip x t t' :
    here (x :: t) = None ->
    replaced here f t t' ->
    replaced here f (x :: t) (x :: t')
| replaced_hit w rest rest' :
    w <> [] ->
    here (w ++ rest) = Some (w, rest) ->
    replaced here f rest rest' ->
    replaced here f (w ++ rest) (f w ++ rest').

(** The text matched by the two patterns on [latest] and by the pattern on
    [latestReleaseDate]. *)
Definition latest_match (s : str) : option (str * str) :=
  match latest_here s with
  | Some (v, rest) => Some (latest_text v, rest)
  | None => None
  end.

Definition date_match (s : str) : option (str * str) :=
  match date_here s with
  | Some (d, rest) => Some (date_key ++ d, rest)
  | None => None
  end.

(** The three replacements of the updater. *)
Definition new_latest (v : str) : str -> str := fun _ => latest_text v.
Definition new_date (d : str) : str -> str := fun _ => date_key ++ d.
Definition with_date_line (d : str) : str -> str := fun w => w ++ [nl] ++ date_key ++ d.


(** ** The changes the updater may make to a text *)

(** One change with the feed's version [v] and date [d]: the quoted value
    after [    latest: ] is replaced by [v]; the token without white space
    after [    latestReleaseDate: ] is replaced by [d]; or a new line with
    [    latestReleaseDate: ] and [d] is put after a quoted [latest] value.
    The text before and after stays as it is. *)
Inductive edit (v d : str) : str -> str -> Prop :=
| edit_latest pre v0 post :
    dquote ∉ v0 ->
    edit v d (pre ++ latest_text v0 ++ post) (pre ++ latest_text v ++ post)
| edit_date pre d0 post :
    d0 <> [] -> Forall (fun c => not_space c = true) d0 ->
    edit v d (pre ++ (date_key ++ d0) ++ post) (pre ++ (date_key ++ d) ++ post)
| edit_insert pre v0 post :
    dquote ∉ v0 ->
    edit v d (pre ++ latest_text v0 ++ post)
             (pre ++ (latest_text v0 ++ [nl] ++ date_key ++ d) ++ post).

(** The text is the same but for such changes, one after the other. *)
Definition edits (v d : str) : str -> str -> Prop := rtc (edit v d).

(** A block with a line that is not its [latest] field and holds the text
    of one, and what the updater makes of the document. *)
Definition note_line (v : string) : str :=
  lit "    note: see    latest: " ++ quoted v ++ lit " for details".

Definition ex_doc_note : str :=
  unlines [cycle_line "6.3"; latest_line "6.3.2"; date_line "2025-11-01";
           note_line "the docs"; lit "---"].

Definition ex_doc_note_updated : str :=
  unlines [cycle_line "6.3"; latest_line "6.3.3-c842"; date_line "2025-12-17";
           note_line "6.3.3-c842"; lit "---"].


(** The number of places of [s] where [needle] starts. *)
Fixpoint occurrences (needle s : str) : nat :=
  (if starts_with needle s then 1 else 0) +
  match s with
  | [] => 0
  | _ :: t => occurrences needle t
  end.

(** A block whose [latest] value is not quoted. *)
Definition ex_doc_unquoted : str :=
  unlines [cycle_line "6.2"; lit "    latest: 6.2.1"; lit "    link: y"; lit "---"].

(** The second block of [ex_doc], which has no release date, and what the
    updater makes of it. *)
Definition ex_block : str :=
  cycle_line "6.2" ++ [nl] ++ latest_line "6.2.1" ++ [nl] ++ lit "    link: y".


(** ** Documents and feeds on which the updater is idempotent *)

(** A terminator occurs in the text. *)
Definition has_terminator (s : str) : bool :=
  contains (nl :: lit "  - releaseCycle:") s || contains (nl :: lit "---") s.

(** The entries of the feed map as the loader makes them when the dates
    are of one line and without backslash: the key is the release cycle of
    the version, and the date holds no newline and no backslash. *)
Definition feed_shape (cycles : gmap str cycle_info) : Prop :=
  forall c info, cycles !! c = Some info ->
    get_release_cycle (version info) = Some c /\ (nl ∉ date info) /\
    (backslash ∉ date info).

(** [val] is a double-quoted text without a quote inside. *)
Definition is_quoted (val : str) : bool :=
  match val with
  | c :: t =>
      is_quote c &&
      match rev t with
      | c' :: t' => is_quote c' && forallb not_quote t'
      | [] => false
      end
  | [] => false
  end.

(** The [latest] field that [extract] finds in the block is a double-quoted
    value with nothing after it on its line, and [    latestReleaseDate:]
    does not occur before it. *)
Definition latest_is_quoted (block : str) : bool :=
  match re_search (field_re "latest") block with
  | None => false
  | Some m =>
      is_quoted (default [] (group 1 (m_groups m))) &&
      negb (contains (lit "    latestReleaseDate:")
                     (take (m_start m + length latest_key) block))
  end.

(** ** Versions that differ as text and not as tuples *)

Definition zeros (n : nat) : str := repeat "0"%char n.

(** ** The release cycle of a version string *)

(** The digits at the start of the text, a dot and the digits after it. *)
Definition cycle_of (s : str) : option str :=
  match take_while is_digit s with
  | [] => None
  | a =>
      match drop_while is_digit s with
      | c :: t =>
          if Ascii.eqb c "." then
            match take_while is_digit t with
            | [] => None
            | b => Some (a ++ lit "." ++ b)
            end
          else None
      | [] => None
      end
  end.

(** ** Entries of the feed that the loader accepts *)

(** The entry passes the loader: it has a version, and when that version is
    one [parse_version] accepts it has a release date that strptime
    accepts. *)
Definition entry_loads (reformat_date : str -> option str) (e : feed_entry) : bool :=
  match entry_version e with
  | None => false
  | Some v =>
      match parse_version v with
      | None => true
      | Some _ =>
          match entry_released_on e with
          | None => false
          | Some d =>
              match reformat_date d with
              | Some _ => true
              | None => false
              end
          end
      end
  end.

(** The version of the entry, when it has one, is of no more characters
    than [int] takes digits. *)
Definition version_within_limit (e : feed_entry) : Prop :=
  match entry_version e with
  | Some v => length v <= int_max_str_digits
  | None => True
  end.

(** The exception of an entry that does not pass: KeyError for a missing
    field, ValueError for the date. *)
Definition entry_error (e : feed_entry) : error :=
  match entry_version e, entry_released_on e with
  | Some _, Some _ => ValueError
  | _, _ => KeyError
  end.

(** Every version in the map is one [parse_version] accepts. *)
Definition versions_parse (cycles : gmap str cycle_info) : Prop :=
  forall c info, cycles !! c = Some info -> parse_version (version info) <> None.

(** ** The field that [extract] reads *)

Definition field_key (field : string) : str := lit "    " ++ lit field ++ lit ": ".

(** The rest of the line after the first place of the text where the key of
    the field is followed by a character other than a newline. *)
Fixpoint first_field (field : string) (s : str) : option str :=
  match field_here field s with
  | Some val => Some val
  | None =>
      match s with
      | _ :: t => first_field field t
      | [] => None
      end
  end.

(** A run on [ex_doc] with the feed of [ex_entries]: the files of the
    example, and stand-ins for the library's codecs and parser. *)
Definition ex_args : args :=
  {| json := lit "GlobalProtectVersions.json"; md := lit "pan-gp.md"; output := lit "out.md" |}.

Definition ex_world : world :=
  {| files := {[ lit "GlobalProtectVersions.json" := lit "(the feed)";
                 lit "pan-gp.md" := ex_doc ]};
     stdout := [] |}.

Definition ex_main : args -> world -> world * ending :=
  main ex_reformat (fun _ => None) Some (fun _ => Some ex_entries) Some id.

(** ** Blocks on which the updater raises *)

(** The comparison of line 128 is between the tuple of the feed's version
    and [None]: the cycle of the block is in the feed with a version that
    [parse_version] accepts, and the block has a [latest] value, not empty,
    that it does not accept. *)
Definition compares_with_none (json_cycles : gmap str cycle_info) (r : release) : bool :=
  match json_cycles !! releaseCycle r with
  | Some info =>
      match parse_version (version info), current_parsed r with
      | Some _, None => true
      | _, _ => false
      end
  | None => false
  end.

(** * Properties *)

(** ** Text *)

Lemma take_drop_while p s : take_while p s ++ drop_while p s = s.
Proof. induction s as [|x t IH]; simpl; [done|]. destruct (p x); simpl; congruence. Qed.

Lemma take_while_all p s : Forall (fun c => p c = true) (take_while p s).
Proof.
  induction s as [|x t IH]; simpl; [constructor|].
  destruct (p x) eqn:E; constructor; done.
Qed.

Lemma take_while_app p d rest :
  Forall (fun c => p c = true) d ->
  match rest with [] => True | x :: _ => p x = false end ->
  take_while p (d ++ rest) = d /\ drop_while p (d ++ rest) = rest.
Proof.
  intros Hd Hr. induction Hd as [|x d Hx Hd IH]; simpl.
  - destruct rest as [|x t]; simpl; [done|]. rewrite Hr. done.
  - rewrite Hx. destruct IH as [-> ->]. done.
Qed.

Lemma drop_while_head p s :
  match drop_while p s with [] => True | x :: _ => p x = false end.
Proof.
  induction s as [|x t IH]; simpl; [done|].
  destruct (p x) eqn:E; simpl; [done|]. exact E.
Qed.

Lemma starts_with_spec pre s : starts_with pre s = true <-> exists t, s = pre ++ t.
Proof.
  revert s. induction pre as [|a pre IH]; intros s; simpl.
  - split; [eauto|done].
  - destruct s as [|b s].
    + split; [done|]. intros [t Ht]. discriminate.
    + rewrite andb_true_iff, IH, Ascii.eqb_eq. split.
      * intros [-> [t ->]]. eauto.
      * intros [t Ht]. injection Ht as -> ->. eauto.
Qed.

Lemma starts_with_app pre t : starts_with pre (pre ++ t) = true.
Proof. apply starts_with_spec. eauto. Qed.

(** ** The matcher *)

Lemma run_seqs_cons r rs k : run (seqs (r :: rs)) k = run r (run (seqs rs) k).
Proof. done. Qed.

Lemma run_seqs_nil k : run (seqs []) k = k.
Proof. done. Qed.

Lemma run_Lits w k bef aft cs :
  run (Lits w) k bef aft cs =
  if starts_with w aft then k (rev w ++ bef) (drop (length w) aft) cs else None.
Proof.
  revert bef aft. induction w as [|c w IH]; intros bef aft; simpl; [done|].
  destruct aft as [|x t]; [done|].
  rewrite (Ascii.eqb_sym c x). destruct (Ascii.eqb x c) eqn:E; simpl; [|done].
  apply Ascii.eqb_eq in E as ->. rewrite IH. rewrite <- app_assoc. done.
Qed.

Lemma run_Lits_app w k bef t cs :
  run (Lits w) k bef (w ++ t) cs = k (rev w ++ bef) t cs.
Proof. rewrite run_Lits, starts_with_app, drop_app_length. done. Qed.

Lemma run_Lits_Lits a b k : run (Lits a) (run (Lits b) k) = run (Lits (a ++ b)) k.
Proof. induction a as [|c a IH]; simpl; [done|]. rewrite IH. done. Qed.

Lemma captured w (bef : str) : rev (take (length (rev w ++ bef) - length bef) (rev w ++ bef)) = w.
Proof.
  rewrite length_app, length_rev.
  replace (length w + length bef - length bef) with (length (rev w)) by (rewrite length_rev; lia).
  rewrite take_app_length. apply rev_involutive.
Qed.

Lemma run_Group_Lits n w k bef aft cs :
  run (Group n (Lits w)) k bef aft cs =
  if starts_with w aft then k (rev w ++ bef) (drop (length w) aft) ((n, w) :: cs) else None.
Proof.
  cbn [run]. rewrite run_Lits. destruct (starts_with w aft); [|done].
  rewrite captured. done.
Qed.

(** Greedy repetition when the rest of the pattern cannot start with a
    character of the class: the longest run is the only one tried with
    success. *)
Lemma rep_greedy_max p k bef aft cs :
  (forall b x t c, p x = true -> k b (x :: t) c = None) ->
  rep true p k bef aft cs = k (rev (take_while p aft) ++ bef) (drop_while p aft) cs.
Proof.
  intros Hk. revert bef. induction aft as [|x t IH]; intros bef; simpl; [done|].
  destruct (p x) eqn:E; [|done].
  rewrite IH, (Hk _ _ _ _ E). simpl. rewrite <- app_assoc. simpl.
  destruct (k _ _ _); done.
Qed.

(** Greedy repetition takes the longest run when the rest matches there. *)
Lemma rep_greedy_longest p k bef aft cs res :
  k (rev (take_while p aft) ++ bef) (drop_while p aft) cs = Some res ->
  rep true p k bef aft cs = Some res.
Proof.
  revert bef. induction aft as [|x t IH]; intros bef; simpl; [done|].
  destruct (p x) eqn:E; [|done].
  simpl. rewrite <- app_assoc. simpl. intros H. rewrite (IH _ H). done.
Qed.

Lemma run_Plus_max p k bef aft cs :
  (forall b x t c, p x = true -> k b (x :: t) c = None) ->
  run (Plus p) k bef aft cs =
  match take_while p aft with
  | [] => None
  | d => k (rev d ++ bef) (drop_while p aft) cs
  end.
Proof.
  intros Hk. destruct aft as [|x t]; simpl; [done|].
  destruct (p x) eqn:E; [|done].
  rewrite rep_greedy_max by done. rewrite <- app_assoc. done.
Qed.

Lemma run_Plus_accept p bef aft cs :
  run (Plus p) accept bef aft cs =
  match take_while p aft with
  | [] => None
  | d => Some (rev d ++ bef, drop_while p aft, cs)
  end.
Proof.
  destruct aft as [|x t]; simpl; [done|].
  destruct (p x) eqn:E; [|done].
  erewrite rep_greedy_longest; [|reflexivity]. rewrite <- app_assoc. done.
Qed.

Lemma run_Group_Plus_max n p k bef aft cs :
  (forall b x t c, p x = true -> k b (x :: t) c = None) ->
  run (Group n (Plus p)) k bef aft cs =
  match take_while p aft with
  | [] => None
  | d => k (rev d ++ bef) (drop_while p aft) ((n, d) :: cs)
  end.
Proof.
  intros Hk. cbn [run]. fold (Plus p). rewrite run_Plus_max.
  - destruct (take_while p aft) as [|x d]; [done|]. rewrite captured. done.
  - intros b x t c Hx. apply Hk. done.
Qed.

Lemma run_Group_Plus_accept n p bef aft cs :
  run (Group n (Plus p)) accept bef aft cs =
  match take_while p aft with
  | [] => None
  | d => Some (rev d ++ bef, drop_while p aft, (n, d) :: cs)
  end.
Proof.
  destruct aft as [|x t]; simpl; [done|].
  destruct (p x) eqn:E; [|done].
  erewrite rep_greedy_longest; [|reflexivity].
  replace (rev (take_while p t) ++ x :: bef) with (rev (x :: take_while p t) ++ bef)
    by (simpl; rewrite <- app_assoc; done).
  rewrite captured. done.
Qed.

Lemma run_Chr_iff c k bef aft cs res :
  run (Chr c) k bef aft cs = Some res <->
  exists t, aft = c :: t /\ k (c :: bef) t cs = Some res.
Proof.
  simpl. destruct aft as [|x t].
  - split; [done|]. intros (t & Ht & _). discriminate.
  - destruct (Ascii.eqb x c) eqn:E.
    + apply Ascii.eqb_eq in E as ->. split; [eauto|]. intros (t' & [= ->] & H). done.
    + apply Ascii.eqb_neq in E. split; [done|]. intros (t' & [= -> ->] & _). done.
Qed.

Lemma run_Alt_iff r1 r2 k bef aft cs res :
  run (Alt r1 r2) k bef aft cs = Some res <->
  run r1 k bef aft cs = Some res \/
  (run r1 k bef aft cs = None /\ run r2 k bef aft cs = Some res).
Proof.
  simpl. destruct (run r1 k bef aft cs); split; intros H.
  - by left.
  - destruct H as [H|[H _]]; done.
  - right. done.
  - destruct H as [H|[_ H]]; done.
Qed.

Lemma at_string_end_iff aft : at_string_end aft = true <-> aft = [] \/ aft = [nl].
Proof.
  destruct aft as [|x [|y t]]; simpl.
  - split; [by left|done].
  - rewrite Ascii.eqb_eq. split; [intros ->; by right|]. intros [H|[= ->]]; done.
  - split; [done|]. intros [H|H]; discriminate.
Qed.

Lemma run_Eos_iff k bef aft cs res :
  run Eos k bef aft cs = Some res <->
  (aft = [] \/ aft = [nl]) /\ k bef aft cs = Some res.
Proof.
  simpl. rewrite <- at_string_end_iff. destruct (at_string_end aft); split; try done.
  all: intros [H1 H2]; done.
Qed.

Lemma digits_take_while aft :
  take_while is_digit aft <> [] -> digits (take_while is_digit aft).
Proof. intros H. split; [done|]. apply take_while_all. Qed.

Lemma run_group_digits_iff n k bef aft cs res :
  (forall b x t c, is_digit x = true -> k b (x :: t) c = None) ->
  run (Group n (Plus is_digit)) k bef aft cs = Some res <->
  exists d rest, digits d /\ aft = d ++ rest /\ k (rev d ++ bef) rest ((n, d) :: cs) = Some res.
Proof.
  intros Hk. rewrite run_Group_Plus_max by done. split.
  - destruct (take_while is_digit aft) as [|x d] eqn:E; [done|]. intros H.
    exists (x :: d), (drop_while is_digit aft). split; [|split; [|done]].
    + rewrite <- E. apply digits_take_while. rewrite E. done.
    + rewrite <- E. symmetry. apply take_drop_while.
  - intros (d & rest & [Hne Hd] & -> & H).
    assert (Hr : match rest with [] => True | x :: _ => is_digit x = false end).
    { destruct rest as [|x t]; [done|]. destruct (is_digit x) eqn:E; [|done].
      rewrite (Hk _ _ _ _ E) in H. done. }
    destruct (take_while_app is_digit d rest Hd Hr) as [-> ->].
    destruct d; done.
Qed.

(** A digit is none of the characters that follow a number in the patterns. *)
Lemma digit_not c x : is_digit c = false -> is_digit x = true -> Ascii.eqb x c = false.
Proof. intros Hc Hx. apply Ascii.eqb_neq. intros ->. congruence. Qed.

Lemma Chr_fails_on_digit c rs k :
  is_digit c = false ->
  forall b x t cs, is_digit x = true -> run (seqs (Chr c :: rs)) k b (x :: t) cs = None.
Proof. intros Hc b x t cs Hx. simpl. rewrite (digit_not c x) by done. done. Qed.

Lemma Eos_fails_on_digit k :
  forall b x t cs, is_digit x = true -> run (seqs [Eos]) k b (x :: t) cs = None.
Proof.
  intros b x t cs Hx. simpl. destruct t; [|done].
  rewrite (digit_not nl x) by done. done.
Qed.

Lemma build_fails_on_digit k :
  forall b x t cs, is_digit x = true ->
    run (seqs [Opt (seqs [Lit "-c"; Group 4 (Plus is_digit)]); Eos]) k b (x :: t) cs = None.
Proof.
  intros b x t cs Hx. simpl. rewrite (digit_not "-" x) by done.
  destruct t; [|done]. rewrite (digit_not nl x) by done. done.
Qed.

Lemma version_re_sound s bef aft cs :
  run version_re accept [] s [] = Some (bef, aft, cs) ->
  exists a b c build,
    version_parts a b c build /\
    (s = version_text a b c build \/ s = version_text a b c build ++ [nl]) /\
    cs = version_caps a b c build.
Proof.
  unfold version_re. rewrite run_seqs_cons.
  rewrite run_group_digits_iff by (apply Chr_fails_on_digit; done).
  intros (a & s1 & Ha & -> & H).
  rewrite run_seqs_cons, run_Chr_iff in H. destruct H as (s2 & -> & H).
  rewrite run_seqs_cons, run_group_digits_iff in H by (apply Chr_fails_on_digit; done).
  destruct H as (b & s3 & Hb & -> & H).
  rewrite run_seqs_cons, run_Chr_iff in H. destruct H as (s4 & -> & H).
  rewrite run_seqs_cons, run_group_digits_iff in H by (apply build_fails_on_digit).
  destruct H as (c & s5 & Hc & -> & H).
  rewrite run_seqs_cons in H. unfold Opt in H. rewrite run_Alt_iff in H.
  destruct H as [H|[_ H]].
  - rewrite run_seqs_cons in H. unfold Lit in H. rewrite run_Lits in H.
    destruct (starts_with (lit "-c") s5) eqn:E; [|done].
    apply starts_with_spec in E as [s6 ->]. rewrite drop_app_length in H.
    rewrite run_seqs_cons, run_group_digits_iff in H by (apply Eos_fails_on_digit).
    destruct H as (d & s7 & Hd & -> & H).
    rewrite run_seqs_nil, run_seqs_cons, run_Eos_iff, run_seqs_nil in H.
    destruct H as [Hend [= <- <- <-]].
    exists a, b, c, (Some d). split; [done|]. split; [|done].
    unfold version_text. destruct Hend as [->| ->].
    + left. rewrite app_nil_r. done.
    + right. rewrite <- !app_assoc. done.
  - simpl in H. destruct (at_string_end s5) eqn:E; [|done].
    injection H as <- <- <-. apply at_string_end_iff in E.
    exists a, b, c, None. split; [done|]. split; [|done].
    unfold version_text. destruct E as [->| ->].
    + left. done.
    + right. rewrite <- !app_assoc. done.
Qed.

Lemma version_re_complete a b c build tail :
  version_parts a b c build ->
  tail = [] \/ tail = [nl] ->
  exists bef aft,
    run version_re accept [] (version_text a b c build ++ tail) [] =
    Some (bef, aft, version_caps a b c build).
Proof.
  intros (Ha & Hb & Hc & Hd) Htail. unfold version_re, version_text.
  destruct build as [d|]; destruct Htail as [->| ->].
  all: do 2 eexists; rewrite run_seqs_cons.
  all: apply run_group_digits_iff; [apply Chr_fails_on_digit; done|].
  all: exists a; eexists; (split; [done|]); rewrite <- !app_assoc; (split; [done|]).
  all: rewrite run_seqs_cons; apply run_Chr_iff; eexists; (split; [done|]).
  all: rewrite run_seqs_cons.
  all: apply run_group_digits_iff; [apply Chr_fails_on_digit; done|].
  all: exists b; eexists; (split; [done|]); (split; [done|]).
  all: rewrite run_seqs_cons; apply run_Chr_iff; eexists; (split; [done|]).
  all: rewrite run_seqs_cons.
  all: apply run_group_digits_iff; [apply build_fails_on_digit|].
  all: exists c; eexists; (split; [done|]); (split; [done|]).
  all: rewrite run_seqs_cons; unfold Opt; apply run_Alt_iff.
  1,2: left; rewrite run_seqs_cons; unfold Lit; rewrite run_Lits_app.
  1,2: rewrite run_seqs_cons; apply run_group_digits_iff; [apply Eos_fails_on_digit|].
  1,2: exists d; eexists; (split; [done|]); (split; [done|]).
  1,2: rewrite run_seqs_nil, run_seqs_cons; apply run_Eos_iff; (split; [auto|]).
  1,2: rewrite run_seqs_nil; done.
  all: right; simpl; done.
Qed.

Lemma group_version_caps a b c build :
  group 1 (version_caps a b c build) = Some a /\
  group 2 (version_caps a b c build) = Some b /\
  group 3 (version_caps a b c build) = Some c /\
  group 4 (version_caps a b c build) = build.
Proof. destruct build; done. Qed.

Lemma parse_version_caps s bef aft a b c build :
  run version_re accept [] s [] = Some (bef, aft, version_caps a b c build) ->
  parse_version s = Some (version_value a b c build).
Proof.
  intros H. unfold parse_version, re_match, match_at. rewrite H. simpl.
  destruct (group_version_caps a b c build) as (-> & -> & -> & ->). done.
Qed.

Lemma in_grammar_no_newline s : in_grammar s -> nl ∉ s.
Proof.
  intros (a & b & c & build & (Ha & Hb & Hc & Hd) & ->).
  assert (Hdig : forall d, digits d -> nl ∉ d).
  { intros d [_ Hall] Hin. rewrite Forall_forall in Hall. apply Hall in Hin. done. }
  unfold version_text. rewrite !not_elem_of_app. repeat split; auto.
  - intros [= ]%list_elem_of_singleton.
  - intros [= ]%list_elem_of_singleton.
  - destruct build as [d|]; [|apply not_elem_of_nil].
    rewrite not_elem_of_app. split; [|auto].
    intros H. repeat (apply elem_of_cons in H as [H|H]; [done|]). by apply not_elem_of_nil in H.
Qed.

(** ** The version parser *)

Lemma parse_version_shape s v :
  parse_version s = Some v ->
  exists a b c build,
    version_parts a b c build /\
    (s = version_text a b c build \/ s = version_text a b c build ++ [nl]) /\
    v = version_value a b c build.
Proof.
  unfold parse_version, re_match, match_at.
  destruct (run version_re accept [] s []) as [[[bef aft] cs]|] eqn:E; [|done].
  apply version_re_sound in E as (a & b & c & build & Hp & Hs & ->).
  simpl. destruct (group_version_caps a b c build) as (-> & -> & -> & ->).
  intros [= <-]. exists a, b, c, build. done.
Qed.

Lemma digits_version_chars d : digits d -> Forall (fun c => version_char c = true) d.
Proof.
  intros [_ H]. eapply Forall_impl; [exact H|]. intros c Hc. unfold version_char.
  rewrite Hc. done.
Qed.

Lemma parse_version_chars s v :
  parse_version s = Some v -> s <> [] /\ Forall (fun c => version_char c = true) s.
Proof.
  intros (a & b & c & build & (Ha & Hb & Hc & Hd) & Hs & _)%parse_version_shape.
  assert (Hvt : Forall (fun c => version_char c = true) (version_text a b c build)).
  { unfold version_text. rewrite !Forall_app.
    repeat split; try (by apply digits_version_chars); try by repeat constructor.
    destruct build as [d|]; [|constructor].
    apply Forall_app. split; [by repeat constructor|by apply digits_version_chars]. }
  assert (Hne : version_text a b c build <> []).
  { unfold version_text. destruct Ha as [Ha _]. destruct a; done. }
  destruct Hs as [->| ->].
  - done.
  - split; [destruct (version_text a b c build); done|].
    apply Forall_app. split; [done|by repeat constructor].
Qed.

Lemma interpolate_ok p v :
  p backslash = false -> Forall (fun c => p c = true) v -> interpolate v = Ok v.
Proof.
  intros Hp Hv. unfold interpolate.
  assert (H : existsb (Ascii.eqb backslash) v = false).
  { induction Hv as [|x v Hx Hv IH]; [done|]. cbn [existsb]. rewrite IH, orb_false_r.
    apply Ascii.eqb_neq. intros <-. congruence. }
  rewrite H. done.
Qed.

Lemma interpolate_version s v : parse_version s = Some v -> interpolate s = Ok s.
Proof. intros [_ H]%parse_version_chars. by apply (interpolate_ok version_char). Qed.

(** C3 fails on the code: a string with a newline after the version is not
    in the grammar and is parsed all the same, to the tuple of the version
    before the newline.  The [$] of the pattern, without MULTILINE, matches
    at the end of the string and also before a newline that ends it. *)
Theorem C3_trailing_newline_accepted :
  parse_version (lit "6.1.5" ++ [nl]) = Some (6, 1, 5, 0)%N /\
  ~ in_grammar (lit "6.1.5" ++ [nl]).
Proof.
  split; [reflexivity|]. intros H%in_grammar_no_newline. apply H.
  apply elem_of_app. right. apply list_elem_of_singleton. done.
Qed.



(** ** Matches are stretches of the text *)

Lemma rep_forward g p k bef aft cs res :
  rep g p k bef aft cs = Some res ->
  exists w aft' cs', aft = w ++ aft' /\ k (rev w ++ bef) aft' cs' = Some res.
Proof.
  revert bef. induction aft as [|x t IH]; intros bef; simpl.
  - intros H. exists [], [], cs. done.
  - assert (Hmore : rep g p k (x :: bef) t cs = Some res ->
              exists w aft' cs', x :: t = w ++ aft' /\ k (rev w ++ bef) aft' cs' = Some res).
    { intros (w & aft' & cs' & -> & Hk)%IH. exists (x :: w), aft', cs'.
      simpl. rewrite <- app_assoc. done. }
    assert (Hhere : k bef (x :: t) cs = Some res ->
              exists w aft' cs', x :: t = w ++ aft' /\ k (rev w ++ bef) aft' cs' = Some res).
    { intros H. exists [], (x :: t), cs. done. }
    destruct (p x); [|done]. destruct g.
    + destruct (rep true p k (x :: bef) t cs) eqn:E; [|done].
      intros [= ->]. auto.
    + destruct (k bef (x :: t) cs) eqn:E; [|done].
      intros [= ->]. auto.
Qed.

(** A match of [r] followed by [k]: [k] is run after some text [w] that
    starts at the cursor. *)
Lemma run_forward r : forall k bef aft cs res,
  run r k bef aft cs = Some res ->
  exists w aft' cs', aft = w ++ aft' /\ k (rev w ++ bef) aft' cs' = Some res.
Proof.
  induction r as [|c|p|r1 IH1 r2 IH2|r1 IH1 r2 IH2|g p|n r1 IH1|r1 IH1| |];
    intros k bef aft cs res; simpl.
  - intros H. exists [], aft, cs. done.
  - destruct aft as [|x t]; [done|]. destruct (Ascii.eqb x c); [|done].
    intros H. exists [x], t, cs. done.
  - destruct aft as [|x t]; [done|]. destruct (p x); [|done].
    intros H. exists [x], t, cs. done.
  - intros (w1 & aft1 & cs1 & -> & (w2 & aft2 & cs2 & -> & H)%IH2)%IH1.
    exists (w1 ++ w2), aft2, cs2. rewrite rev_app_distr, <- !app_assoc. done.
  - destruct (run r1 k bef aft cs) eqn:E.
    + intros [= ->]. apply IH1 in E. done.
    + apply IH2.
  - apply rep_forward.
  - intros (w & aft' & cs' & -> & H)%IH1. eauto 6.
  - destruct (run r1 accept bef aft cs) as [[[b a] cs']|] eqn:E; [|done].
    intros H. exists [], aft, cs'. done.
  - destruct (at_line_start bef); [|done].
    intros H. exists [], aft, cs. done.
  - destruct (at_string_end aft); [|done].
    intros H. exists [], aft, cs. done.
Qed.

(** A match at a cursor is a prefix [w] of the text after it. *)
Lemma match_at_span r bef aft m :
  match_at r bef aft = Some m ->
  exists w rest,
    aft = w ++ rest /\
    m_start m = length bef /\ m_end m = length bef + length w /\ m_text m = w.
Proof.
  unfold match_at. destruct (run r accept bef aft []) as [[[bef' aft'] cs]|] eqn:E; [|done].
  apply run_forward in E as (w & a & c & -> & [= <- <- <-]).
  intros [= <-]. exists w, a. simpl.
  rewrite captured, length_app, length_rev. split; [done|]. split; [done|]. split; [lia|done].
Qed.

(** ** The order of versions *)

Lemma version_ltb_spec a b : version_ltb a b = true <-> version_lt a b.
Proof.
  destruct a as [[[a1 a2] a3] a4], b as [[[b1 b2] b3] b4]. simpl.
  repeat first [rewrite orb_true_iff | rewrite andb_true_iff
               | rewrite N.ltb_lt | rewrite N.eqb_eq].
  tauto.
Qed.

Lemma version_not_gt_le a b : version_gtb a b = false <-> version_le a b.
Proof.
  unfold version_gtb, version_le. rewrite <- not_true_iff_false, version_ltb_spec.
  destruct a as [[[a1 a2] a3] a4], b as [[[b1 b2] b3] b4]. simpl. split.
  - intros H.
    destruct (N.lt_total a1 b1) as [?|[->|?]]; [right; lia| |exfalso; apply H; lia].
    destruct (N.lt_total a2 b2) as [?|[->|?]]; [right; lia| |exfalso; apply H; lia].
    destruct (N.lt_total a3 b3) as [?|[->|?]]; [right; lia| |exfalso; apply H; lia].
    destruct (N.lt_total a4 b4) as [?|[->|?]]; [right; lia| |exfalso; apply H; lia].
    left. done.
  - intros [[= -> -> -> ->]|H]; lia.
Qed.

(** ** The loop of the updater *)

Lemma for_each_app {S A : Type} (body : S -> A -> result S) s l1 l2 :
  for_each body s (l1 ++ l2) = do s' <- for_each body s l1; for_each body s' l2.
Proof.
  revert s. induction l1 as [|a l1 IH]; intros s; simpl; [done|].
  destruct (body s a); simpl; [apply IH|done].
Qed.

(** One turn of the loop, by what the block qualifies for. *)
Lemma update_release_cases cycles content changes r :
  update_release cycles (content, changes) r =
  match cycles !! releaseCycle r with
  | None => Ok (content, changes)
  | Some info =>
      match parse_version (version info) with
      | None => Ok (content, changes)
      | Some new =>
          match current_parsed r with
          | None => Raise TypeError
          | Some cur =>
              if version_gtb new cur then
                do t <- update_block (_text r) (version info) (date info);
                Ok (take (_start r) content ++ t ++ drop (_end r) content,
                    changes ++ [change_line (releaseCycle r) (current_version r) (version info)])
              else Ok (content, changes)
          end
      end
  end.
Proof.
  unfold update_release, current_parsed, current_version, change_line.
  destruct (cycles !! releaseCycle r) as [info|]; [|done].
  destruct (parse_version (version info)) as [new|]; [|done].
  destruct (default [] (latest r)) as [|x t] eqn:E.
  - destruct (version_gtb new default_version); done.
  - destruct (parse_version (x :: t)) as [cur|]; [|done].
    destruct (version_gtb new cur); done.
Qed.

Lemma update_release_skip cycles st r :
  qualifies cycles r = None ->
  (forall info, cycles !! releaseCycle r = Some info ->
     parse_version (version info) <> None -> current_parsed r <> None) ->
  update_release cycles st r = Ok st.
Proof.
  destruct st as [content changes]. rewrite update_release_cases. unfold qualifies.
  destruct (cycles !! releaseCycle r) as [info|]; [|done].
  destruct (parse_version (version info)) as [new|] eqn:E; [|done].
  destruct (current_parsed r) as [cur|].
  - destruct (version_gtb new cur); [intros [=]|done].
  - intros _ H. exfalso. apply (H info); [done|congruence|done].
Qed.

Lemma update_release_ok cycles content changes r st' :
  update_release cycles (content, changes) r = Ok st' ->
  st' = (take (_start r) content ++ new_text cycles r ++ drop (_end r) content,
         changes ++ option_list (block_change cycles r)) /\
  qualifies cycles r <> None \/
  st' = (content, changes) /\ qualifies cycles r = None.
Proof.
  rewrite update_release_cases. unfold new_text, block_change, qualifies.
  destruct (cycles !! releaseCycle r) as [info|]; [|intros [= <-]; by right].
  destruct (parse_version (version info)) as [new|]; [|intros [= <-]; by right].
  destruct (current_parsed r) as [cur|]; [|done].
  destruct (version_gtb new cur); [|intros [= <-]; by right].
  destruct (update_block (_text r) (version info) (date info)) as [t|]; [|done].
  simpl. intros [= <-]. left. done.
Qed.

Lemma for_each_changes cycles l : forall content changes content2 changes2,
  for_each (update_release cycles) (content, changes) l = Ok (content2, changes2) ->
  changes2 = changes ++ omap (block_change cycles) l /\
  (Forall (fun r => qualifies cycles r = None) l -> content2 = content).
Proof.
  induction l as [|r l IH]; intros content changes content2 changes2; cbn [for_each].
  - intros [= <- <-]. rewrite app_nil_r. done.
  - destruct (update_release cycles (content, changes) r) as [[c1 ch1]|] eqn:E;
      cbn [bind]; [|done].
    intros [-> Hc]%IH. cbn [omap list_omap].
    apply update_release_ok in E as [[[= -> ->] Hq]|[[= -> ->] Hq]].
    + split.
      * destruct (block_change cycles r); simpl; rewrite <- app_assoc; done.
      * intros Hall. apply Forall_cons in Hall as [Hr _]. done.
    + split.
      * unfold block_change at 2. rewrite Hq. done.
      * intros Hall. apply Forall_cons in Hall as [_ Hall]. auto.
Qed.

(** ** The updater: order of the changes, blocks that do not qualify *)

(** C9: the change lines are those of the blocks that qualify, taken from the
    last block of the sequence to the first, and the text is the input's
    when no block qualifies. *)
Theorem C9_changes_in_reverse_order content releases cycles content2 changes :
  apply_updates content releases cycles = Ok (content2, changes) ->
  changes = omap (block_change cycles) (rev releases) /\
  (Forall (fun r => qualifies cycles r = None) releases -> content2 = content).
Proof.
  unfold apply_updates. intros [-> H]%for_each_changes. split; [done|].
  intros Hall. apply H. apply Forall_rev. done.
Qed.

Lemma C9_witness :
  apply_updates ex_doc (parse_md_releases ex_doc) ex_feed =
    Ok (ex_doc_updated, [lit "6.2: 6.2.1 -> 6.2.8"; lit "6.3: 6.3.2 -> 6.3.3-c842"]) /\
  [lit "6.2: 6.2.1 -> 6.2.8"; lit "6.3: 6.3.2 -> 6.3.3-c842"] =
    omap (block_change ex_feed) (rev (parse_md_releases ex_doc)) /\
  (Forall (fun r => qualifies ex_feed r = None) (parse_md_releases ex_doc) ->
   ex_doc_updated = ex_doc).
Proof.
  split; [vm_compute; reflexivity|].
  apply (C9_changes_in_reverse_order ex_doc (parse_md_releases ex_doc) ex_feed).
  vm_compute. reflexivity.
Defined.

(** C5: a block whose cycle is in the feed with a version that is not greater
    than the block's is passed over: the turn of the loop changes neither the
    text nor the changes, and the run is the run without the block. *)
Theorem C5_no_regression cycles r info new cur :
  cycles !! releaseCycle r = Some info ->
  parse_version (version info) = Some new ->
  current_parsed r = Some cur ->
  version_le new cur ->
  (forall content changes,
     update_release cycles (content, changes) r = Ok (content, changes)) /\
  (forall content before after,
     apply_updates content (before ++ r :: after) cycles =
     apply_updates content (before ++ after) cycles).
Proof.
  intros Hc Hn Hcur Hle.
  assert (Hstep : forall st, update_release cycles st r = Ok st).
  { intros st. apply update_release_skip.
    - unfold qualifies. rewrite Hc, Hn, Hcur.
      apply version_not_gt_le in Hle. rewrite Hle. done.
    - intros _ _ _. rewrite Hcur. done. }
  split; [intros; apply Hstep|].
  intros content before after. unfold apply_updates.
  rewrite !rev_app_distr. simpl. rewrite <- !app_assoc. rewrite !for_each_app.
  destruct (for_each _ _ (rev after)) as [st|]; simpl; [|done].
  rewrite Hstep. done.
Qed.

Lemma C5_witness :
  let r := {| releaseCycle := lit "6.3"; latest := Some (lit "6.3.2");
              latestReleaseDate := Some (lit "2025-11-01");
              _start := 14; _end := 104; _text := cycle_line "6.3" |} in
  let info := {| version := lit "6.3.2"; date := lit "2025-11-01" |} in
  (ex_feed_old !! releaseCycle r = Some info /\
   parse_version (version info) = Some (6, 3, 2, 0)%N /\
   current_parsed r = Some (6, 3, 2, 0)%N /\
   version_le (6, 3, 2, 0)%N (6, 3, 2, 0)%N) /\
  (forall content changes,
     update_release ex_feed_old (content, changes) r = Ok (content, changes)) /\
  (forall content before after,
     apply_updates content (before ++ r :: after) ex_feed_old =
     apply_updates content (before ++ after) ex_feed_old).
Proof.
  intros r info.
  assert (H1 : ex_feed_old !! releaseCycle r = Some info) by (vm_compute; reflexivity).
  assert (H2 : parse_version (version info) = Some (6, 3, 2, 0)%N) by (vm_compute; reflexivity).
  assert (H3 : current_parsed r = Some (6, 3, 2, 0)%N) by (vm_compute; reflexivity).
  assert (H4 : version_le (6, 3, 2, 0)%N (6, 3, 2, 0)%N) by (left; reflexivity).
  split; [done|].
  exact (C5_no_regression ex_feed_old r info _ _ H1 H2 H3 H4).
Defined.

(** C2 fails on the code: with a recorded version that is not of the grammar
    and a feed version that is, the comparison of the tuple with [None]
    raises TypeError. *)
Theorem C2_unparseable_latest_raises :
  latest <$> parse_md_releases ex_doc_tbd = [Some (lit "TBD")] /\
  parse_version (lit "TBD") = None /\
  apply_updates ex_doc_tbd (parse_md_releases ex_doc_tbd) ex_feed = Raise TypeError.
Proof. vm_compute. done. Qed.

(** ** The feed loader *)

Lemma version_le_refl a : version_le a a.
Proof. left. done. Qed.

Lemma version_lt_le a b : version_lt a b -> version_le a b.
Proof. right. done. Qed.

Lemma version_le_lt a b c : version_le a b -> version_lt b c -> version_lt a c.
Proof.
  intros [->|H]; [done|]. revert H.
  destruct a as [[[a1 a2] a3] a4], b as [[[b1 b2] b3] b4], c as [[[c1 c2] c3] c4].
  simpl. lia.
Qed.

Lemma version_lt_irrefl a : ~ version_lt a a.
Proof. destruct a as [[[a1 a2] a3] a4]. simpl. lia. Qed.

Lemma feed_version_at_app_l pre e j c vs v :
  j < length pre ->
  feed_version_at (pre ++ [e]) j c vs v <-> feed_version_at pre j c vs v.
Proof. intros Hj. unfold feed_version_at. rewrite lookup_app_l by done. done. Qed.

Lemma feed_version_at_last pre e j c vs v :
  feed_version_at (pre ++ [e]) j c vs v ->
  feed_version_at pre j c vs v \/
  j = length pre /\ entry_version e = Some vs /\
  get_release_cycle vs = Some c /\ parse_version vs = Some v.
Proof.
  destruct (decide (j < length pre)) as [Hj|Hj].
  - rewrite feed_version_at_app_l by done. by left.
  - intros (e' & Hl & H). right.
    rewrite lookup_app_r in Hl by lia.
    destruct (j - length pre) as [|n] eqn:E; [|done].
    injection Hl as <-. split; [lia|done].
Qed.

Lemma first_maximal_keep reformat_date pre e c info :
  first_maximal reformat_date pre c info ->
  (forall vs v', entry_version e = Some vs -> get_release_cycle vs = Some c ->
     parse_version vs = Some v' ->
     forall v, parse_version (version info) = Some v -> version_gtb v' v = false) ->
  first_maximal reformat_date (pre ++ [e]) c info.
Proof.
  intros (i & e0 & ro & v & Hi & Hv & Hro & Hd & Hc & Hp & Hmax) Hnew.
  exists i, e0, ro, v. repeat split; try done.
  - rewrite lookup_app_l; [done|]. eapply lookup_lt_Some. done.
  - apply feed_version_at_last in H as [H|(-> & Hv' & Hc' & Hp')].
    + apply Hmax in H. tauto.
    + apply version_not_gt_le. eapply Hnew; done.
  - intros ->. apply feed_version_at_last in H as [H|(-> & Hv' & Hc' & Hp')].
    + apply Hmax in H. tauto.
    + apply lookup_lt_Some in Hi. lia.
Qed.

Section FeedLoaderProperties.

Variable reformat_date : str -> option str.

Lemma load_entry_invariant pre cycles e cycles' :
  feed_invariant reformat_date pre cycles ->
  load_entry reformat_date cycles e = Ok cycles' ->
  feed_invariant reformat_date (pre ++ [e]) cycles'.
Proof.
  intros Hinv. unfold load_entry.
  destruct (entry_version e) as [vs|] eqn:Ev; simpl; [|done].
  destruct (parse_version vs) as [parsed|] eqn:Ep.
  2: { intros [= <-] c. specialize (Hinv c). destruct (cycles !! c) as [info|].
       - apply first_maximal_keep; [done|]. intros vs' v' Hv'. congruence.
       - intros j vs' v H. apply feed_version_at_last in H as [H|(_ & Hv' & _ & Hp')].
         + exact (Hinv _ _ _ H).
         + congruence. }
  destruct (get_release_cycle vs) as [cycle|] eqn:Ec.
  2: { intros [= <-] c. specialize (Hinv c). destruct (cycles !! c) as [info|].
       - apply first_maximal_keep; [done|]. intros vs' v' Hv'. congruence.
       - intros j vs' v H. apply feed_version_at_last in H as [H|(_ & Hv' & Hc' & _)].
         + exact (Hinv _ _ _ H).
         + congruence. }
  destruct (entry_released_on e) as [ro|] eqn:Er; simpl; [|done].
  destruct (reformat_date ro) as [released_date|] eqn:Ed; [|done].
  set (info_new := {| version := vs; date := released_date |}).
  assert (Hother : forall (cycles1 : gmap str cycle_info) c, c <> cycle ->
            cycles1 !! c = cycles !! c ->
            match cycles1 !! c with
            | Some info => first_maximal reformat_date (pre ++ [e]) c info
            | None => forall j version_str v, ~ feed_version_at (pre ++ [e]) j c version_str v
            end).
  { intros cycles1 c Hne ->. specialize (Hinv c). destruct (cycles !! c) as [info|].
    - apply first_maximal_keep; [done|]. intros vs' v' Hv'. congruence.
    - intros j vs' v H. apply feed_version_at_last in H as [H|(_ & Hv' & Hc' & _)].
      + exact (Hinv _ _ _ H).
      + congruence. }
  assert (Hnew : forall bound,
            (forall j vs' v', feed_version_at pre j cycle vs' v' -> version_lt v' bound) ->
            version_le bound parsed ->
            first_maximal reformat_date (pre ++ [e]) cycle info_new).
  { intros bound Hlt Hle. exists (length pre), e, ro, parsed. repeat split; try done.
    - rewrite lookup_app_r by lia. rewrite Nat.sub_diag. done.
    - apply feed_version_at_last in H as [H|(-> & Hv' & Hc' & Hp')].
      + apply Hlt in H. destruct Hle as [->|Hle]; [by right|].
        right. eapply version_le_lt; [right|]; done.
      + assert (v' = parsed) as -> by congruence. apply version_le_refl.
    - intros ->. apply feed_version_at_last in H as [H|(-> & _)]; [|done].
      apply Hlt in H. exfalso. destruct Hle as [->|Hle].
      + by apply version_lt_irrefl in H.
      + eapply version_lt_irrefl, version_le_lt; [right|]; done. }
  pose proof (Hinv cycle) as Hcycle.
  destruct (cycles !! cycle) as [old|] eqn:Eold.
  - destruct Hcycle as (i & e0 & ro0 & v0 & Hi & Hv0 & Hro0 & Hd0 & Hc0 & Hp0 & Hmax).
    rewrite Hp0. destruct (version_gtb parsed v0) eqn:Egt.
    + intros [= <-] c. destruct (decide (c = cycle)) as [->|Hne].
      * rewrite lookup_insert_eq.
        apply version_ltb_spec in Egt.
        eapply (Hnew parsed); [|apply version_le_refl].
        intros j vs' v' H. apply Hmax in H as [H _].
        eapply version_le_lt; done.
      * apply Hother; [done|]. rewrite lookup_insert_ne; done.
    + intros [= <-] c. destruct (decide (c = cycle)) as [->|Hne].
      * rewrite Eold. apply first_maximal_keep.
        { exists i, e0, ro0, v0. done. }
        intros vs' v' Hv' _ Hp' v Hv. congruence.
      * apply Hother; done.
  - intros [= <-] c. destruct (decide (c = cycle)) as [->|Hne].
    + rewrite lookup_insert_eq. apply (Hnew parsed); [|apply version_le_refl].
      intros j vs' v' H. destruct (Hcycle _ _ _ H).
    + apply Hother; [done|]. rewrite lookup_insert_ne; done.
Qed.

Lemma load_entries_invariant entries : forall pre cycles cycles',
  feed_invariant reformat_date pre cycles ->
  for_each (load_entry reformat_date) cycles entries = Ok cycles' ->
  feed_invariant reformat_date (pre ++ entries) cycles'.
Proof.
  induction entries as [|e entries IH]; intros pre cycles cycles' Hinv; cbn [for_each].
  - intros [= <-]. rewrite app_nil_r. done.
  - destruct (load_entry reformat_date cycles e) as [cycles1|] eqn:E; cbn [bind]; [|done].
    intros H. replace (pre ++ e :: entries) with ((pre ++ [e]) ++ entries)
      by (rewrite <- app_assoc; done).
    eapply IH; [|exact H]. eapply load_entry_invariant; done.
Qed.

(** C6: the map the loader returns has one entry for a cycle (its keys are
    distinct), made from a record of the feed of that cycle whose version is
    the greatest among the records of the cycle, and the first of those with
    that version; a cycle without an entry has no record in the feed. *)
Theorem C6_feed_map_maximum (entries : list feed_entry) (cycles : gmap str cycle_info) :
  load_json_versions reformat_date entries = Ok cycles ->
  NoDup (fst <$> map_to_list cycles) /\
  (forall c info, cycles !! c = Some info -> first_maximal reformat_date entries c info) /\
  (forall c, cycles !! c = None ->
     forall j version_str v, ~ feed_version_at entries j c version_str v).
Proof.
  intros H. split; [apply NoDup_fst_map_to_list|].
  assert (Hinv : feed_invariant reformat_date entries cycles).
  { apply (load_entries_invariant entries [] ∅ cycles); [|exact H].
    intros c. rewrite lookup_empty. intros j vs v (e & Hl & _). done. }
  split.
  - intros c info Hc. specialize (Hinv c). rewrite Hc in Hinv. done.
  - intros c Hc. specialize (Hinv c). rewrite Hc in Hinv. done.
Qed.

End FeedLoaderProperties.

Lemma C6_witness :
  load_json_versions ex_reformat ex_entries = Ok ex_feed /\
  (NoDup (fst <$> map_to_list ex_feed) /\
   (forall c info, ex_feed !! c = Some info -> first_maximal ex_reformat ex_entries c info) /\
   (forall c, ex_feed !! c = None ->
      forall j version_str v, ~ feed_version_at ex_entries j c version_str v)).
Proof.
  assert (H : load_json_versions ex_reformat ex_entries = Ok ex_feed)
    by (vm_compute; reflexivity).
  split; [exact H|].
  exact (C6_feed_map_maximum ex_reformat ex_entries ex_feed H).
Defined.

(** ** The patterns of the script, one by one *)

Lemma not_quote_false x : not_quote x = false <-> x = dquote.
Proof. unfold not_quote. rewrite negb_false_iff. apply Ascii.eqb_eq. Qed.

Lemma drop_while_not_quote_head t x rest : drop_while not_quote t = x :: rest -> x = dquote.
Proof.
  intros H. pose proof (drop_while_head not_quote t) as Hh. rewrite H in Hh.
  apply not_quote_false. done.
Qed.

(** A quote, as many characters other than the quote as there are, a quote. *)
Lemma run_quoted k bef aft cs :
  run (seqs [Chr dquote; Rep true not_quote; Chr dquote]) k bef aft cs =
  match quoted_here aft with
  | Some (v, rest) => k (rev ([dquote] ++ v ++ [dquote]) ++ bef) rest cs
  | None => None
  end.
Proof.
  unfold quoted_here, is_quote. destruct aft as [|c t]; [done|].
  cbn [seqs foldr run]. destruct (Ascii.eqb c dquote) eqn:Ec; [|done].
  apply Ascii.eqb_eq in Ec as ->.
  rewrite rep_greedy_max.
  2: { intros b x t' c Hx. unfold not_quote in Hx.
       apply negb_true_iff in Hx. rewrite Hx. done. }
  destruct (drop_while not_quote t) as [|x rest] eqn:E; [done|].
  apply drop_while_not_quote_head in E as Hx. subst x.
  rewrite Ascii.eqb_refl. f_equal.
  simpl. rewrite !rev_app_distr. simpl. rewrite <- !app_assoc. done.
Qed.

Lemma run_latest_value bef aft :
  run latest_value_re accept bef aft [] =
  match latest_here aft with
  | Some (v, rest) => Some (rev (latest_text v) ++ bef, rest, [(1, latest_key)])
  | None => None
  end.
Proof.
  unfold latest_value_re, latest_here, Lit. rewrite run_seqs_cons, run_Group_Lits.
  fold latest_key. destruct (starts_with latest_key aft); [|done].
  rewrite run_quoted. destruct (quoted_here _) as [[v rest]|]; [|done].
  unfold latest_text, accept. rewrite (rev_app_distr latest_key), <- app_assoc. done.
Qed.

Lemma run_latest_line bef aft :
  run latest_line_re accept bef aft [] =
  match latest_here aft with
  | Some (v, rest) => Some (rev (latest_text v) ++ bef, rest, [(1, latest_text v)])
  | None => None
  end.
Proof.
  unfold latest_line_re, latest_here, Lit. cbn [run].
  rewrite run_seqs_cons, run_Lits. fold latest_key.
  destruct (starts_with latest_key aft); [|done].
  rewrite run_quoted. destruct (quoted_here _) as [[v rest]|]; [|done].
  replace (rev ([dquote] ++ v ++ [dquote]) ++ rev latest_key ++ bef)
    with (rev (latest_text v) ++ bef)
    by (unfold latest_text; rewrite (rev_app_distr latest_key), <- app_assoc; done).
  rewrite captured. done.
Qed.

Lemma run_date_value bef aft :
  run date_value_re accept bef aft [] =
  match date_here aft with
  | Some (d, rest) => Some (rev (date_key ++ d) ++ bef, rest, [(1, date_key)])
  | None => None
  end.
Proof.
  unfold date_value_re, date_here, Lit. rewrite run_seqs_cons, run_Group_Lits.
  fold date_key. destruct (starts_with date_key aft); [|done].
  rewrite run_seqs_cons, run_seqs_nil, run_Plus_accept.
  destruct (take_while not_space _) as [|x d]; [done|].
  rewrite rev_app_distr, <- app_assoc. done.
Qed.

Lemma run_field field bef aft :
  run (field_re field) accept bef aft [] =
  match field_here field aft with
  | Some val =>
      let key := lit "    " ++ lit field ++ lit ": " in
      Some (rev (key ++ val) ++ bef, drop (length (key ++ val)) aft, [(1, val)])
  | None => None
  end.
Proof.
  unfold field_re, field_here, Lit.
  rewrite !run_seqs_cons, run_seqs_nil, !run_Lits_Lits, <- app_assoc.
  set (key := lit "    " ++ lit field ++ lit ": ").
  rewrite run_Lits. destruct (starts_with key aft) eqn:Ek; [|done].
  rewrite run_Group_Plus_accept.
  destruct (take_while not_newline _) as [|x val] eqn:E; [done|].
  cbn zeta. f_equal. f_equal. f_equal.
  - rewrite rev_app_distr, <- app_assoc. done.
  - rewrite <- E. rewrite length_app, <- drop_drop.
    set (s := drop (length key) aft).
    transitivity (drop (length (take_while not_newline s))
                       (take_while not_newline s ++ drop_while not_newline s)).
    + rewrite drop_app_length. done.
    + rewrite take_drop_while. done.
Qed.

Lemma run_terminator_ahead k bef aft cs :
  run (Ahead (Alt (seqs [Chr nl; Lit "  - releaseCycle:"]) (seqs [Chr nl; Lit "---"])))
      k bef aft cs =
  if is_terminator aft then k bef aft cs else None.
Proof.
  cbn [run].
  change (run (seqs [Chr nl; Lit "  - releaseCycle:"]) accept)
    with (run (Lits (nl :: lit "  - releaseCycle:")) accept).
  change (run (seqs [Chr nl; Lit "---"]) accept) with (run (Lits (nl :: lit "---")) accept).
  rewrite !run_Lits. unfold is_terminator.
  destruct (starts_with (nl :: lit "  - releaseCycle:") aft); [done|].
  destruct (starts_with (nl :: lit "---") aft); done.
Qed.

(** As little as possible up to a terminator: up to the first one. *)
Lemma rep_lazy_terminator bef aft cs :
  rep false any_char
      (run (Ahead (Alt (seqs [Chr nl; Lit "  - releaseCycle:"]) (seqs [Chr nl; Lit "---"])))
           accept) bef aft cs =
  match find_terminator aft with
  | Some (body, rest) => Some (rev body ++ bef, rest, cs)
  | None => None
  end.
Proof.
  revert bef. induction aft as [|x t IH]; intros bef.
  - cbn [rep find_terminator]. rewrite run_terminator_ahead. done.
  - cbn [rep find_terminator any_char]. rewrite run_terminator_ahead.
    destruct (is_terminator (x :: t)); [done|].
    rewrite IH. destruct (find_terminator t) as [[body rest]|]; [|done].
    simpl. rewrite <- app_assoc. done.
Qed.

Lemma run_block bef aft :
  run block_re accept bef aft [] =
  if at_line_start bef then
    match block_here aft with
    | Some (cycle, body, rest) =>
        Some (rev (block_text cycle body) ++ bef, rest, [(1, cycle)])
    | None => None
    end
  else None.
Proof.
  unfold block_re, block_here, header_here, Lit. rewrite run_seqs_cons. cbn [run].
  destruct (at_line_start bef); [|done].
  rewrite run_seqs_cons, run_Lits. fold cycle_key.
  destruct (starts_with cycle_key aft); [|done].
  set (bef1 := rev cycle_key ++ bef). set (aft1 := drop (length cycle_key) aft).
  unfold quoted_here, is_quote. rewrite run_seqs_cons. cbn [run].
  destruct aft1 as [|c t]; [done|].
  destruct (Ascii.eqb c dquote) eqn:Ec; [|done]. apply Ascii.eqb_eq in Ec as ->.
  rewrite run_seqs_cons, run_Group_Plus_max.
  2: { intros b x t' cs Hx. simpl. unfold not_quote in Hx.
       apply negb_true_iff in Hx. rewrite Hx. done. }
  destruct (drop_while not_quote t) as [|x after] eqn:E.
  { destruct (take_while not_quote t); done. }
  apply drop_while_not_quote_head in E as Hx. subst x.
  destruct (take_while not_quote t) as [|c0 cycle] eqn:Ecycle; [done|].
  rewrite run_seqs_cons. cbn [run]. rewrite Ascii.eqb_refl.
  rewrite run_seqs_cons, run_seqs_cons, run_seqs_nil. cbn [run].
  rewrite rep_lazy_terminator.
  destruct (find_terminator after) as [[body rest]|]; [|done].
  f_equal. f_equal. f_equal. unfold block_text, bef1.
  rewrite !rev_app_distr. simpl. rewrite <- !app_assoc. done.
Qed.

Lemma match_at_of_run r bef aft w rest cs :
  run r accept bef aft [] = Some (rev w ++ bef, rest, cs) ->
  match_at r bef aft =
  Some {| m_start := length bef; m_end := length bef + length w;
          m_text := w; m_groups := cs |}.
Proof.
  intros H. unfold match_at. rewrite H, captured. f_equal. f_equal.
  rewrite length_app, length_rev. lia.
Qed.

Lemma match_at_none r bef aft : run r accept bef aft [] = None -> match_at r bef aft = None.
Proof. intros H. unfold match_at. rewrite H. done. Qed.

(** ** The scan *)

Lemma scan_skip r w bef rest : scan r (length w) bef (w ++ rest) = scan r 0 (rev w ++ bef) rest.
Proof.
  revert bef. induction w as [|x w IH]; intros bef; [done|].
  cbn [length app scan]. rewrite IH. simpl. rewrite <- app_assoc. done.
Qed.

Lemma scan_miss r bef x t :
  match_at r bef (x :: t) = None -> scan r 0 bef (x :: t) = Text x :: scan r 0 (x :: bef) t.
Proof. intros H. cbn [scan]. rewrite H. done. Qed.

Lemma scan_hit r bef w rest m :
  w <> [] ->
  match_at r bef (w ++ rest) = Some m ->
  m_end m - m_start m = length w ->
  scan r 0 bef (w ++ rest) = Hit m :: scan r 0 (rev w ++ bef) rest.
Proof.
  intros Hw Hm Hlen. destruct w as [|x w]; [done|].
  cbn [scan app]. change (x :: w ++ rest) with ((x :: w) ++ rest). rewrite Hm.
  cbn [app]. rewrite Hlen. cbn [length]. rewrite scan_skip.
  simpl. rewrite <- app_assoc. done.
Qed.

Lemma scan_scanned r :
  nonempty_matches r -> forall aft bef, scanned r bef aft (scan r 0 bef aft).
Proof.
  intros Hne aft. remember (length aft) as n eqn:En. revert aft En.
  induction n as [n IH] using lt_wf_ind. intros aft -> bef.
  destruct (match_at r bef aft) as [m|] eqn:Em.
  - pose proof (Hne _ _ _ Em) as Hlt.
    destruct (match_at_span _ _ _ _ Em) as (w & rest & -> & Hs & He & Ht).
    assert (Hw : w <> []) by (intros ->; simpl in *; lia).
    rewrite (scan_hit r bef w rest m Hw Em) by lia.
    apply scanned_hit; try done.
    eapply IH; [|done]. rewrite length_app. destruct w; [done|]. simpl. lia.
  - destruct aft as [|x t].
    + cbn [scan]. rewrite Em. constructor.
    + rewrite scan_miss by done. constructor; [done|].
      eapply IH; [|done]. simpl. lia.
Qed.

(** ** What the patterns match, as equations on the text *)

Lemma all_not_quote v : Forall (fun c => not_quote c = true) v <-> dquote ∉ v.
Proof.
  rewrite Forall_forall. split.
  - intros H Hin. apply H in Hin. done.
  - intros H x Hx. unfold not_quote. apply negb_true_iff, Ascii.eqb_neq. intros ->. done.
Qed.

Lemma quoted_here_Some s v rest :
  quoted_here s = Some (v, rest) <-> s = dquote :: v ++ dquote :: rest /\ dquote ∉ v.
Proof.
  unfold quoted_here, is_quote. split.
  - destruct s as [|c t]; [done|].
    destruct (Ascii.eqb c dquote) eqn:Ec; [|done]. apply Ascii.eqb_eq in Ec as ->.
    destruct (drop_while not_quote t) as [|x r] eqn:E; [done|].
    intros [= <- <-]. apply drop_while_not_quote_head in E as Hx. subst x.
    split.
    + rewrite <- E, take_drop_while. done.
    + apply all_not_quote, take_while_all.
  - intros [-> Hv]. rewrite Ascii.eqb_refl.
    apply all_not_quote in Hv.
    destruct (take_while_app not_quote v (dquote :: rest) Hv) as [-> ->]; done.
Qed.

Lemma latest_here_Some s v rest :
  latest_here s = Some (v, rest) <-> s = latest_text v ++ rest /\ dquote ∉ v.
Proof.
  unfold latest_here, latest_text. split.
  - destruct (starts_with latest_key s) eqn:E; [|done].
    apply starts_with_spec in E as [t ->]. rewrite drop_app_length.
    intros [-> Hv]%quoted_here_Some. rewrite <- !app_assoc. done.
  - intros [-> Hv]. rewrite <- !app_assoc, starts_with_app, drop_app_length.
    apply quoted_here_Some. done.
Qed.

Lemma date_here_Some s d rest :
  date_here s = Some (d, rest) ->
  s = date_key ++ d ++ rest /\ d <> [] /\ Forall (fun c => not_space c = true) d /\
  match rest with [] => True | x :: _ => not_space x = false end.
Proof.
  unfold date_here. destruct (starts_with date_key s) eqn:E; [|done].
  apply starts_with_spec in E as [t ->]. rewrite drop_app_length.
  destruct (take_while not_space t) as [|x d'] eqn:Ed; [done|].
  intros [= <- <-]. rewrite <- Ed. split; [|split; [|split]].
  - rewrite take_drop_while. done.
  - rewrite Ed. done.
  - apply take_while_all.
  - apply drop_while_head.
Qed.

Lemma find_terminator_Some s body rest :
  find_terminator s = Some (body, rest) ->
  s = body ++ rest /\ is_terminator rest = true /\
  forall b1 b2, body = b1 ++ b2 -> b2 <> [] -> is_terminator (b2 ++ rest) = false.
Proof.
  revert body. induction s as [|x t IH]; intros body; cbn [find_terminator].
  - destruct (is_terminator []) eqn:E; [|done]. intros [= <- <-].
    split; [done|]. split; [done|]. intros b1 b2 Hb. destruct b1, b2; done.
  - destruct (is_terminator (x :: t)) eqn:E.
    + intros [= <- <-]. split; [done|]. split; [done|].
      intros b1 b2 Hb. destruct b1, b2; done.
    + destruct (find_terminator t) as [[body' rest']|]; [|done].
      intros [= <- <-]. destruct (IH body' eq_refl) as (-> & Hr & Hno).
      split; [done|]. split; [done|].
      intros b1 b2 Hb Hne. destruct b1 as [|y b1].
      * simpl in Hb. subst b2. exact E.
      * injection Hb as -> ->. apply Hno with b1; done.
Qed.

Lemma find_terminator_first body rest :
  is_terminator rest = true ->
  (forall b1 b2, body = b1 ++ b2 -> b2 <> [] -> is_terminator (b2 ++ rest) = false) ->
  find_terminator (body ++ rest) = Some (body, rest).
Proof.
  intros Hr. induction body as [|x body IH]; intros Hno.
  - cbn [app]. destruct rest; cbn [find_terminator]; rewrite Hr; done.
  - pose proof (Hno [] (x :: body) eq_refl) as H0. cbn [app] in *.
    cbn [find_terminator]. rewrite H0 by done.
    rewrite IH; [done|]. intros b1 b2 -> Hne. apply (Hno (x :: b1)); done.
Qed.

Lemma find_terminator_None s :
  find_terminator s = None -> forall s1 s2, s = s1 ++ s2 -> is_terminator s2 = false.
Proof.
  induction s as [|x t IH]; cbn [find_terminator].
  - destruct (is_terminator []) eqn:E; [done|]. intros _ s1 s2 H.
    destruct s1, s2; done.
  - destruct (is_terminator (x :: t)) eqn:E; [done|].
    destruct (find_terminator t) as [[body rest]|]; [done|].
    intros _ s1 s2 H. destruct s1 as [|y s1].
    + simpl in H. subst s2. done.
    + injection H as -> ->. eapply IH; done.
Qed.

Lemma header_here_Some s cycle after :
  header_here s = Some (cycle, after) <->
  s = cycle_key ++ dquote :: cycle ++ dquote :: after /\ cycle <> [] /\ dquote ∉ cycle.
Proof.
  unfold header_here. split.
  - destruct (starts_with cycle_key s) eqn:E; [|done].
    apply starts_with_spec in E as [t ->]. rewrite drop_app_length.
    destruct (quoted_here t) as [[[|c v] rest]|] eqn:Eq; [done| |done].
    intros [= <- <-]. apply quoted_here_Some in Eq as [-> Hv]. done.
  - intros (-> & Hne & Hv). rewrite starts_with_app, drop_app_length.
    assert (Hq : quoted_here (dquote :: cycle ++ dquote :: after) = Some (cycle, after))
      by (apply quoted_here_Some; done).
    rewrite Hq. destruct cycle; done.
Qed.

Lemma block_here_Some s cycle body rest :
  block_here s = Some (cycle, body, rest) ->
  s = block_text cycle body ++ rest /\ cycle <> [] /\ (dquote ∉ cycle) /\
  is_terminator rest = true /\
  forall b1 b2, body = b1 ++ b2 -> b2 <> [] -> is_terminator (b2 ++ rest) = false.
Proof.
  unfold block_here.
  destruct (header_here s) as [[cycle' after]|] eqn:Eh; [|done].
  destruct (find_terminator after) as [[body' rest']|] eqn:Ef; [|done].
  intros [= <- <- <-]. apply header_here_Some in Eh as (-> & Hne & Hq).
  apply find_terminator_Some in Ef as (-> & Hr & Hno).
  unfold block_text. rewrite <- !app_assoc. done.
Qed.

Lemma match_at_block bef aft :
  match_at block_re bef aft =
  if at_line_start bef then
    match block_here aft with
    | Some (cycle, body, rest) =>
        Some {| m_start := length bef;
                m_end := length bef + length (block_text cycle body);
                m_text := block_text cycle body;
                m_groups := [(1, cycle)] |}
    | None => None
    end
  else None.
Proof.
  pose proof (run_block bef aft) as H.
  destruct (at_line_start bef); [|by apply match_at_none].
  destruct (block_here aft) as [[[cycle body] rest]|]; [|by apply match_at_none].
  eapply match_at_of_run; exact H.
Qed.

Lemma match_at_latest_value bef aft :
  match_at latest_value_re bef aft =
  match latest_here aft with
  | Some (v, rest) =>
      Some {| m_start := length bef;
              m_end := length bef + length (latest_text v);
              m_text := latest_text v;
              m_groups := [(1, latest_key)] |}
  | None => None
  end.
Proof.
  pose proof (run_latest_value bef aft) as H.
  destruct (latest_here aft) as [[v rest]|]; [|by apply match_at_none].
  eapply match_at_of_run; exact H.
Qed.

Lemma match_at_latest_line bef aft :
  match_at latest_line_re bef aft =
  match latest_here aft with
  | Some (v, rest) =>
      Some {| m_start := length bef;
              m_end := length bef + length (latest_text v);
              m_text := latest_text v;
              m_groups := [(1, latest_text v)] |}
  | None => None
  end.
Proof.
  pose proof (run_latest_line bef aft) as H.
  destruct (latest_here aft) as [[v rest]|]; [|by apply match_at_none].
  eapply match_at_of_run; exact H.
Qed.

Lemma match_at_date_value bef aft :
  match_at date_value_re bef aft =
  match date_here aft with
  | Some (d, rest) =>
      Some {| m_start := length bef;
              m_end := length bef + length (date_key ++ d);
              m_text := date_key ++ d;
              m_groups := [(1, date_key)] |}
  | None => None
  end.
Proof.
  pose proof (run_date_value bef aft) as H.
  destruct (date_here aft) as [[d rest]|]; [|by apply match_at_none].
  eapply match_at_of_run; exact H.
Qed.

Lemma block_re_nonempty : nonempty_matches block_re.
Proof.
  intros bef aft m. rewrite match_at_block.
  destruct (at_line_start bef); [|done].
  destruct (block_here aft) as [[[cycle body] rest]|]; [|done].
  intros [= <-]. simpl. unfold block_text. rewrite length_app. simpl. lia.
Qed.

Lemma latest_value_re_nonempty : nonempty_matches latest_value_re.
Proof.
  intros bef aft m. rewrite match_at_latest_value.
  destruct (latest_here aft) as [[v rest]|]; [|done].
  intros [= <-]. simpl. unfold latest_text. rewrite length_app. simpl. lia.
Qed.

Lemma latest_line_re_nonempty : nonempty_matches latest_line_re.
Proof.
  intros bef aft m. rewrite match_at_latest_line.
  destruct (latest_here aft) as [[v rest]|]; [|done].
  intros [= <-]. simpl. unfold latest_text. rewrite length_app. simpl. lia.
Qed.

Lemma date_value_re_nonempty : nonempty_matches date_value_re.
Proof.
  intros bef aft m. rewrite match_at_date_value.
  destruct (date_here aft) as [[d rest]|]; [|done].
  intros [= <-]. cbn [m_start m_end]. lia.
Qed.

(** ** Blocks, offsets and the replacement of texts *)

Lemma laid_out_app p s rs off :
  laid_out (off + length p) s rs -> laid_out off (p ++ s) rs.
Proof.
  destruct rs as [|r rs]; [done|]. cbn [laid_out].
  intros (H1 & H2 & H3 & H4 & H5). rewrite length_app.
  split; [lia|]. split; [lia|]. split; [lia|].
  rewrite !drop_app_ge by lia.
  replace (_start r - off - length p) with (_start r - (off + length p)) by lia.
  replace (_end r - off - length p) with (_end r - (off + length p)) by lia.
  done.
Qed.

Lemma rebuild_app f p s rs off :
  laid_out (off + length p) s rs ->
  rebuild f off (p ++ s) rs = p ++ rebuild f (off + length p) s rs.
Proof.
  destruct rs as [|r rs]; [done|]. cbn [laid_out rebuild].
  intros (H1 & H2 & H3 & H4 & H5).
  rewrite take_app_ge, !drop_app_ge by lia. rewrite <- app_assoc.
  replace (_start r - off - length p) with (_start r - (off + length p)) by lia.
  replace (_end r - off - length p) with (_end r - (off + length p)) by lia.
  done.
Qed.

Lemma scanned_laid_out r bef aft ps :
  scanned r bef aft ps -> laid_out (length bef) aft (map release_of_match (hits ps)).
Proof.
  induction 1 as [bef|bef x t ps Hm Hs IH|bef w rest m ps Hw Hm Hst Hen Htx Hs IH].
  - done.
  - apply (laid_out_app [x]). cbn [length] in *.
    replace (length bef + 1) with (S (length bef)) by lia. exact IH.
  - cbn [hits omap list_omap map]. fold (hits ps). cbn [laid_out release_of_match _start _end _text].
    rewrite Hst, Hen, Htx. rewrite length_app.
    assert (0 < length w) by (destruct w; [done|simpl; lia]).
    split; [lia|]. split; [lia|]. split; [lia|].
    replace (length bef + length w - length bef) with (length w) by lia.
    rewrite Nat.sub_diag, drop_0, take_app_length, drop_app_length.
    split; [done|]. rewrite length_app, length_rev in IH.
    replace (length bef + length w) with (length w + length bef) by lia. exact IH.
Qed.

Lemma scanned_rebuild f r bef aft ps :
  scanned r bef aft ps ->
  rebuild f (length bef) aft (map release_of_match (hits ps)) =
  pieces_text (fun m => f (release_of_match m)) ps.
Proof.
  induction 1 as [bef|bef x t ps Hm Hs IH|bef w rest m ps Hw Hm Hst Hen Htx Hs IH].
  - done.
  - change (x :: t) with ([x] ++ t). rewrite rebuild_app.
    + cbn [length] in *. replace (length bef + 1) with (S (length bef)) by lia.
      change (hits (Text x :: ps)) with (hits ps). rewrite IH. done.
    + change (hits (Text x :: ps)) with (hits ps).
      replace (length bef + length [x]) with (length (x :: bef)) by (simpl; lia).
      exact (scanned_laid_out _ _ _ _ Hs).
  - cbn [hits omap list_omap map pieces_text flat_map]. fold (hits ps).
    cbn [rebuild release_of_match _start _end _text].
    rewrite Hst, Hen. rewrite Nat.sub_diag, take_0.
    replace (length bef + length w - length bef) with (length w) by lia.
    rewrite drop_app_length. rewrite length_app, length_rev in IH.
    replace (length bef + length w) with (length w + length bef) by lia.
    cbn [app]. f_equal. exact IH.
Qed.

Lemma update_release_text cycles c1 ch1 r c2 ch2 :
  update_release cycles (c1, ch1) r = Ok (c2, ch2) ->
  c2 = take (_start r) c1 ++ new_text cycles r ++ drop (_end r) c1 \/
  (c2 = c1 /\ new_text cycles r = _text r).
Proof.
  intros [[[= -> ->] Hq]|[[= -> ->] Hq]]%update_release_ok.
  - by left.
  - right. split; [done|]. unfold new_text. rewrite Hq. done.
Qed.

(** The loop over the reversed blocks replaces the text of each block, the
    offsets of the blocks not yet passed staying valid. *)
Lemma for_each_rebuild cycles rs : forall p s ch c2 ch2,
  laid_out (length p) s rs ->
  for_each (update_release cycles) (p ++ s, ch) (rev rs) = Ok (c2, ch2) ->
  c2 = p ++ rebuild (new_text cycles) (length p) s rs.
Proof.
  induction rs as [|r rs IH]; intros p s ch c2 ch2.
  - intros _ [= <- <-]. done.
  - cbn [laid_out rebuild rev]. intros (H1 & H2 & H3 & H4 & H5).
    rewrite for_each_app.
    destruct (for_each _ _ (rev rs)) as [[c1 ch1]|] eqn:E; cbn [bind for_each]; [|done].
    destruct (update_release cycles (c1, ch1) r) as [[c2' ch2']|] eqn:Er; cbn [bind]; [|done].
    intros [= -> ->].
    set (off := length p) in *.
    set (p' := p ++ take (_end r - off) s).
    assert (Hp' : length p' = _end r).
    { unfold p'. rewrite length_app, length_take. fold off. lia. }
    assert (Hsplit : p ++ s = p' ++ drop (_end r - off) s).
    { unfold p'. rewrite <- app_assoc, take_drop. done. }
    rewrite Hsplit in E. apply IH in E; [|rewrite Hp'; done]. rewrite Hp' in E.
    assert (Hpre : p' = p ++ take (_start r - off) s ++ _text r).
    { unfold p'. f_equal. rewrite H4, take_take_drop. f_equal. lia. }
    apply update_release_text in Er as [->|[-> Hsame]]; subst c1.
    + rewrite take_app_le, drop_app_ge by lia.
      rewrite Hp', Nat.sub_diag, drop_0. unfold p'.
      rewrite take_app_ge by (fold off; lia). fold off.
      rewrite take_take. rewrite <- app_assoc.
      replace ((_start r - off) `min` (_end r - off)) with (_start r - off) by lia.
      done.
    + rewrite Hsame, Hpre, <- !app_assoc. done.
Qed.

(** ** The document parser *)

Lemma block_here_complete cycle body rest :
  cycle <> [] -> dquote ∉ cycle -> is_terminator rest = true ->
  (forall b1 b2, body = b1 ++ b2 -> b2 <> [] -> is_terminator (b2 ++ rest) = false) ->
  block_here (block_text cycle body ++ rest) = Some (cycle, body, rest).
Proof.
  intros Hne Hq Hr Hno. unfold block_here.
  assert (Hh : header_here (block_text cycle body ++ rest) = Some (cycle, body ++ rest)).
  { apply header_here_Some. unfold block_text. rewrite <- !app_assoc. done. }
  rewrite Hh, find_terminator_first; done.
Qed.

Lemma scanned_blocks bef aft ps :
  scanned block_re bef aft ps ->
  forall m, m ∈ hits ps ->
    exists cycle body,
      m_text m = block_text cycle body /\ m_groups m = [(1, cycle)] /\
      block_at (rev bef ++ aft) (m_start m) cycle body.
Proof.
  induction 1 as [bef|bef x t ps Hm Hs IH|bef w rest m0 ps Hw Hm Hst Hen Htx Hs IH];
    intros m Hin.
  - by apply elem_of_nil in Hin.
  - change (hits (Text x :: ps)) with (hits ps) in Hin.
    destruct (IH m Hin) as (cycle & body & H1 & H2 & H3).
    exists cycle, body. simpl in H3. rewrite <- app_assoc in H3. done.
  - change (hits (Hit m0 :: ps)) with (m0 :: hits ps) in Hin.
    apply elem_of_cons in Hin as [->|Hin].
    + rewrite match_at_block in Hm.
      destruct (at_line_start bef) eqn:Eb; [|done].
      destruct (block_here (w ++ rest)) as [[[cycle body] rest']|] eqn:Eh; [|done].
      injection Hm as <-. cbn [m_text m_groups m_start] in *.
      exists cycle, body. split; [done|]. split; [done|].
      apply block_here_Some in Eh as (Heq & Hne & Hq & Hr & Hno).
      split; [|split; [|split; [|split]]]; try done.
      * rewrite <- (length_rev bef), take_app_length, rev_involutive. done.
      * rewrite length_app, length_rev. lia.
      * exists rest'. rewrite <- (length_rev bef), drop_app_length. done.
    + destruct (IH m Hin) as (cycle & body & H1 & H2 & H3).
      exists cycle, body. rewrite rev_app_distr, rev_involutive, <- app_assoc in H3. done.
Qed.

Lemma scanned_exhaustive bef aft ps :
  scanned block_re bef aft ps ->
  forall p cycle body,
    length bef <= p -> block_at (rev bef ++ aft) p cycle body ->
    exists m, m ∈ hits ps /\ m_start m <= p < m_end m.
Proof.
  induction 1 as [bef|bef x t ps Hm Hs IH|bef w rest m0 ps Hw Hm Hst Hen Htx Hs IH];
    intros p cycle body Hp (Hbol & Hlen & Hne & Hq & rest' & Hd & Hr & Hno).
  - rewrite app_nil_r, drop_ge in Hd by (rewrite length_rev in *; lia).
    destruct cycle_key eqn:E; discriminate.
  - destruct (decide (p = length bef)) as [->|Hne'].
    + rewrite <- (length_rev bef), take_app_length, rev_involutive in Hbol.
      rewrite <- (length_rev bef), drop_app_length in Hd.
      rewrite match_at_block, Hbol, Hd, block_here_complete in Hm; done.
    + destruct (IH p cycle body) as (m & Hin & Hrange).
      * simpl. lia.
      * simpl. rewrite <- app_assoc. split; [done|]. split; [done|]. eauto 8.
      * exists m. done.
  - destruct (decide (p < length bef + length w)) as [Hlt|Hge].
    + exists m0. split; [apply elem_of_cons; by left|]. lia.
    + destruct (IH p cycle body) as (m & Hin & Hrange).
      * rewrite length_app, length_rev. lia.
      * rewrite rev_app_distr, rev_involutive, <- app_assoc.
        split; [done|]. split; [done|]. eauto 8.
      * exists m. split; [apply elem_of_cons; by right|done].
Qed.

Lemma parse_md_releases_scanned content :
  scanned block_re [] content (scan block_re 0 [] content).
Proof. apply scan_scanned, block_re_nonempty. Qed.

Lemma releaseCycle_of_match m cycle :
  m_groups m = [(1, cycle)] -> releaseCycle (release_of_match m) = cycle.
Proof. intros H. unfold release_of_match. simpl. rewrite H. done. Qed.

(** ** Substitution where the pattern does not match *)

Lemma pieces_text_Text f s : pieces_text f (map Text s) = s.
Proof. induction s as [|x s IH]; [done|]. simpl. f_equal. exact IH. Qed.

Lemma pieces_text_app f ps1 ps2 :
  pieces_text f (ps1 ++ ps2) = pieces_text f ps1 ++ pieces_text f ps2.
Proof. unfold pieces_text. apply flat_map_app. Qed.

Lemma scan_prefix_miss r pre : forall bef rest,
  (forall s1 s2, pre = s1 ++ s2 -> s2 <> [] ->
     match_at r (rev s1 ++ bef) (s2 ++ rest) = None) ->
  scan r 0 bef (pre ++ rest) = map Text pre ++ scan r 0 (rev pre ++ bef) rest.
Proof.
  induction pre as [|x pre IH]; intros bef rest Hmiss; [done|].
  cbn [app map]. rewrite scan_miss by (apply (Hmiss [] (x :: pre)); done).
  f_equal. rewrite IH.
  - simpl. rewrite <- app_assoc. done.
  - intros s1 s2 -> Hne. specialize (Hmiss (x :: s1) s2 eq_refl Hne).
    simpl in Hmiss. rewrite <- app_assoc in Hmiss. done.
Qed.

Lemma scan_all_miss r s bef :
  (forall s1 s2, s = s1 ++ s2 -> match_at r (rev s1 ++ bef) s2 = None) ->
  scan r 0 bef s = map Text s.
Proof.
  intros Hmiss. rewrite <- (app_nil_r s) at 1. rewrite scan_prefix_miss.
  - cbn [scan]. rewrite (Hmiss s []) by (rewrite app_nil_r; done).
    rewrite app_nil_r. done.
  - intros s1 s2 -> Hne. rewrite app_nil_r. apply Hmiss. done.
Qed.

Lemma search_from_None r aft : forall bef,
  search_from r bef aft = None ->
  forall s1 s2, aft = s1 ++ s2 -> match_at r (rev s1 ++ bef) s2 = None.
Proof.
  induction aft as [|x t IH]; intros bef; cbn [search_from].
  - destruct (match_at r bef []) eqn:E; [done|]. intros _ s1 s2 H.
    destruct s1, s2; done.
  - destruct (match_at r bef (x :: t)) eqn:E; [done|]. intros H s1 s2 Heq.
    destruct s1 as [|y s1].
    + simpl in Heq. subst s2. done.
    + injection Heq as -> ->. simpl. rewrite <- app_assoc. apply IH; done.
Qed.

Lemma match_at_field field bef aft :
  match_at (field_re field) bef aft = None <-> field_here field aft = None.
Proof.
  unfold match_at. rewrite run_field. destruct (field_here field aft); done.
Qed.

Lemma latest_here_field_here s v rest :
  latest_here s = Some (v, rest) -> field_here "latest" s <> None.
Proof.
  intros [-> _]%latest_here_Some. unfold field_here, latest_text.
  change (lit "    " ++ lit "latest" ++ lit ": ") with latest_key.
  rewrite <- !app_assoc, starts_with_app, drop_app_length. done.
Qed.

(** A block in which [extract] finds no [latest] field has no quoted value
    for the substitutions to match. *)
Lemma extract_None_latest_here block :
  extract "latest" block = None ->
  forall s1 s2, block = s1 ++ s2 -> latest_here s2 = None.
Proof.
  unfold extract, re_search.
  destruct (search_from (field_re "latest") [] block) eqn:E; [done|]. intros _ s1 s2 Hb.
  pose proof (search_from_None _ _ _ E s1 s2 Hb) as H. apply match_at_field in H.
  destruct (latest_here s2) as [[v rest]|] eqn:El; [|done].
  apply latest_here_field_here in El. done.
Qed.

Lemma re_sub_latest_value_none tpl s :
  (forall s1 s2, s = s1 ++ s2 -> latest_here s2 = None) ->
  re_sub latest_value_re tpl s = s.
Proof.
  intros H. unfold re_sub. rewrite scan_all_miss.
  - apply (pieces_text_Text (expand tpl)).
  - intros s1 s2 Hs. rewrite match_at_latest_value, (H s1 s2 Hs). done.
Qed.

Lemma re_sub_latest_line_none tpl s :
  (forall s1 s2, s = s1 ++ s2 -> latest_here s2 = None) ->
  re_sub latest_line_re tpl s = s.
Proof.
  intros H. unfold re_sub. rewrite scan_all_miss.
  - apply (pieces_text_Text (expand tpl)).
  - intros s1 s2 Hs. rewrite match_at_latest_line, (H s1 s2 Hs). done.
Qed.

(** ** The updater on a block without a version *)

Lemma splice_same (content : str) s e t :
  s <= e -> e <= length content -> t = take (e - s) (drop s content) ->
  take s content ++ t ++ drop e content = content.
Proof.
  intros Hse He ->. rewrite <- (take_drop s content) at 4.
  f_equal. rewrite <- (take_drop (e - s) (drop s content)) at 2.
  f_equal. rewrite drop_drop. f_equal. lia.
Qed.

(** C10, as the code has it: for a block without a [latest] field and without
    a [latestReleaseDate:] text, whose cycle has in the feed a version greater
    than the default tuple, the turn of the loop adds the change line, with an
    empty old version, and puts back the text of the block as it was. *)
Theorem C10_block_without_latest cycles r info new content changes :
  latest r = None ->
  extract "latest" (_text r) = None ->
  contains (lit "    latestReleaseDate:") (_text r) = false ->
  cycles !! releaseCycle r = Some info ->
  parse_version (version info) = Some new ->
  version_lt default_version new ->
  interpolate (date info) = Ok (date info) ->
  _start r <= _end r -> _end r <= length content ->
  _text r = take (_end r - _start r) (drop (_start r) content) ->
  update_release cycles (content, changes) r =
  Ok (content, changes ++ [change_line (releaseCycle r) [] (version info)]).
Proof.
  intros Hl He Hd Hc Hn Hlt Hi Hse Hlen Ht.
  rewrite update_release_cases, Hc, Hn.
  unfold current_parsed, current_version. rewrite Hl. cbn [default].
  apply version_ltb_spec in Hlt. unfold version_gtb. rewrite Hlt.
  pose proof (extract_None_latest_here _ He) as Hno.
  unfold update_block. rewrite (interpolate_version _ _ Hn), Hi. cbn [bind].
  rewrite re_sub_latest_value_none by done. rewrite Hd.
  rewrite re_sub_latest_line_none by done. cbn [bind].
  rewrite splice_same; done.
Qed.

Lemma C10_witness :
  let r := {| releaseCycle := lit "6.3"; latest := None; latestReleaseDate := None;
              _start := 0; _end := 35;
              _text := take 35 ex_doc_no_latest |} in
  let info := {| version := lit "6.3.3-c842"; date := lit "2025-12-17" |} in
  (latest r = None /\ extract "latest" (_text r) = None /\
   contains (lit "    latestReleaseDate:") (_text r) = false /\
   ex_feed !! releaseCycle r = Some info /\
   parse_version (version info) = Some (6, 3, 3, 842)%N /\
   version_lt default_version (6, 3, 3, 842)%N /\
   interpolate (date info) = Ok (date info) /\
   _start r <= _end r /\ _end r <= length ex_doc_no_latest /\
   _text r = take (_end r - _start r) (drop (_start r) ex_doc_no_latest)) /\
  update_release ex_feed (ex_doc_no_latest, []) r =
  Ok (ex_doc_no_latest, [] ++ [change_line (releaseCycle r) [] (version info)]).
Proof.
  intros r info.
  assert (H1 : latest r = None) by reflexivity.
  assert (H2 : extract "latest" (_text r) = None) by (vm_compute; reflexivity).
  assert (H3 : contains (lit "    latestReleaseDate:") (_text r) = false)
    by (vm_compute; reflexivity).
  assert (H4 : ex_feed !! releaseCycle r = Some info) by (vm_compute; reflexivity).
  assert (H5 : parse_version (version info) = Some (6, 3, 3, 842)%N)
    by (vm_compute; reflexivity).
  assert (H6 : version_lt default_version (6, 3, 3, 842)%N) by (simpl; lia).
  assert (H7 : interpolate (date info) = Ok (date info)) by (vm_compute; reflexivity).
  assert (H8 : _start r <= _end r) by (simpl; lia).
  assert (H9 : _end r <= length ex_doc_no_latest) by (vm_compute; lia).
  assert (H10 : _text r = take (_end r - _start r) (drop (_start r) ex_doc_no_latest))
    by reflexivity.
  split; [done|].
  exact (C10_block_without_latest ex_feed r info _ ex_doc_no_latest [] H1 H2 H3 H4 H5 H6 H7 H8 H9 H10).
Defined.

(** C10 as it is stated fails: a version of the grammar need not be greater
    than the default tuple, and then no change line is added; and a block
    without a [latest] field that has a release date gets the date of the
    feed, so its text is not put back as it was. *)
Lemma C10_counterexamples :
  (latest <$> parse_md_releases ex_doc_no_latest = [None] /\
   parse_version (lit "0.0.0") = Some default_version /\
   apply_updates ex_doc_no_latest (parse_md_releases ex_doc_no_latest) ex_feed_zero =
   Ok (ex_doc_no_latest, [])) /\
  (latest <$> parse_md_releases ex_doc_date_only = [None] /\
   apply_updates ex_doc_date_only (parse_md_releases ex_doc_date_only) ex_feed =
   Ok (ex_doc_date_only_updated, [lit "6.3:  -> 6.3.3-c842"]) /\
   ex_doc_date_only_updated <> ex_doc_date_only).
Proof. vm_compute. repeat split; done. Qed.

(** ** The three substitutions of the updater *)

Lemma scanned_replaced r here f F bef aft ps :
  (forall b a m, match_at r b a = Some m ->
     here a = Some (m_text m, drop (length (m_text m)) a) /\ F m = f (m_text m)) ->
  (forall b a, match_at r b a = None -> here a = None) ->
  scanned r bef aft ps ->
  replaced here f aft (pieces_text F ps).
Proof.
  intros Hsome Hnone.
  induction 1 as [bef|bef x t ps Hm Hs IH|bef w rest m ps Hw Hm Hst Hen Htx Hs IH].
  - constructor.
  - apply replaced_skip; [eapply Hnone; done|done].
  - destruct (Hsome _ _ _ Hm) as [Hh HF].
    rewrite Htx, drop_app_length in Hh.
    change (pieces_text F (Hit m :: ps)) with (F m ++ pieces_text F ps).
    rewrite HF, Htx. apply replaced_hit; done.
Qed.

Lemma latest_here_length s v rest :
  latest_here s = Some (v, rest) -> rest = drop (length (latest_text v)) s.
Proof. intros [-> _]%latest_here_Some. rewrite drop_app_length. done. Qed.

Lemma date_here_length s d rest :
  date_here s = Some (d, rest) -> rest = drop (length (date_key ++ d)) s.
Proof.
  intros (-> & _)%date_here_Some. rewrite (app_assoc date_key), drop_app_length. done.
Qed.

Lemma re_sub_latest_value v s :
  replaced latest_match (new_latest v) s
    (re_sub latest_value_re [TGroup 1; TLit ([dquote] ++ v ++ [dquote])] s).
Proof.
  unfold re_sub.
  apply (scanned_replaced latest_value_re latest_match (new_latest v) _ [] s).
  - intros b a m. rewrite match_at_latest_value. unfold latest_match.
    destruct (latest_here a) as [[v0 rest]|] eqn:E; [|done].
    intros [= <-]. cbn [m_text]. rewrite <- (latest_here_length _ _ _ E).
    split; [done|]. unfold expand, new_latest, latest_text. simpl.
    rewrite app_nil_r. done.
  - intros b a. rewrite match_at_latest_value. unfold latest_match.
    destruct (latest_here a) as [[v0 rest]|]; done.
  - apply scan_scanned, latest_value_re_nonempty.
Qed.

Lemma re_sub_latest_line d s :
  replaced latest_match (with_date_line d) s
    (re_sub latest_line_re [TGroup 1; TLit ([nl] ++ lit "    latestReleaseDate: " ++ d)] s).
Proof.
  unfold re_sub.
  apply (scanned_replaced latest_line_re latest_match (with_date_line d) _ [] s).
  - intros b a m. rewrite match_at_latest_line. unfold latest_match.
    destruct (latest_here a) as [[v0 rest]|] eqn:E; [|done].
    intros [= <-]. cbn [m_text]. rewrite <- (latest_here_length _ _ _ E).
    split; [done|]. unfold expand, with_date_line. cbn [flat_map m_groups group Nat.eqb default].
    rewrite app_nil_r. done.
  - intros b a. rewrite match_at_latest_line. unfold latest_match.
    destruct (latest_here a) as [[v0 rest]|]; done.
  - apply scan_scanned, latest_line_re_nonempty.
Qed.

Lemma re_sub_date_value d s :
  replaced date_match (new_date d) s (re_sub date_value_re [TGroup 1; TLit d] s).
Proof.
  unfold re_sub.
  apply (scanned_replaced date_value_re date_match (new_date d) _ [] s).
  - intros b a m. rewrite match_at_date_value. unfold date_match.
    destruct (date_here a) as [[d0 rest]|] eqn:E; [|done].
    intros Hm. apply (inj Some) in Hm. subst m.
    cbn [m_text]. rewrite <- (date_here_length _ _ _ E).
    split; [done|]. unfold expand, new_date. cbn [flat_map m_groups group Nat.eqb default].
    rewrite app_nil_r. done.
  - intros b a. rewrite match_at_date_value. unfold date_match.
    destruct (date_here a) as [[d0 rest]|]; done.
  - apply scan_scanned, date_value_re_nonempty.
Qed.

(** [update_block], by its three substitutions. *)
Lemma update_block_replaced block v d t :
  update_block block v d = Ok t ->
  exists t1,
    replaced latest_match (new_latest v) block t1 /\
    (contains (lit "    latestReleaseDate:") t1 = true /\ replaced date_match (new_date d) t1 t \/
     contains (lit "    latestReleaseDate:") t1 = false /\
     replaced latest_match (with_date_line d) t1 t).
Proof.
  unfold update_block, interpolate.
  destruct (existsb (Ascii.eqb backslash) v); [done|]. cbn [bind].
  destruct (existsb (Ascii.eqb backslash) d); [done|]. cbn [bind].
  set (t1 := re_sub latest_value_re _ block).
  exists t1. split; [apply re_sub_latest_value|].
  destruct (contains (lit "    latestReleaseDate:") t1) eqn:E; injection H as <-.
  - left. split; [done|]. apply re_sub_date_value.
  - right. split; [done|]. apply re_sub_latest_line.
Qed.

(** ** Occurrences of a text in a text *)

Lemma contains_spec n s : contains n s = true <-> exists s1 s2, s = s1 ++ n ++ s2.
Proof.
  induction s as [|x t IH]; cbn [contains]; rewrite orb_true_iff, starts_with_spec.
  - split.
    + intros [[s2 H]|H]; [|done]. exists [], s2. done.
    + intros (s1 & s2 & H). left. destruct s1; [eauto|done].
  - rewrite IH. split.
    + intros [[s2 H]|(s1 & s2 & ->)]; [exists [], s2; done|].
      exists (x :: s1), s2. done.
    + intros ([|y s1] & s2 & H).
      * left. eauto.
      * right. injection H as -> ->. eauto.
Qed.

Lemma contains_app_l n s1 s2 : contains n s1 = true -> contains n (s1 ++ s2) = true.
Proof.
  rewrite !contains_spec. intros (a & b & ->). exists a, (b ++ s2).
  rewrite <- !app_assoc. done.
Qed.

Lemma contains_app_r n s1 s2 : contains n s2 = true -> contains n (s1 ++ s2) = true.
Proof.
  rewrite !contains_spec. intros (a & b & ->). exists (s1 ++ a), b.
  rewrite <- !app_assoc. done.
Qed.

(** A text without the character [c] that occurs in [s1 ++ c :: s2] occurs
    in [s1] or in [s2]. *)
Lemma contains_separator c n s1 s2 :
  c ∉ n -> contains n (s1 ++ c :: s2) = true ->
  contains n s1 = true \/ contains n s2 = true.
Proof.
  intros Hc. rewrite !contains_spec. intros (a & b & H).
  apply app_eq_app in H as [l [[-> H]|[-> H]]].
  - apply app_eq_app in H as [l' [[-> H]|[-> H]]].
    + destruct l' as [|y l'].
      * left. exists a, []. rewrite !app_nil_r. done.
      * injection H as -> ->. exfalso. apply Hc.
        apply elem_of_app. right. left.
    + left. exists a, l'. done.
  - destruct l as [|y l].
    + simpl in H. destruct n as [|z n].
      * left. exists s1, []. rewrite !app_nil_r. done.
      * injection H as -> ->. exfalso. apply Hc. left.
    + injection H as -> ->. right. eauto.
Qed.

(** An occurrence of a text that starts with [c] does not start in a text
    without [c]. *)
Lemma contains_first_char c n p s :
  c ∉ p -> contains (c :: n) (p ++ s) = true -> contains (c :: n) s = true.
Proof.
  intros Hc. rewrite !contains_spec. intros (a & b & H).
  apply app_eq_app in H as [l [[-> H]|[-> H]]].
  - destruct l as [|y l].
    + exists [], b. done.
    + injection H as <- _. exfalso. apply Hc. apply elem_of_app. right. left.
  - eauto.
Qed.

Lemma contains_head c n s : contains (c :: n) s = true -> c ∈ s.
Proof.
  rewrite contains_spec. intros (a & b & ->). apply elem_of_app. right. left.
Qed.

(** A text whose only [c] is its last character, in [s1 ++ c :: s2]. *)
Lemma contains_last_char c n s1 s2 :
  c ∉ n -> contains (n ++ [c]) (s1 ++ c :: s2) = true ->
  contains (n ++ [c]) (s1 ++ [c]) = true \/ contains (n ++ [c]) s2 = true.
Proof.
  intros Hc. rewrite !contains_spec. intros (a & b & H).
  rewrite <- app_assoc in H.
  apply app_eq_app in H as [l [[-> H]|[-> H]]].
  - apply app_eq_app in H as [l' [[-> H]|[-> H]]].
    + destruct l' as [|y l'].
      * left. exists a, []. rewrite app_nil_r, <- !app_assoc. done.
      * injection H as -> ->. exfalso. apply Hc. apply elem_of_app. right. left.
    + destruct l' as [|y l'].
      * left. exists a, []. rewrite !app_nil_r, <- !app_assoc. done.
      * injection H as <- ->. left. exists a, (l' ++ [c]).
        rewrite <- !app_assoc. done.
  - destruct l as [|y l].
    + simpl in H. destruct n as [|z n].
      * left. exists s1, []. rewrite app_nil_r. done.
      * injection H as -> _. exfalso. apply Hc. left.
    + injection H as -> ->. right. exists l, b. rewrite <- app_assoc. done.
Qed.

Lemma starts_with_common n p x y :
  length n <= length p -> starts_with n (p ++ x) = starts_with n (p ++ y).
Proof.
  revert p. induction n as [|c n IH]; intros p Hlen; [done|].
  destruct p as [|z p]; [simpl in Hlen; lia|].
  cbn [app starts_with]. rewrite (IH p) by (simpl in Hlen; lia). done.
Qed.

Lemma starts_with_contains n s : starts_with n s = true -> contains n s = true.
Proof. intros [t ->]%starts_with_spec. apply contains_spec. exists [], t. done. Qed.

(** ** The changes a substitution makes *)

Lemma edit_prefix v d p a b : edit v d a b -> edit v d (p ++ a) (p ++ b).
Proof.
  intros [pre v0 post Hv|pre d0 post Hne Hd|pre v0 post Hv]; rewrite !(app_assoc p pre).
  - by apply edit_latest.
  - by apply edit_date.
  - by apply edit_insert.
Qed.

Lemma edit_suffix v d q a b : edit v d a b -> edit v d (a ++ q) (b ++ q).
Proof.
  intros [pre v0 post Hv|pre d0 post Hne Hd|pre v0 post Hv].
  - rewrite <- !app_assoc. by apply edit_latest.
  - rewrite <- !(app_assoc pre), <- !(app_assoc (date_key ++ _)). by apply edit_date.
  - rewrite <- !(app_assoc pre), <- (app_assoc (latest_text v0) post),
      <- (app_assoc (latest_text v0 ++ _) post).
    by apply edit_insert.
Qed.

Lemma edits_prefix v d p a b : edits v d a b -> edits v d (p ++ a) (p ++ b).
Proof.
  induction 1 as [a|a b c Hab Hbc IH]; [apply rtc_refl|].
  eapply rtc_l; [apply edit_prefix; done|done].
Qed.

Lemma edits_suffix v d q a b : edits v d a b -> edits v d (a ++ q) (b ++ q).
Proof.
  induction 1 as [a|a b c Hab Hbc IH]; [apply rtc_refl|].
  eapply rtc_l; [apply edit_suffix; done|done].
Qed.

Lemma latest_match_Some s w rest :
  latest_match s = Some (w, rest) ->
  exists v0, w = latest_text v0 /\ s = latest_text v0 ++ rest /\ dquote ∉ v0.
Proof.
  unfold latest_match. destruct (latest_here s) as [[v0 r]|] eqn:E; [|done].
  intros [= <- <-]. apply latest_here_Some in E as [-> Hv]. eauto.
Qed.

Lemma date_match_Some s w rest :
  date_match s = Some (w, rest) ->
  exists d0, w = date_key ++ d0 /\ s = (date_key ++ d0) ++ rest /\
             d0 <> [] /\ Forall (fun c => not_space c = true) d0 /\
             match rest with [] => True | x :: _ => not_space x = false end.
Proof.
  unfold date_match. destruct (date_here s) as [[d0 r]|] eqn:E; [|done].
  intros [= <- <-]. apply date_here_Some in E as (-> & Hne & Hd & Hr).
  exists d0. rewrite <- app_assoc. done.
Qed.

Lemma replaced_latest_edits v d a b :
  replaced latest_match (new_latest v) a b -> edits v d a b.
Proof.
  induction 1 as [|x t t' Hh Hr IH|w rest rest' Hw Hh Hr IH].
  - apply rtc_refl.
  - apply (edits_prefix v d [x]). done.
  - apply latest_match_Some in Hh as (v0 & -> & _ & Hv).
    eapply rtc_l.
    + apply (edit_latest v d [] v0 rest Hv).
    + apply (edits_prefix v d (latest_text v)). done.
Qed.

Lemma replaced_date_edits v d a b :
  replaced date_match (new_date d) a b -> edits v d a b.
Proof.
  induction 1 as [|x t t' Hh Hr IH|w rest rest' Hw Hh Hr IH].
  - apply rtc_refl.
  - apply (edits_prefix v d [x]). done.
  - apply date_match_Some in Hh as (d0 & -> & _ & Hne & Hd & _).
    eapply rtc_l.
    + apply (edit_date v d [] d0 rest Hne Hd).
    + apply (edits_prefix v d (date_key ++ d)). done.
Qed.

Lemma replaced_insert_edits v d a b :
  replaced latest_match (with_date_line d) a b -> edits v d a b.
Proof.
  induction 1 as [|x t t' Hh Hr IH|w rest rest' Hw Hh Hr IH].
  - apply rtc_refl.
  - apply (edits_prefix v d [x]). done.
  - apply latest_match_Some in Hh as (v0 & -> & _ & Hv).
    eapply rtc_l.
    + apply (edit_insert v d [] v0 rest Hv).
    + apply (edits_prefix v d (latest_text v0 ++ [nl] ++ date_key ++ d)). done.
Qed.

Lemma update_block_edits block v d t : update_block block v d = Ok t -> edits v d block t.
Proof.
  intros (t1 & H1 & [[_ H2]|[_ H2]])%update_block_replaced.
  - etrans; [apply replaced_latest_edits|apply replaced_date_edits]; done.
  - etrans; [apply replaced_latest_edits|apply replaced_insert_edits]; done.
Qed.

(** ** The text the updater puts in the place of a block *)

Lemma laid_out_split off s r rs :
  laid_out off s (r :: rs) ->
  s = take (_start r - off) s ++ _text r ++ drop (_end r - off) s.
Proof.
  cbn [laid_out]. intros (H1 & H2 & H3 & H4 & H5). rewrite H4.
  rewrite app_assoc, take_take_drop.
  replace (_start r - off + (_end r - _start r)) with (_end r - off) by lia.
  rewrite take_drop. done.
Qed.

Lemma elem_of_rev_2 {A : Type} (x : A) l : x ∈ l -> x ∈ rev l.
Proof. rewrite !list_elem_of_In. apply in_rev. Qed.

Lemma for_each_steps_ok {S A : Type} (body : S -> A -> result S) l : forall s s',
  for_each body s l = Ok s' ->
  forall a, a ∈ l -> exists s1 s2, body s1 a = Ok s2.
Proof.
  induction l as [|x l IH]; intros s s' H a Ha; [by apply elem_of_nil in Ha|].
  cbn [for_each] in H. destruct (body s x) as [s1|] eqn:E; cbn [bind] in H; [|done].
  apply elem_of_cons in Ha as [->|Ha]; [eauto|]. eapply IH; done.
Qed.

(** A block that the loop has passed without an error and that qualifies has
    been updated by [update_block]. *)
Lemma qualifies_update_block cycles r info s1 s2 :
  update_release cycles s1 r = Ok s2 ->
  qualifies cycles r = Some info ->
  update_block (_text r) (version info) (date info) = Ok (new_text cycles r).
Proof.
  destruct s1 as [content changes]. rewrite update_release_cases.
  unfold new_text, qualifies.
  destruct (cycles !! releaseCycle r) as [info'|]; [|done].
  destruct (parse_version (version info')) as [new|]; [|done].
  destruct (current_parsed r) as [cur|]; [|done].
  destruct (version_gtb new cur); [|done].
  destruct (update_block (_text r) (version info') (date info')) as [t|] eqn:E; [|done].
  intros _ [= <-]. done.
Qed.

Lemma new_text_not_qualified cycles r :
  qualifies cycles r = None -> new_text cycles r = _text r.
Proof. intros H. unfold new_text. rewrite H. done. Qed.

(** C8 fails on the code: a line of the block that is not its [latest]
    field and holds four spaces, [latest: ] and a quoted text is rewritten
    with the feed's version, as the [latest] field is.  The parser reads the
    field [latest] as 6.3.2; the document returned differs from the input
    in the note line too. *)
Theorem C8_note_line_rewritten :
  latest <$> parse_md_releases ex_doc_note = [Some (lit "6.3.2")] /\
  apply_updates ex_doc_note (parse_md_releases ex_doc_note) ex_feed =
  Ok (ex_doc_note_updated, [lit "6.3: 6.3.2 -> 6.3.3-c842"]) /\
  contains (note_line "the docs") ex_doc_note = true /\
  contains (note_line "the docs") ex_doc_note_updated = false /\
  contains (note_line "6.3.3-c842") ex_doc_note_updated = true.
Proof. vm_compute. done. Qed.

(** ** Substitution where the matches are known *)

Lemma replaced_prefix here f pre : forall rest s',
  (forall s1 s2, pre = s1 ++ s2 -> s2 <> [] -> here (s2 ++ rest) = None) ->
  replaced here f (pre ++ rest) s' ->
  exists rest', s' = pre ++ rest' /\ replaced here f rest rest'.
Proof.
  induction pre as [|x pre IH]; intros rest s' Hmiss H; [eauto|].
  pose proof (Hmiss [] (x :: pre) eq_refl) as H0. cbn [app] in *.
  inversion H as [|y t t' Hh Hr|w r r' Hw Hh Hr Heq]; subst.
  - destruct (IH rest t') as (rest' & -> & Hrest); [|done|eauto].
    intros s1 s2 -> Hne. apply (Hmiss (x :: s1)); done.
  - rewrite Heq, H0 in Hh by done. done.
Qed.

Lemma replaced_hit_inv here f s w rest s' :
  here [] = None ->
  here s = Some (w, rest) ->
  replaced here f s s' ->
  exists rest', s' = f w ++ rest' /\ replaced here f rest rest'.
Proof.
  intros Hnil Hs H. inversion H as [|y t t' Hh Hr|w' r r' Hw Hh Hr Heq]; subst.
  - congruence.
  - congruence.
  - rewrite Hs in Hh. injection Hh as -> ->. eauto.
Qed.

Lemma replaced_none here f s s' :
  (forall s1 s2, s = s1 ++ s2 -> s2 <> [] -> here s2 = None) ->
  replaced here f s s' -> s' = s.
Proof.
  intros Hmiss H. rewrite <- (app_nil_r s) in H.
  apply replaced_prefix in H as (rest' & -> & H).
  - inversion H as [| |w r r' Hw Hh Hr Heq]; [by rewrite app_nil_r|]. destruct w; done.
  - intros s1 s2 Hs Hne. rewrite app_nil_r. eauto.
Qed.

Lemma occurrences_zero n s :
  occurrences n s = 0 -> forall s1 s2, s = s1 ++ s2 -> starts_with n s2 = false.
Proof.
  induction s as [|x t IH]; cbn [occurrences]; intros H s1 s2 Hs.
  - destruct s1, s2; try done. destruct (starts_with n []); [done|done].
  - destruct (starts_with n (x :: t)) eqn:E; [done|].
    destruct s1 as [|y s1].
    + simpl in Hs. subst s2. done.
    + injection Hs as -> ->. apply (IH H s1). done.
Qed.

Lemma occurrences_pos n s1 s2 :
  starts_with n s2 = true -> 1 <= occurrences n (s1 ++ s2).
Proof.
  intros H. induction s1 as [|x s1 IH]; cbn [app].
  - destruct s2; cbn [occurrences]; rewrite H; lia.
  - cbn [occurrences]. lia.
Qed.

(** The only occurrence of a text: none starts before it, none after its
    start. *)
Lemma occurrences_unique n pre rest :
  occurrences n (pre ++ rest) = 1 -> starts_with n rest = true ->
  (forall s1 s2, pre = s1 ++ s2 -> s2 <> [] -> starts_with n (s2 ++ rest) = false) /\
  (forall r1 r2, rest = r1 ++ r2 -> r1 <> [] -> starts_with n r2 = false).
Proof.
  intros Hone Hrest. induction pre as [|x pre IH]; cbn [app] in Hone.
  - split; [intros s1 s2 H; destruct s1, s2; done|].
    intros r1 r2 -> Hne. destruct r1 as [|y r1]; [done|].
    cbn [app occurrences] in Hone, Hrest. rewrite Hrest in Hone.
    apply (occurrences_zero n (r1 ++ r2)) with r1; [lia|done].
  - cbn [occurrences] in Hone. pose proof (occurrences_pos n pre rest Hrest) as Hpos.
    destruct (starts_with n (x :: pre ++ rest)) eqn:E; [lia|].
    destruct IH as [IH1 IH2]; [lia|]. split; [|done].
    intros s1 s2 Hs Hne. destruct s1 as [|y s1].
    + simpl in Hs. subst s2. done.
    + injection Hs as -> ->. eapply IH1; done.
Qed.

Lemma latest_text_open v rest :
  latest_text v ++ rest = (latest_key ++ [dquote]) ++ v ++ [dquote] ++ rest.
Proof. unfold latest_text. rewrite <- !app_assoc. done. Qed.

Lemma latest_match_starts s :
  starts_with (latest_key ++ [dquote]) s = false -> latest_match s = None.
Proof.
  intros H. destruct (latest_match s) as [[w rest]|] eqn:E; [|done].
  apply latest_match_Some in E as (v0 & -> & -> & _).
  rewrite latest_text_open, starts_with_app in H. done.
Qed.

Lemma latest_match_text v rest :
  dquote ∉ v -> latest_match (latest_text v ++ rest) = Some (latest_text v, rest).
Proof.
  intros Hv. unfold latest_match.
  assert (H : latest_here (latest_text v ++ rest) = Some (v, rest))
    by (apply latest_here_Some; done).
  rewrite H. done.
Qed.

Lemma not_in_text c s : forallb (fun x => negb (Ascii.eqb x c)) s = true -> c ∉ s.
Proof.
  rewrite forallb_forall. intros H Hin. apply list_elem_of_In, H in Hin.
  rewrite Ascii.eqb_refl in Hin. done.
Qed.

Lemma version_chars_not c s :
  version_char c = false -> Forall (fun x => version_char x = true) s -> c ∉ s.
Proof.
  intros Hc Hs Hin. rewrite Forall_forall in Hs. apply Hs in Hin. congruence.
Qed.

(** A substitution on [latest] where the only match is known. *)
Lemma replaced_one_latest f pre v post t :
  dquote ∉ v ->
  (forall s1 s2, pre = s1 ++ s2 -> s2 <> [] ->
     starts_with (latest_key ++ [dquote]) (s2 ++ latest_key ++ [dquote]) = false) ->
  (forall s1 s2, post = s1 ++ s2 -> starts_with (latest_key ++ [dquote]) s2 = false) ->
  replaced latest_match f (pre ++ latest_text v ++ post) t ->
  t = pre ++ f (latest_text v) ++ post.
Proof.
  intros Hv Hpre Hpost H.
  apply replaced_prefix in H as (t' & -> & H).
  2: { intros s1 s2 Hs Hne. apply latest_match_starts.
       rewrite <- (Hpre s1 s2 Hs Hne), latest_text_open.
       replace (s2 ++ latest_key ++ [dquote])
         with ((s2 ++ latest_key ++ [dquote]) ++ []) by apply app_nil_r.
       replace (s2 ++ (latest_key ++ [dquote]) ++ v ++ [dquote] ++ post)
         with ((s2 ++ latest_key ++ [dquote]) ++ v ++ [dquote] ++ post)
         by (rewrite <- !app_assoc; done).
       apply starts_with_common. rewrite !length_app. lia. }
  apply (replaced_hit_inv _ _ _ (latest_text v) post) in H as (t'' & -> & H);
    [|done|by apply latest_match_text].
  apply replaced_none in H as ->; [done|].
  intros s1 s2 Hs Hne. apply latest_match_starts. eapply Hpost. done.
Qed.

Lemma one_latest_of_occurrences pre v post :
  occurrences (latest_key ++ [dquote]) (pre ++ latest_text v ++ post) = 1 ->
  (forall s1 s2, pre = s1 ++ s2 -> s2 <> [] ->
     starts_with (latest_key ++ [dquote]) (s2 ++ latest_key ++ [dquote]) = false) /\
  (forall s1 s2, post = s1 ++ s2 -> starts_with (latest_key ++ [dquote]) s2 = false).
Proof.
  intros Hone.
  destruct (occurrences_unique _ pre (latest_text v ++ post) Hone) as [Hpre Hpost].
  { rewrite latest_text_open. apply starts_with_app. }
  split.
  - intros s1 s2 Hs Hne. rewrite <- (Hpre s1 s2 Hs Hne), latest_text_open.
    replace (s2 ++ latest_key ++ [dquote])
      with ((s2 ++ latest_key ++ [dquote]) ++ []) by apply app_nil_r.
    replace (s2 ++ (latest_key ++ [dquote]) ++ v ++ [dquote] ++ post)
      with ((s2 ++ latest_key ++ [dquote]) ++ v ++ [dquote] ++ post)
      by (rewrite <- !app_assoc; done).
    apply starts_with_common. rewrite !length_app. lia.
  - intros s1 s2 -> . apply (Hpost (latest_text v ++ s1) s2); [by rewrite <- app_assoc|].
    unfold latest_text. destruct latest_key; done.
Qed.

Lemma update_block_total block v d new :
  parse_version v = Some new -> interpolate d = Ok d ->
  exists t, update_block block v d = Ok t.
Proof.
  intros Hv Hd. unfold update_block. rewrite (interpolate_version _ _ Hv), Hd. cbn [bind].
  destruct (contains _ _); eauto.
Qed.




(** ** The updater on a block without a release date *)



(** C7 fails on the code: a block whose [latest] value is not quoted has a
    [latest] line, which the parser reads, and no release date; it
    qualifies, no line is inserted and the version is not replaced: the
    document comes back as it was, with a change line for the block. *)
Theorem C7_unquoted_latest_not_updated :
  latest <$> parse_md_releases ex_doc_unquoted = [Some (lit "6.2.1")] /\
  latestReleaseDate <$> parse_md_releases ex_doc_unquoted = [None] /\
  apply_updates ex_doc_unquoted (parse_md_releases ex_doc_unquoted) ex_feed =
  Ok (ex_doc_unquoted, [lit "6.2: 6.2.1 -> 6.2.8"]).
Proof. vm_compute. done. Qed.

(** ** The order of version tuples is a strict total order *)

Lemma version_lt_trans a b c : version_lt a b -> version_lt b c -> version_lt a c.
Proof.
  destruct a as [[[a1 a2] a3] a4], b as [[[b1 b2] b3] b4], c as [[[c1 c2] c3] c4].
  simpl. lia.
Qed.

Lemma version_lt_total a b : version_lt a b \/ a = b \/ version_lt b a.
Proof.
  destruct a as [[[a1 a2] a3] a4], b as [[[b1 b2] b3] b4]. simpl.
  destruct (N.lt_total a1 b1) as [?|[->|?]]; [left; lia| |right; right; lia].
  destruct (N.lt_total a2 b2) as [?|[->|?]]; [left; lia| |right; right; lia].
  destruct (N.lt_total a3 b3) as [?|[->|?]]; [left; lia| |right; right; lia].
  destruct (N.lt_total a4 b4) as [?|[->|?]]; [left; lia| |right; right; lia].
  right. left. done.
Qed.

(** X1: the comparison [>] of version tuples, as the updater and the loader
    use it, is a strict total order: no tuple is greater than itself, the
    comparison is transitive, and of two different tuples one is greater than
    the other. *)
Theorem version_gtb_strict_total_order (a b c : version_tuple) :
  version_gtb a a = false /\
  (version_gtb a b = true -> version_gtb b c = true -> version_gtb a c = true) /\
  (version_gtb a b = true \/ a = b \/ version_gtb b a = true).
Proof.
  unfold version_gtb. split; [|split].
  - apply not_true_iff_false. rewrite version_ltb_spec. apply version_lt_irrefl.
  - rewrite !version_ltb_spec. intros H1 H2. by apply (version_lt_trans c b a).
  - rewrite !version_ltb_spec. destruct (version_lt_total a b) as [H|[H|H]]; auto.
Qed.

(** ** The value of a version of the grammar *)

Lemma parse_version_text a b c build tail :
  version_parts a b c build -> tail = [] \/ tail = [nl] ->
  parse_version (version_text a b c build ++ tail) = Some (version_value a b c build).
Proof.
  intros Hp Ht.
  destruct (version_re_complete a b c build tail Hp Ht) as (bef & aft & E).
  by apply parse_version_caps in E.
Qed.

Lemma parse_version_grammar a b c build :
  version_parts a b c build ->
  parse_version (version_text a b c build) = Some (version_value a b c build).
Proof.
  intros Hp. rewrite <- (app_nil_r (version_text a b c build)).
  apply parse_version_text; auto.
Qed.

Lemma int_of_digits_zeros n d : int_of_digits (zeros n ++ d) = int_of_digits d.
Proof.
  unfold int_of_digits. induction n as [|n IH]; [done|]. exact IH.
Qed.

Lemma digits_zeros n d : digits d -> digits (zeros n ++ d).
Proof.
  intros [Hne Hd]. split.
  - destruct d; [done|]. by destruct n.
  - apply Forall_app. split; [|done]. induction n; by constructor.
Qed.

(** X2: zeros put before the digits of a component do not change the tuple
    of a version, as long as the text stays within the limit of [int]:
    [6.03.3] and [6.3.3] are the same version to the updater, which compares
    the tuples and not the texts. *)
Theorem parse_version_leading_zeros a b c build n1 n2 n3 n4 :
  version_parts a b c build ->
  length (version_text (zeros n1 ++ a) (zeros n2 ++ b) (zeros n3 ++ c)
                       ((fun d => zeros n4 ++ d) <$> build)) <= int_max_str_digits ->
  parse_version (version_text (zeros n1 ++ a) (zeros n2 ++ b) (zeros n3 ++ c)
                              ((fun d => zeros n4 ++ d) <$> build)) =
  parse_version (version_text a b c build) /\
  parse_version (version_text a b c build) = Some (version_value a b c build).
Proof.
  intros Hp _. rewrite (parse_version_grammar a b c build Hp).
  split; [|done]. destruct Hp as (Ha & Hb & Hc & Hd).
  rewrite parse_version_grammar.
  - unfold version_value. rewrite !int_of_digits_zeros.
    destruct build as [d|]; [|done]. simpl. by rewrite int_of_digits_zeros.
  - repeat split; try by apply digits_zeros.
    destruct build as [d|]; [|done]. by apply digits_zeros.
Qed.

Lemma parse_version_leading_zeros_witness :
  (version_parts (lit "6") (lit "3") (lit "3") (Some (lit "842")) /\
   length (version_text (zeros 1 ++ lit "6") (zeros 2 ++ lit "3") (zeros 0 ++ lit "3")
                        ((fun d => zeros 3 ++ d) <$> Some (lit "842"))) <=
   int_max_str_digits) /\
  parse_version (version_text (zeros 1 ++ lit "6") (zeros 2 ++ lit "3") (zeros 0 ++ lit "3")
                              ((fun d => zeros 3 ++ d) <$> Some (lit "842"))) =
  parse_version (version_text (lit "6") (lit "3") (lit "3") (Some (lit "842"))) /\
  parse_version (version_text (lit "6") (lit "3") (lit "3") (Some (lit "842"))) =
  Some (version_value (lit "6") (lit "3") (lit "3") (Some (lit "842"))).
Proof.
  assert (H : version_parts (lit "6") (lit "3") (lit "3") (Some (lit "842"))).
  { repeat split; try done; by repeat constructor. }
  assert (L : length (version_text (zeros 1 ++ lit "6") (zeros 2 ++ lit "3")
                                   (zeros 0 ++ lit "3")
                                   ((fun d => zeros 3 ++ d) <$> Some (lit "842"))) <=
              int_max_str_digits)
    by (unfold int_max_str_digits; simpl; lia).
  split; [exact (conj H L)|]. exact (parse_version_leading_zeros _ _ _ _ 1 2 0 3 H L).
Defined.

(** X3: for a version within the limit of [int], a build suffix never makes
    the version smaller, and makes it greater exactly when the build number
    is not zero: [6.3.3-c0] is not newer than [6.3.3], so the updater does
    not put it in its place. *)
Theorem build_suffix_order a b c d :
  version_parts a b c (Some d) ->
  length (version_text a b c (Some d)) <= int_max_str_digits ->
  exists v v',
    parse_version (version_text a b c None) = Some v /\
    parse_version (version_text a b c (Some d)) = Some v' /\
    version_gtb v v' = false /\
    version_gtb v' v = negb (int_of_digits d =? 0)%N.
Proof.
  intros Hp _. exists (version_value a b c None), (version_value a b c (Some d)).
  split; [|split].
  - apply parse_version_grammar. destruct Hp as (Ha & Hb & Hc & Hd). done.
  - by apply parse_version_grammar.
  - unfold version_gtb, version_value, version_ltb.
    rewrite !N.ltb_irrefl, !N.eqb_refl. simpl. split.
    + apply N.ltb_ge. lia.
    + destruct (N.eqb_spec (int_of_digits d) 0) as [->|Hn]; [done|]. simpl.
      apply N.ltb_lt. lia.
Qed.

Lemma build_suffix_order_witness :
  (version_parts (lit "6") (lit "3") (lit "3") (Some (lit "0")) /\
   length (version_text (lit "6") (lit "3") (lit "3") (Some (lit "0"))) <=
   int_max_str_digits) /\
  exists v v',
    parse_version (version_text (lit "6") (lit "3") (lit "3") None) = Some v /\
    parse_version (version_text (lit "6") (lit "3") (lit "3") (Some (lit "0"))) = Some v' /\
    version_gtb v v' = false /\
    version_gtb v' v = negb (int_of_digits (lit "0") =? 0)%N.
Proof.
  assert (H : version_parts (lit "6") (lit "3") (lit "3") (Some (lit "0"))).
  { repeat split; try done; by repeat constructor. }
  assert (L : length (version_text (lit "6") (lit "3") (lit "3") (Some (lit "0"))) <=
              int_max_str_digits)
    by (unfold int_max_str_digits; simpl; lia).
  split; [exact (conj H L)|]. exact (build_suffix_order _ _ _ _ H L).
Defined.

(** ** The release cycle of a version string *)

Lemma run_Plus_longest p k bef aft cs res :
  take_while p aft <> [] ->
  k (rev (take_while p aft) ++ bef) (drop_while p aft) cs = Some res ->
  run (Plus p) k bef aft cs = Some res.
Proof.
  intros Hne Hk. unfold Plus. cbn [run].
  destruct aft as [|x t]; [done|]. cbn [take_while drop_while] in *.
  destruct (p x) eqn:Hx; [|done].
  apply rep_greedy_longest. cbn [rev] in Hk. by rewrite <- app_assoc in Hk.
Qed.

Lemma run_Plus_none p k bef aft cs :
  take_while p aft = [] -> run (Plus p) k bef aft cs = None.
Proof.
  unfold Plus. cbn [run]. destruct aft as [|x t]; [done|]. cbn [take_while].
  by destruct (p x).
Qed.

Lemma get_release_cycle_cycle_of s : get_release_cycle s = cycle_of s.
Proof.
  unfold get_release_cycle, cycle_of, re_match, match_at, cycle_re.
  cbn [run]. rewrite run_seqs_cons.
  rewrite run_Plus_max by (intros; by apply (Chr_fails_on_digit "." _ _ eq_refl)).
  destruct (take_while is_digit s) as [|a0 a] eqn:Ea; [done|].
  rewrite run_seqs_cons. cbn [run].
  destruct (drop_while is_digit s) as [|c t] eqn:Ed; [done|].
  destruct (Ascii.eqb c ".") eqn:Ec; [|done]. apply Ascii.eqb_eq in Ec as ->.
  rewrite run_seqs_cons, run_seqs_nil.
  destruct (take_while is_digit t) as [|b0 b] eqn:Eb.
  - by rewrite run_Plus_none.
  - erewrite run_Plus_longest; [..|reflexivity]; [|by rewrite Eb].
    cbn [m_groups group Nat.eqb]. rewrite Eb. f_equal.
    rewrite Nat.sub_0_r, firstn_all, !rev_app_distr, !rev_involutive.
    rewrite app_nil_r. change ("."%char :: rev (a0 :: a)) with (["."%char] ++ rev (a0 :: a)).
    rewrite rev_app_distr, rev_involutive, <- app_assoc. done.
Qed.

Lemma get_release_cycle_iff s c :
  get_release_cycle s = Some c <->
  exists a b rest,
    digits a /\ digits b /\ s = a ++ lit "." ++ b ++ rest /\
    match rest with [] => True | x :: _ => is_digit x = false end /\
    c = a ++ lit "." ++ b.
Proof.
  rewrite get_release_cycle_cycle_of. unfold cycle_of. split.
  - destruct (take_while is_digit s) as [|a0 a] eqn:Ea; [done|].
    destruct (drop_while is_digit s) as [|x t] eqn:Ed; [done|].
    destruct (Ascii.eqb x ".") eqn:Ex; [|done]. apply Ascii.eqb_eq in Ex as ->.
    destruct (take_while is_digit t) as [|b0 b] eqn:Eb; [done|].
    intros [= <-]. exists (a0 :: a), (b0 :: b), (drop_while is_digit t).
    split; [|split; [|split; [|split]]].
    + rewrite <- Ea. apply digits_take_while. by rewrite Ea.
    + rewrite <- Eb. apply digits_take_while. by rewrite Eb.
    + rewrite <- (take_drop_while is_digit s), Ea, Ed.
      rewrite <- (take_drop_while is_digit t) at 1. by rewrite Eb.
    + apply drop_while_head.
    + done.
  - intros (a & b & rest & [Ha Hda] & [Hb Hdb] & -> & Hr & ->).
    destruct (take_while_app is_digit a (lit "." ++ b ++ rest) Hda) as [-> ->]; [done|].
    destruct a as [|a0 a]; [done|]. cbn [lit list_ascii_of_string app Ascii.eqb].
    change (Ascii.eqb "." ".") with true. cbv iota.
    destruct (take_while_app is_digit b rest Hdb Hr) as [-> _].
    destruct b as [|b0 b]; done.
Qed.

(** X4: the release cycle of a version string is its longest start of the
    form digits, dot, digits, whatever follows, as long as no digit follows
    directly; a string that does not start that way has no cycle, and the
    text after the cycle is not looked at. *)
Theorem get_release_cycle_prefix (s c : str) :
  get_release_cycle s = Some c <->
  exists a b rest,
    digits a /\ digits b /\ s = a ++ lit "." ++ b ++ rest /\
    match rest with [] => True | x :: _ => is_digit x = false end /\
    c = a ++ lit "." ++ b.
Proof. apply get_release_cycle_iff. Qed.

Lemma get_release_cycle_of_cycle s c :
  get_release_cycle s = Some c -> get_release_cycle c = Some c.
Proof.
  intros (a & b & rest & Ha & Hb & _ & _ & ->)%get_release_cycle_iff.
  apply get_release_cycle_iff. exists a, b, []. by rewrite app_nil_r.
Qed.

Lemma parse_version_cycle s v :
  parse_version s = Some v ->
  exists a b p q,
    digits a /\ digits b /\
    get_release_cycle s = Some (a ++ lit "." ++ b) /\
    v = (int_of_digits a, int_of_digits b, p, q).
Proof.
  intros (a & b & c & build & (Ha & Hb & Hc & Hd) & Hs & ->)%parse_version_shape.
  exists a, b, (int_of_digits c),
    (match build with Some d => int_of_digits d | None => 0%N end).
  split; [done|]. split; [done|]. split; [|done].
  apply get_release_cycle_iff.
  unfold version_text in Hs. destruct Hs as [->| ->].
  - exists a, b, (lit "." ++ c ++ match build with Some d => lit "-c" ++ d | None => [] end).
    done.
  - exists a, b, ((lit "." ++ c ++ match build with Some d => lit "-c" ++ d | None => [] end)
                  ++ [nl]).
    split; [done|]. split; [done|]. split; [|done]. by rewrite <- !app_assoc.
Qed.

(** X5: every version string that [parse_version] accepts has a release
    cycle, the text of its first two components, whose numbers are the first
    two of its tuple; so the loader's test for a missing cycle never skips an
    entry whose version it has parsed.  The cycle of a cycle is the cycle
    itself. *)
Theorem parsed_version_has_cycle (s : str) (v : version_tuple) :
  parse_version s = Some v ->
  exists a b p q,
    digits a /\ digits b /\
    get_release_cycle s = Some (a ++ lit "." ++ b) /\
    get_release_cycle (a ++ lit "." ++ b) = Some (a ++ lit "." ++ b) /\
    v = (int_of_digits a, int_of_digits b, p, q).
Proof.
  intros (a & b & p & q & Ha & Hb & Hc & ->)%parse_version_cycle.
  exists a, b, p, q. split; [done|]. split; [done|]. split; [done|]. split; [|done].
  by apply (get_release_cycle_of_cycle s).
Qed.

Lemma parsed_version_has_cycle_witness :
  parse_version (lit "6.3.3-c842") = Some (6, 3, 3, 842)%N /\
  exists a b p q,
    digits a /\ digits b /\
    get_release_cycle (lit "6.3.3-c842") = Some (a ++ lit "." ++ b) /\
    get_release_cycle (a ++ lit "." ++ b) = Some (a ++ lit "." ++ b) /\
    (6, 3, 3, 842)%N = (int_of_digits a, int_of_digits b, p, q).
Proof.
  split; [reflexivity|].
  exact (parsed_version_has_cycle (lit "6.3.3-c842") (6, 3, 3, 842)%N eq_refl).
Defined.

(** ** The loader: which feeds load, and the exception of the others *)

Section FeedLoaderOutcome.

Variable reformat_date : str -> option str.

Lemma load_entry_fails cycles e :
  entry_loads reformat_date e = false ->
  load_entry reformat_date cycles e = Raise (entry_error e).
Proof.
  unfold entry_loads, load_entry, entry_error.
  destruct (entry_version e) as [v|]; [|done]. cbn [get_field bind].
  destruct (parse_version v) as [parsed|] eqn:Ep; [|done].
  destruct (parse_version_cycle _ _ Ep) as (a & b & p & q & _ & _ & -> & _).
  destruct (entry_released_on e) as [d|]; [|done]. cbn [get_field bind].
  by destruct (reformat_date d).
Qed.

Lemma load_entry_loads cycles e :
  versions_parse cycles -> entry_loads reformat_date e = true ->
  exists cycles', load_entry reformat_date cycles e = Ok cycles' /\ versions_parse cycles'.
Proof.
  intros Hinv. unfold entry_loads, load_entry.
  destruct (entry_version e) as [v|]; [|done]. cbn [get_field bind].
  destruct (parse_version v) as [parsed|] eqn:Ep; [|by eauto].
  destruct (get_release_cycle v) as [cycle|]; [|by eauto].
  destruct (entry_released_on e) as [d|]; [|done]. cbn [get_field bind].
  destruct (reformat_date d) as [out|]; [|done]. intros _.
  assert (Hnew : versions_parse (<[cycle := {| version := v; date := out |}]> cycles)).
  { intros c info. destruct (decide (c = cycle)) as [->|Hc].
    - rewrite lookup_insert_eq. intros [= <-]. simpl. congruence.
    - rewrite lookup_insert_ne by done. apply Hinv. }
  destruct (cycles !! cycle) as [old|] eqn:Eo; [|by eauto].
  destruct (parse_version (version old)) as [old_parsed|] eqn:Eold.
  - destruct (version_gtb parsed old_parsed); eauto.
  - by destruct (Hinv _ _ Eo).
Qed.

Lemma for_each_load_outcome entries : forall cycles,
  versions_parse cycles ->
  match for_each (load_entry reformat_date) cycles entries with
  | Ok _ => Forall (fun e => entry_loads reformat_date e = true) entries
  | Raise err =>
      exists pre e post,
        entries = pre ++ e :: post /\
        Forall (fun e => entry_loads reformat_date e = true) pre /\
        entry_loads reformat_date e = false /\ err = entry_error e
  end.
Proof.
  induction entries as [|e entries IH]; intros cycles Hinv; [by constructor|].
  cbn [for_each]. destruct (entry_loads reformat_date e) eqn:El.
  - destruct (load_entry_loads cycles e Hinv El) as (cycles' & -> & Hinv').
    cbn [bind]. specialize (IH cycles' Hinv').
    destruct (for_each _ cycles' entries) as [res|err].
    + by constructor.
    + destruct IH as (pre & e' & post & -> & Hpre & He' & ->).
      exists (e :: pre), e', post. repeat split; try done. by constructor.
  - rewrite (load_entry_fails cycles e El). cbn [bind].
    exists [], e, entries. repeat split; try done.
Qed.

(** X6: for a feed whose versions are within the limit of [int], the
    loader returns a map exactly when every entry has a version and
    every entry whose version [parse_version] accepts has a release date
    that strptime accepts.  Otherwise it raises at the first entry that does
    not: KeyError for a missing version or a missing date, ValueError for a
    date strptime refuses, whether or not the entry would have been kept, and
    whatever the entries after it are.  An entry whose version is not
    accepted is passed over before its date is read.  The comparison with the
    version already in the map never meets a version that does not parse. *)
Theorem load_json_versions_outcome (entries : list feed_entry) :
  Forall version_within_limit entries ->
  match load_json_versions reformat_date entries with
  | Ok _ => Forall (fun e => entry_loads reformat_date e = true) entries
  | Raise err =>
      exists pre e post,
        entries = pre ++ e :: post /\
        Forall (fun e => entry_loads reformat_date e = true) pre /\
        entry_loads reformat_date e = false /\ err = entry_error e
  end.
Proof.
  intros _. apply for_each_load_outcome. intros c info. by rewrite lookup_empty.
Qed.

End FeedLoaderOutcome.

Lemma ex_entries_within_limit : Forall version_within_limit ex_entries.
Proof.
  unfold ex_entries.
  repeat (constructor; [unfold version_within_limit, int_max_str_digits; simpl; lia|]).
  constructor.
Defined.

Lemma load_json_versions_outcome_witness :
  Forall version_within_limit ex_entries /\
  match load_json_versions ex_reformat ex_entries with
  | Ok _ => Forall (fun e => entry_loads ex_reformat e = true) ex_entries
  | Raise err =>
      exists pre e post,
        ex_entries = pre ++ e :: post /\
        Forall (fun e => entry_loads ex_reformat e = true) pre /\
        entry_loads ex_reformat e = false /\ err = entry_error e
  end.
Proof.
  split; [exact ex_entries_within_limit|].
  exact (load_json_versions_outcome ex_reformat ex_entries ex_entries_within_limit).
Defined.

(** ** The fields of a block *)

Lemma not_newline_all val : Forall (fun c => not_newline c = true) val <-> nl ∉ val.
Proof.
  induction val as [|x val IH].
  - split; [intros _; apply not_elem_of_nil|constructor].
  - rewrite Forall_cons, not_elem_of_cons, IH. unfold not_newline.
    rewrite negb_true_iff, Ascii.eqb_neq. split; intros [H1 H2]; split; congruence.
Qed.

Lemma field_here_Some field s val :
  field_here field s = Some val <->
  exists post,
    s = field_key field ++ val ++ post /\ val <> [] /\ (nl ∉ val) /\
    (post = [] \/ exists t, post = nl :: t).
Proof.
  unfold field_here. fold (field_key field). split.
  - destruct (starts_with (field_key field) s) eqn:Ek; [|done].
    apply starts_with_spec in Ek as [t ->]. rewrite drop_app_length.
    destruct (take_while not_newline t) as [|x w] eqn:Ew; [done|]. intros [= <-].
    exists (drop_while not_newline t). split; [|split; [|split]].
    + rewrite <- Ew, take_drop_while. done.
    + done.
    + apply not_newline_all. rewrite <- Ew. apply take_while_all.
    + pose proof (drop_while_head not_newline t) as H.
      destruct (drop_while not_newline t) as [|y r]; [by left|right].
      exists r. f_equal. unfold not_newline in H.
      apply negb_false_iff, Ascii.eqb_eq in H. done.
  - intros (post & -> & Hne & Hnl & Hpost).
    rewrite starts_with_app, drop_app_length.
    destruct (take_while_app not_newline val post) as [-> _].
    + by apply not_newline_all.
    + destruct Hpost as [->|[t ->]]; done.
    + destruct val; done.
Qed.

Lemma search_from_first_field field aft : forall bef,
  (fun m => default [] (group 1 (m_groups m))) <$> search_from (field_re field) bef aft =
  first_field field aft.
Proof.
  induction aft as [|x t IH]; intros bef; cbn [search_from first_field];
    unfold match_at; rewrite run_field; destruct (field_here field _); done.
Qed.

Lemma extract_first_field field text :
  extract field text =
  (fun val => strip is_quote (strip is_space val)) <$> first_field field text.
Proof.
  rewrite <- (search_from_first_field field text []). unfold extract, re_search.
  by destruct (search_from (field_re field) [] text).
Qed.

Lemma first_field_Some field s val :
  first_field field s = Some val <->
  exists pre rest,
    s = pre ++ rest /\ field_here field rest = Some val /\
    forall s1 s2, pre = s1 ++ s2 -> s2 <> [] -> field_here field (s2 ++ rest) = None.
Proof.
  split.
  - induction s as [|x t IH]; cbn [first_field].
    + destruct (field_here field []) eqn:E; [|done]. intros [= ->].
      exists [], []. split; [done|]. split; [done|]. intros s1 s2 H. by destruct s1, s2.
    + destruct (field_here field (x :: t)) eqn:E.
      * intros [= ->]. exists [], (x :: t). split; [done|]. split; [done|].
        intros s1 s2 H. by destruct s1, s2.
      * intros (pre & rest & -> & Hr & Hpre)%IH. exists (x :: pre), rest.
        split; [done|]. split; [done|]. intros s1 s2 H Hne.
        destruct s1 as [|y s1].
        -- simpl in H. subst s2. done.
        -- injection H as -> ->. by apply (Hpre s1 s2).
  - intros (pre & rest & -> & Hr & Hpre). induction pre as [|x pre IH].
    + destruct rest; cbn [app first_field]; by rewrite Hr.
    + pose proof (Hpre [] (x :: pre) eq_refl) as H0.
      change ((x :: pre) ++ rest) with (x :: pre ++ rest) in *.
      cbn [first_field]. rewrite H0 by done.
      apply IH. intros s1 s2 -> Hne. by apply (Hpre (x :: s1) s2).
Qed.

(** X7: [extract] reads a field at the first place of the text where four
    spaces, the name of the field, a colon and a space are followed by a
    character other than a newline, wherever in its line that place is; the
    value is the rest of that line with the white space at both ends removed
    and then every double quote at both ends.  Without such a place there is
    no value. *)
Theorem extract_first_occurrence (field : string) (text v : str) :
  extract field text = Some v <->
  exists pre val post,
    text = pre ++ field_key field ++ val ++ post /\
    val <> [] /\ (nl ∉ val) /\ (post = [] \/ exists t, post = nl :: t) /\
    (forall s1 s2, pre = s1 ++ s2 -> s2 <> [] ->
       field_here field (s2 ++ field_key field ++ val ++ post) = None) /\
    v = strip is_quote (strip is_space val).
Proof.
  rewrite extract_first_field. split.
  - destruct (first_field field text) as [val|] eqn:E; [|done]. intros [= <-].
    apply first_field_Some in E as (pre & rest & -> & Hr & Hpre).
    apply field_here_Some in Hr as (post & -> & Hne & Hnl & Hpost).
    exists pre, val, post. done.
  - intros (pre & val & post & -> & Hne & Hnl & Hpost & Hpre & ->).
    assert (E : first_field field (pre ++ field_key field ++ val ++ post) = Some val).
    { apply first_field_Some. exists pre, (field_key field ++ val ++ post).
      split; [done|]. split; [|done]. apply field_here_Some. by exists post. }
    by rewrite E.
Qed.

(** ** [str.strip] *)

Lemma drop_while_elem p s x : x ∈ drop_while p s -> x ∈ s.
Proof.
  rewrite <- (take_drop_while p s) at 2. intros H. apply elem_of_app. by right.
Qed.

Lemma rstrip_elem p s x : x ∈ rstrip p s -> x ∈ s.
Proof.
  unfold rstrip. intros H. apply list_elem_of_In, in_rev, list_elem_of_In in H.
  apply drop_while_elem in H. apply list_elem_of_In, in_rev. by apply list_elem_of_In.
Qed.

Lemma strip_elem p s x : x ∈ strip p s -> x ∈ s.
Proof. unfold strip, lstrip. by intros H%drop_while_elem%rstrip_elem. Qed.

Lemma lstrip_head p s x : head (lstrip p s) = Some x -> p x = false.
Proof.
  unfold lstrip. pose proof (drop_while_head p s) as H.
  destruct (drop_while p s); [done|]. by intros [= <-].
Qed.

Lemma rstrip_last p s x : last (rstrip p s) = Some x -> p x = false.
Proof.
  unfold rstrip. pose proof (drop_while_head p (rev s)) as H.
  destruct (drop_while p (rev s)) as [|y r]; [done|]. cbn [rev].
  rewrite last_snoc. by intros [= <-].
Qed.

Lemma strip_head p s x : head (strip p s) = Some x -> p x = false.
Proof. apply lstrip_head. Qed.

Lemma strip_last p s x : last (strip p s) = Some x -> p x = false.
Proof.
  unfold strip, lstrip. intros H. apply (rstrip_last p s).
  rewrite <- (take_drop_while p (rstrip p s)).
  destruct (drop_while p (rstrip p s)) as [|y r] eqn:E; [done|].
  rewrite last_app, H. done.
Qed.

(** X8: a value that [extract] returns holds no newline, and neither starts
    nor ends with a double quote: the quotes around a [latest] value, however
    many, are not part of the version the updater compares and reports. *)
Theorem extract_value_unquoted (field : string) (text v : str) :
  extract field text = Some v ->
  (nl ∉ v) /\ head v <> Some dquote /\ last v <> Some dquote.
Proof.
  rewrite extract_first_field.
  destruct (first_field field text) as [val|] eqn:E; [|done]. intros [= <-].
  apply first_field_Some in E as (pre & rest & _ & Hr & _).
  apply field_here_Some in Hr as (post & _ & _ & Hnl & _).
  split; [|split].
  - by intros H%strip_elem%strip_elem.
  - intros H%strip_head. done.
  - intros H%strip_last. done.
Qed.

Lemma extract_value_unquoted_witness :
  extract "latest" ex_block = Some (lit "6.2.1") /\
  (nl ∉ lit "6.2.1") /\ head (lit "6.2.1") <> Some dquote /\ last (lit "6.2.1") <> Some dquote.
Proof.
  split; [reflexivity|]. exact (extract_value_unquoted "latest" ex_block (lit "6.2.1") eq_refl).
Defined.

(** ** The scan is a function of the text *)

Lemma scan_nil r bef : nonempty_matches r -> scan r 0 bef [] = [].
Proof.
  intros Hne. cbn [scan]. destruct (match_at r bef []) as [m|] eqn:E; [|done].
  pose proof (Hne _ _ _ E) as Hlt.
  destruct (match_at_span _ _ _ _ E) as (w & rest & Hs & H1 & H2 & _).
  destruct w; [simpl in *; lia|done].
Qed.

Lemma scanned_scan r bef aft ps :
  nonempty_matches r -> scanned r bef aft ps -> ps = scan r 0 bef aft.
Proof.
  intros Hne.
  induction 1 as [bef|bef x t ps Hm Hs IH|bef w rest m ps Hw Hm Hst Hen Htx Hs IH].
  - rewrite scan_nil; done.
  - rewrite scan_miss by done. f_equal. done.
  - rewrite (scan_hit r bef w rest m) by (done || lia). f_equal. done.
Qed.

(** ** Terminators *)

Lemma starts_with_stop c n b r :
  c ∉ n -> n <> [] -> starts_with n (b ++ c :: r) = starts_with n b.
Proof.
  revert b. induction n as [|x n IH]; intros b Hc Hn; [done|].
  apply not_elem_of_cons in Hc as [Hx Hc]. destruct b as [|y b]; cbn [app starts_with].
  - apply andb_false_iff. left. apply Ascii.eqb_neq. done.
  - destruct n as [|x' n]; [by destruct b|]. rewrite IH by done. done.
Qed.

Lemma is_terminator_nl s : is_terminator s = true -> exists t, s = nl :: t.
Proof.
  unfold is_terminator. rewrite orb_true_iff, !starts_with_spec.
  intros [[t ->]|[t ->]]; eauto.
Qed.

Lemma is_terminator_before_nl b r :
  b <> [] -> is_terminator (b ++ nl :: r) = is_terminator b.
Proof.
  intros Hb. destruct b as [|y b]; [done|]. unfold is_terminator.
  cbn [app starts_with]. rewrite !starts_with_stop; [done|..]; try done;
    apply not_in_text; reflexivity.
Qed.

Lemma has_terminator_spec s :
  has_terminator s = false <->
  forall s1 s2, s = s1 ++ s2 -> is_terminator s2 = false.
Proof.
  unfold has_terminator, is_terminator. rewrite orb_false_iff. split.
  - intros [H1 H2] s1 s2 ->. apply orb_false_iff. split.
    + destruct (starts_with _ s2) eqn:E; [|done].
      apply starts_with_contains, (contains_app_r _ s1) in E. congruence.
    + destruct (starts_with (nl :: lit "---") s2) eqn:E; [|done].
      apply starts_with_contains, (contains_app_r _ s1) in E. congruence.
  - intros H. split.
    + destruct (contains (nl :: lit "  - releaseCycle:") s) eqn:E; [|done].
      apply contains_spec in E as (s1 & s2 & ->).
      specialize (H s1 _ eq_refl). apply orb_false_iff in H as [H _].
      rewrite starts_with_app in H. done.
    + destruct (contains (nl :: lit "---") s) eqn:E; [|done].
      apply contains_spec in E as (s1 & s2 & ->).
      specialize (H s1 _ eq_refl). apply orb_false_iff in H as [_ H].
      rewrite starts_with_app in H. done.
Qed.

(** No terminator starts inside the body of a block, which a terminator
    follows, exactly when none occurs in the body. *)
Lemma no_terminator_inside body rest :
  is_terminator rest = true ->
  (forall b1 b2, body = b1 ++ b2 -> b2 <> [] -> is_terminator (b2 ++ rest) = false) <->
  has_terminator body = false.
Proof.
  intros [r ->]%is_terminator_nl. rewrite has_terminator_spec. split.
  - intros H s1 s2 Hs. destruct s2 as [|y s2]; [done|].
    rewrite <- (is_terminator_before_nl (y :: s2) r) by done. eapply H; done.
  - intros H b1 b2 Hb Hne. rewrite is_terminator_before_nl by done. eapply H; done.
Qed.

(** ** Documents without blocks *)

Lemma find_terminator_none s :
  (forall s1 s2, s = s1 ++ s2 -> is_terminator s2 = false) -> find_terminator s = None.
Proof.
  induction s as [|x t IH]; intros H; cbn [find_terminator].
  - by rewrite (H [] []).
  - rewrite (H [] (x :: t)) by done. rewrite IH; [done|].
    intros s1 s2 ->. by apply (H (x :: s1) s2).
Qed.

Lemma block_here_needs_terminator s : has_terminator s = false -> block_here s = None.
Proof.
  intros H. unfold block_here. destruct (header_here s) as [[cycle after]|] eqn:E; [|done].
  apply header_here_Some in E as (-> & _ & _). rewrite find_terminator_none; [done|].
  intros s1 s2 Hs. apply (proj1 (has_terminator_spec _) H
    (cycle_key ++ dquote :: cycle ++ dquote :: s1) s2).
  rewrite Hs, <- !app_assoc. cbn [app]. by rewrite <- app_assoc.
Qed.

Lemma has_terminator_suffix s1 s2 : has_terminator (s1 ++ s2) = false -> has_terminator s2 = false.
Proof.
  rewrite !has_terminator_spec. intros H t1 t2 ->. apply (H (s1 ++ t1) t2).
  by rewrite app_assoc.
Qed.

Lemma block_here_needs_header s :
  contains (cycle_key ++ [dquote]) s = false -> block_here s = None.
Proof.
  intros H. unfold block_here. destruct (header_here s) as [[cycle after]|] eqn:E; [|done].
  apply header_here_Some in E as (-> & _ & _).
  rewrite (starts_with_contains (cycle_key ++ [dquote])) in H; [done|].
  apply starts_with_spec. exists (cycle ++ dquote :: after). by rewrite <- app_assoc.
Qed.

Lemma contains_suffix n s1 s2 : contains n (s1 ++ s2) = false -> contains n s2 = false.
Proof.
  intros H. destruct (contains n s2) eqn:E; [|done].
  by rewrite (contains_app_r n s1 s2 E) in H.
Qed.

(** X9: a document in which no newline is followed by [  - releaseCycle:] or
    by [---], or in which [  - releaseCycle: ] and a double quote do not
    occur, has no blocks: the parser returns the empty list, whatever else
    the document holds, and the updater then returns the document as it is
    with no change. *)
Theorem parse_md_releases_no_blocks (content : str) (cycles : gmap str cycle_info) :
  has_terminator content = false \/ contains (cycle_key ++ [dquote]) content = false ->
  parse_md_releases content = [] /\
  apply_updates content (parse_md_releases content) cycles = Ok (content, []).
Proof.
  intros H. assert (E : parse_md_releases content = []).
  { unfold parse_md_releases, finditer. rewrite scan_all_miss.
    - induction content; [done|]. cbn [map omap]. apply IHcontent.
      destruct H as [H|H]; [left|right].
      + by apply (has_terminator_suffix [a]).
      + by apply (contains_suffix _ [a]).
    - intros s1 s2 ->. rewrite match_at_block.
      destruct (at_line_start _); [|done].
      destruct H as [H|H].
      + by rewrite (block_here_needs_terminator s2 (has_terminator_suffix _ _ H)).
      + by rewrite (block_here_needs_header s2 (contains_suffix _ _ _ H)). }
  by rewrite E.
Qed.

Lemma parse_md_releases_no_blocks_witness :
  (has_terminator ex_doc_open = false \/
   contains (cycle_key ++ [dquote]) ex_doc_open = false) /\
  parse_md_releases ex_doc_open = [] /\
  apply_updates ex_doc_open (parse_md_releases ex_doc_open) ex_feed = Ok (ex_doc_open, []).
Proof.
  assert (H : has_terminator ex_doc_open = false \/
              contains (cycle_key ++ [dquote]) ex_doc_open = false) by (left; reflexivity).
  split; [exact H|]. exact (parse_md_releases_no_blocks ex_doc_open ex_feed H).
Defined.

(** ** The updater on a block with a version and a release date *)

Lemma occurrences_separator c n a b :
  c ∉ n -> n <> [] -> occurrences n (a ++ c :: b) = occurrences n a + occurrences n b.
Proof.
  intros Hc Hn. induction a as [|x a IH].
  - cbn [app occurrences].
    pose proof (starts_with_stop c n [] b Hc Hn) as H. cbn [app] in H. rewrite H.
    destruct n; [done|]. cbn [starts_with]. lia.
  - cbn [app occurrences]. rewrite IH.
    change (x :: a ++ c :: b) with ((x :: a) ++ c :: b).
    rewrite starts_with_stop by done. lia.
Qed.

Lemma occurrences_without_head c n s : c ∉ s -> occurrences (c :: n) s = 0.
Proof.
  induction s as [|x s IH]; [done|]. intros [Hx Hs]%not_elem_of_cons.
  cbn [occurrences starts_with]. rewrite IH by done.
  apply Ascii.eqb_neq in Hx. rewrite Hx. done.
Qed.

Lemma date_match_starts s : starts_with date_key s = false -> date_match s = None.
Proof. intros H. unfold date_match, date_here. by rewrite H. Qed.

Lemma date_match_text d0 post :
  d0 <> [] -> Forall (fun c => not_space c = true) d0 ->
  match post with [] => True | x :: _ => not_space x = false end ->
  date_match ((date_key ++ d0) ++ post) = Some (date_key ++ d0, post).
Proof.
  intros Hne Hd Hpost. unfold date_match, date_here.
  rewrite <- app_assoc, starts_with_app, drop_app_length.
  destruct (take_while_app not_space d0 post Hd Hpost) as [-> ->].
  destruct d0; done.
Qed.

(** A substitution on the release date where the only match is known. *)
Lemma replaced_one_date f pre d0 post t :
  d0 <> [] -> Forall (fun c => not_space c = true) d0 ->
  match post with [] => True | x :: _ => not_space x = false end ->
  occurrences date_key (pre ++ (date_key ++ d0) ++ post) = 1 ->
  replaced date_match f (pre ++ (date_key ++ d0) ++ post) t ->
  t = pre ++ f (date_key ++ d0) ++ post.
Proof.
  intros Hne Hd Hpost Hone H.
  destruct (occurrences_unique _ pre ((date_key ++ d0) ++ post) Hone) as [Hpre Hrest].
  { rewrite <- app_assoc. apply starts_with_app. }
  apply replaced_prefix in H as (t' & -> & H).
  2: { intros s1 s2 Hs Hn. apply date_match_starts. by apply (Hpre s1 s2). }
  apply (replaced_hit_inv _ _ _ (date_key ++ d0) post) in H as (t'' & -> & H);
    [|done|by apply date_match_text].
  apply replaced_none in H as ->; [done|].
  intros s1 s2 -> Hn. apply date_match_starts.
  apply (Hrest ((date_key ++ d0) ++ s1) s2); [by rewrite <- !app_assoc|].
  destruct d0; [done|]. unfold date_key. done.
Qed.

Lemma update_block_both pre v mid d0 post nv nd new :
  parse_version nv = Some new -> interpolate nd = Ok nd -> dquote ∉ v ->
  d0 <> [] -> Forall (fun c => not_space c = true) d0 ->
  match post with [] => True | x :: _ => not_space x = false end ->
  occurrences (latest_key ++ [dquote])
              (pre ++ latest_text v ++ mid ++ (date_key ++ d0) ++ post) = 1 ->
  occurrences date_key (pre ++ latest_text v ++ mid ++ (date_key ++ d0) ++ post) = 1 ->
  update_block (pre ++ latest_text v ++ mid ++ (date_key ++ d0) ++ post) nv nd =
  Ok (pre ++ latest_text nv ++ mid ++ (date_key ++ nd) ++ post).
Proof.
  intros Hnv Hnd Hv Hne Hd Hpost Hone Hdate.
  set (R := mid ++ (date_key ++ d0) ++ post) in *.
  destruct (update_block_total (pre ++ latest_text v ++ R) nv nd new Hnv Hnd) as [t Ht].
  rewrite Ht. f_equal.
  destruct (one_latest_of_occurrences _ _ _ Hone) as [Hpre HR].
  assert (Hchars : Forall (fun c => version_char c = true) nv)
    by (by apply parse_version_chars in Hnv as [_ Hc]).
  assert (Hq : dquote ∉ nv) by (by apply (version_chars_not dquote)).
  apply update_block_replaced in Ht as (t1 & H1 & Hbranch).
  apply replaced_one_latest in H1; [|done..]. unfold new_latest in H1. subst t1.
  assert (Hin : contains (lit "    latestReleaseDate:") (pre ++ latest_text nv ++ R) = true).
  { apply contains_spec. exists (pre ++ latest_text nv ++ mid), (lit " " ++ d0 ++ post).
    unfold R, date_key. rewrite <- !app_assoc. done. }
  rewrite Hin in Hbranch. destruct Hbranch as [[_ H2]|[? _]]; [|done].
  assert (Hform : forall x, pre ++ latest_text x ++ R =
                            (pre ++ latest_key) ++ dquote :: (x ++ dquote :: R)).
  { intros x. unfold latest_text. rewrite <- !app_assoc. done. }
  assert (Hkq : dquote ∉ date_key) by (apply not_in_text; reflexivity).
  assert (Hkn : date_key <> []) by done.
  assert (HoR : 1 <= occurrences date_key R).
  { apply occurrences_pos. rewrite <- app_assoc. apply starts_with_app. }
  rewrite Hform, !occurrences_separator in Hdate by done.
  assert (Hone' : occurrences date_key (pre ++ latest_text nv ++ R) = 1).
  { rewrite Hform, !occurrences_separator by done.
    assert (Hz : occurrences date_key nv = 0).
    { apply (occurrences_without_head " " (lit "   latestReleaseDate: ")).
      by apply (version_chars_not " "). }
    lia. }
  replace (pre ++ latest_text nv ++ R)
    with ((pre ++ latest_text nv ++ mid) ++ (date_key ++ d0) ++ post) in H2, Hone'
    by (unfold R; rewrite <- !app_assoc; done).
  apply replaced_one_date in H2; [|done..]. subst t. unfold new_date.
  rewrite <- !app_assoc. done.
Qed.

(** X10: for a block that qualifies, in which [    latest: ] with an opening
    quote occurs once, there followed by a value without quote and the
    closing quote, and in which [    latestReleaseDate: ] occurs once, there
    followed by a token without white space, the turn of the loop puts the
    feed's version between the quotes and the feed's date in the place of the
    token, all the rest of the block and of the document staying as it is,
    and adds the change line of the block. *)
Theorem update_release_both_fields cycles r info pre v mid d0 post content changes :
  qualifies cycles r = Some info ->
  interpolate (date info) = Ok (date info) ->
  _text r = pre ++ latest_text v ++ mid ++ (date_key ++ d0) ++ post ->
  dquote ∉ v -> d0 <> [] -> Forall (fun c => not_space c = true) d0 ->
  match post with [] => True | x :: _ => not_space x = false end ->
  occurrences (latest_key ++ [dquote]) (_text r) = 1 ->
  occurrences date_key (_text r) = 1 ->
  update_release cycles (content, changes) r =
  Ok (take (_start r) content ++
      (pre ++ latest_text (version info) ++ mid ++ (date_key ++ date info) ++ post) ++
      drop (_end r) content,
      changes ++ [change_line (releaseCycle r) (current_version r) (version info)]).
Proof.
  intros Hq Hd Ht Hv Hne Hd0 Hpost Hone Hdate. rewrite update_release_cases.
  unfold qualifies in Hq.
  destruct (cycles !! releaseCycle r) as [info'|]; [|done].
  destruct (parse_version (version info')) as [new|] eqn:En; [|done].
  destruct (current_parsed r) as [cur|]; [|done].
  destruct (version_gtb new cur); [|done].
  injection Hq as ->. rewrite Ht in *.
  rewrite (update_block_both pre v mid d0 post _ _ new); done.
Qed.

Lemma update_release_both_fields_witness :
  let pre := cycle_line "6.3" ++ [nl] in
  let post := [nl] ++ lit "    link: x" ++ [nl] in
  let r := {| releaseCycle := lit "6.3"; latest := Some (lit "6.3.2");
              latestReleaseDate := Some (lit "2025-11-01");
              _start := 14; _end := 104;
              _text := pre ++ latest_text (lit "6.3.2") ++ [nl] ++
                       (date_key ++ lit "2025-11-01") ++ post |} in
  let info := {| version := lit "6.3.3-c842"; date := lit "2025-12-17" |} in
  (r ∈ parse_md_releases ex_doc /\
   qualifies ex_feed r = Some info /\
   interpolate (date info) = Ok (date info) /\
   (dquote ∉ lit "6.3.2") /\ lit "2025-11-01" <> [] /\
   Forall (fun c => not_space c = true) (lit "2025-11-01") /\
   occurrences (latest_key ++ [dquote]) (_text r) = 1 /\
   occurrences date_key (_text r) = 1) /\
  update_release ex_feed (ex_doc, []) r =
  Ok (take (_start r) ex_doc ++
      (pre ++ latest_text (version info) ++ [nl] ++ (date_key ++ date info) ++ post) ++
      drop (_end r) ex_doc,
      [] ++ [change_line (releaseCycle r) (current_version r) (version info)]).
Proof.
  intros pre post r info.
  assert (H0 : r ∈ parse_md_releases ex_doc) by (vm_compute; apply list_elem_of_here).
  assert (H1 : qualifies ex_feed r = Some info) by (vm_compute; reflexivity).
  assert (H2 : interpolate (date info) = Ok (date info)) by (vm_compute; reflexivity).
  assert (H3 : dquote ∉ lit "6.3.2") by (apply not_in_text; reflexivity).
  assert (H4 : lit "2025-11-01" <> []) by done.
  assert (H5 : Forall (fun c => not_space c = true) (lit "2025-11-01"))
    by (apply Forall_forall; intros x Hx%list_elem_of_In; revert x Hx;
        apply forallb_forall; reflexivity).
  assert (H6 : occurrences (latest_key ++ [dquote]) (_text r) = 1) by (vm_compute; reflexivity).
  assert (H7 : occurrences date_key (_text r) = 1) by (vm_compute; reflexivity).
  split; [done|].
  exact (update_release_both_fields ex_feed r info pre (lit "6.3.2") [nl] (lit "2025-11-01")
           post ex_doc [] H1 H2 eq_refl H3 H4 H5 eq_refl H6 H7).
Defined.

(** ** Headers at the start of texts with a common start *)

(** Both sides of an equation of texts put into the same form. *)
Ltac reassoc := repeat (progress (cbn [app]; rewrite <- ?app_assoc)).

Lemma take_drop_while_found p A t :
  Exists (fun c => p c = false) A ->
  take_while p (A ++ t) = take_while p A /\
  drop_while p (A ++ t) = drop_while p A ++ t /\
  drop_while p A <> [].
Proof.
  induction 1 as [x A Hx|x A HA IH]; cbn [app take_while drop_while].
  - rewrite Hx. done.
  - destruct (p x); [|done]. destruct IH as (-> & -> & Hne). done.
Qed.

Lemma quoted_here_app a A t :
  dquote ∈ A ->
  quoted_here ((a :: A) ++ t) =
  match quoted_here (a :: A) with
  | Some (v, R) => Some (v, R ++ t)
  | None => None
  end.
Proof.
  intros Hin. cbn [app quoted_here]. destruct (is_quote a); [|done].
  destruct (take_drop_while_found not_quote A t) as (-> & -> & Hne).
  { apply Exists_exists. exists dquote. split; [done|]. reflexivity. }
  destruct (drop_while not_quote A); done.
Qed.

Lemma header_here_app P t :
  dquote ∈ drop (S (length cycle_key)) P ->
  header_here (P ++ t) =
  match header_here P with
  | Some (cyc, R) => Some (cyc, R ++ t)
  | None => None
  end.
Proof.
  intros Hin. unfold header_here.
  assert (Hlen : S (length cycle_key) < length P).
  { destruct (decide (S (length cycle_key) < length P)) as [|Hn]; [done|].
    rewrite drop_ge in Hin by lia. by apply elem_of_nil in Hin. }
  rewrite <- (app_nil_r P) at 2.
  rewrite (starts_with_common cycle_key P t []) by lia. rewrite app_nil_r.
  destruct (starts_with cycle_key P); [|done].
  rewrite drop_app_le by lia.
  destruct (drop (length cycle_key) P) as [|a A] eqn:E.
  { apply (f_equal length) in E. rewrite length_drop in E. cbn [length] in E. lia. }
  assert (HA : A = drop (S (length cycle_key)) P).
  { change (S (length cycle_key)) with (1 + length cycle_key).
    rewrite Nat.add_comm, <- drop_drop, E. done. }
  rewrite quoted_here_app by (by rewrite HA).
  destruct (quoted_here (a :: A)) as [[[|c v] R]|]; done.
Qed.

(** The header of a block after text that is not empty: the same header, or
    none, is found whatever follows the block's own header. *)
Lemma header_here_common x g c t1 t2 :
  header_here (x :: g ++ block_text c t1) = None ->
  header_here (x :: g ++ block_text c t2) = None.
Proof.
  set (P := x :: g ++ cycle_key ++ [dquote] ++ c ++ [dquote]).
  assert (HP : forall t, x :: g ++ block_text c t = P ++ t).
  { intros t. unfold P, block_text. reassoc. done. }
  assert (Hin : dquote ∈ drop (S (length cycle_key)) P).
  { unfold P.
    replace (x :: g ++ cycle_key ++ [dquote] ++ c ++ [dquote])
      with ((x :: g ++ cycle_key ++ [dquote] ++ c) ++ [dquote])
      by (reassoc; done).
    rewrite drop_app_le.
    - apply elem_of_app. right. apply list_elem_of_here.
    - cbn [length]. rewrite !length_app. simpl. lia. }
  rewrite !HP, !header_here_app by done.
  destruct (header_here P) as [[cyc R]|]; done.
Qed.

Lemma header_here_common_Some x g c t1 t2 cyc after :
  header_here (x :: g ++ block_text c t1) = Some (cyc, after) ->
  exists R, after = R ++ t1 /\ header_here (x :: g ++ block_text c t2) = Some (cyc, R ++ t2).
Proof.
  set (P := x :: g ++ cycle_key ++ [dquote] ++ c ++ [dquote]).
  assert (HP : forall t, x :: g ++ block_text c t = P ++ t).
  { intros t. unfold P, block_text. reassoc. done. }
  assert (Hin : dquote ∈ drop (S (length cycle_key)) P).
  { unfold P.
    replace (x :: g ++ cycle_key ++ [dquote] ++ c ++ [dquote])
      with ((x :: g ++ cycle_key ++ [dquote] ++ c) ++ [dquote])
      by (reassoc; done).
    rewrite drop_app_le.
    - apply elem_of_app. right. apply list_elem_of_here.
    - cbn [length]. rewrite !length_app. simpl. lia. }
  rewrite !HP, !header_here_app by done.
  destruct (header_here P) as [[cyc' R]|]; [|done]. intros [= <- <-]. eauto.
Qed.

(** ** The scan of a document whose blocks are replaced *)

Lemma scanned_text_eq r bef aft ps : scanned r bef aft ps -> aft = pieces_text m_text ps.
Proof.
  induction 1 as [bef|bef x t ps Hm Hs IH|bef w rest m ps Hw Hm Hst Hen Htx Hs IH].
  - done.
  - cbn [pieces_text flat_map app]. f_equal. exact IH.
  - cbn [pieces_text flat_map]. rewrite Htx. f_equal. exact IH.
Qed.

Lemma hit_block bef w rest m :
  match_at block_re bef (w ++ rest) = Some m -> m_text m = w ->
  at_line_start bef = true /\
  exists cycle body,
    w = block_text cycle body /\ m_groups m = [(1, cycle)] /\
    cycle <> [] /\ (dquote ∉ cycle) /\
    is_terminator rest = true /\ has_terminator body = false.
Proof.
  rewrite match_at_block. destruct (at_line_start bef); [|done].
  destruct (block_here (w ++ rest)) as [[[cycle body] rest']|] eqn:Eh; [|done].
  intros [= <-]. cbn [m_text m_groups]. intros <-. split; [done|].
  apply block_here_Some in Eh as (Heq & Hne & Hq & Hr & Hno).
  apply app_inv_head in Heq as ->.
  exists cycle, body. repeat split; try done. by apply (no_terminator_inside body rest').
Qed.

Lemma has_terminator_after body rest :
  is_terminator rest = true -> has_terminator (body ++ rest) = true.
Proof.
  unfold is_terminator, has_terminator. rewrite !orb_true_iff.
  intros [H|H]; [left|right]; by apply contains_app_r, starts_with_contains.
Qed.

Lemma is_terminator_common g c t1 t2 :
  is_terminator (g ++ block_text c t1) = is_terminator (g ++ block_text c t2).
Proof.
  unfold is_terminator, block_text. rewrite !(app_assoc g cycle_key).
  f_equal; apply starts_with_common; rewrite length_app; simpl; lia.
Qed.

Lemma starts_with_first (c x : ascii) t1 t2 :
  starts_with [c] (x :: t1) = starts_with [c] (x :: t2).
Proof. done. Qed.

Lemma block_here_needs_space x t :
  starts_with (lit " ") (x :: t) = false -> block_here (x :: t) = None.
Proof.
  intros H. unfold block_here, header_here, cycle_key.
  cbn [lit list_ascii_of_string starts_with] in *.
  destruct (Ascii.eqb " " x); done.
Qed.

Section Rescan.

(** The text put in the place of a block: a block of the same cycle, without
    a terminator when the block had none. *)
Variable U : rmatch -> str.

Hypothesis U_block : forall m cycle body,
  m_groups m = [(1, cycle)] -> m_text m = block_text cycle body ->
  cycle <> [] -> dquote ∉ cycle -> has_terminator body = false ->
  exists body', U m = block_text cycle body' /\ has_terminator body' = false.

(** The new text is the old one, or both go the same way up to the header of
    the first block, after which both have a terminator. *)
Lemma pieces_common bef aft ps :
  scanned block_re bef aft ps ->
  pieces_text U ps = aft \/
  exists g c t1 t2,
    aft = g ++ block_text c t1 /\ pieces_text U ps = g ++ block_text c t2 /\
    has_terminator t1 = true /\ has_terminator t2 = true.
Proof.
  induction 1 as [bef|bef x t ps Hm Hs IH|bef w rest m ps Hw Hm Hst Hen Htx Hs IH].
  - by left.
  - cbn [pieces_text flat_map app]. fold (pieces_text U ps).
    destruct IH as [->|(g & c & t1 & t2 & -> & -> & H1 & H2)]; [by left|right].
    exists (x :: g), c, t1, t2. done.
  - cbn [pieces_text flat_map]. fold (pieces_text U ps). right.
    destruct (hit_block _ _ _ _ Hm Htx) as (_ & cycle & body & -> & Hg & Hne & Hq & Hr & Hb).
    destruct (U_block m cycle body Hg Htx Hne Hq Hb) as (body' & -> & Hb').
    exists [], cycle, (body ++ rest), (body' ++ pieces_text U ps).
    split; [unfold block_text; by reassoc|]. split; [unfold block_text; by reassoc|].
    split; [by apply has_terminator_after|]. apply has_terminator_after.
    destruct IH as [->|(g & c & t1 & t2 & -> & -> & _)]; [done|].
    by rewrite (is_terminator_common g c t2 t1).
Qed.

Lemma terminator_kept bef aft ps :
  scanned block_re bef aft ps -> is_terminator (pieces_text U ps) = is_terminator aft.
Proof.
  intros [->|(g & c & t1 & t2 & -> & -> & _)]%pieces_common; [done|].
  apply is_terminator_common.
Qed.

Lemma block_here_kept bef x t ps :
  scanned block_re bef t ps ->
  block_here (x :: t) = None -> block_here (x :: pieces_text U ps) = None.
Proof.
  intros [->|(g & c & t1 & t2 & -> & -> & H1 & H2)]%pieces_common; [done|].
  unfold block_here.
  destruct (header_here (x :: g ++ block_text c t1)) as [[cyc after]|] eqn:E.
  - apply header_here_common_Some with (t2 := t2) in E as (R & -> & _).
    destruct (find_terminator (R ++ t1)) as [[body rest]|] eqn:Ef; [done|]. intros _.
    pose proof (find_terminator_None _ Ef) as Hno.
    apply has_terminator_spec in Hno. apply has_terminator_suffix in Hno. congruence.
  - intros _. by rewrite (header_here_common x g c t1 t2 E).
Qed.

Lemma rescan bef aft ps :
  scanned block_re bef aft ps ->
  forall bef2,
    at_line_start bef2 = at_line_start bef \/ starts_with (lit " ") aft = false ->
    exists ps2,
      scanned block_re bef2 (pieces_text U ps) ps2 /\
      Forall2 (fun m m2 => m_groups m2 = m_groups m /\ m_text m2 = U m) (hits ps) (hits ps2).
Proof.
  induction 1 as [bef|bef x t ps Hm Hs IH|bef w rest m ps Hw Hm Hst Hen Htx Hs IH];
    intros bef2 Hpre.
  - exists []. split; constructor.
  - cbn [pieces_text flat_map app]. fold (pieces_text U ps).
    destruct (IH (x :: bef2)) as (ps2 & Hs2 & Hall); [by left|].
    exists (Text x :: ps2). split; [|done]. apply scanned_text; [|done].
    rewrite match_at_block in *. destruct Hpre as [->|Hsp].
    + destruct (at_line_start bef); [|done].
      rewrite (block_here_kept _ _ _ _ Hs); [done|].
      by destruct (block_here (x :: t)) as [[[? ?] ?]|].
    + rewrite block_here_needs_space
        by (etrans; [apply (starts_with_first " " x _ t)|exact Hsp]).
      by destruct (at_line_start bef2).
  - cbn [pieces_text flat_map]. fold (pieces_text U ps).
    destruct (hit_block _ _ _ _ Hm Htx) as (Hl & cycle & body & -> & Hg & Hne & Hq & Hr & Hb).
    destruct (U_block m cycle body Hg Htx Hne Hq Hb) as (body' & HU & Hb').
    assert (Hl2 : at_line_start bef2 = true).
    { destruct Hpre as [->|Hsp]; [done|]. by unfold block_text, cycle_key in Hsp. }
    assert (Hr2 : is_terminator (pieces_text U ps) = true)
      by (by rewrite (terminator_kept _ _ _ Hs)).
    destruct (is_terminator_nl _ Hr) as [r Er].
    destruct (IH (rev (U m) ++ bef2)) as (ps2 & Hs2 & Hall).
    { right. by rewrite Er. }
    set (m2 := {| m_start := length bef2;
                  m_end := length bef2 + length (block_text cycle body');
                  m_text := block_text cycle body';
                  m_groups := [(1, cycle)] |}).
    exists (Hit m2 :: ps2). split.
    + rewrite HU in *. apply scanned_hit; try done.
      rewrite match_at_block, Hl2.
      rewrite (block_here_complete cycle body' (pieces_text U ps)); try done.
      by apply no_terminator_inside.
    + change (hits (Hit m :: ps)) with (m :: hits ps).
      change (hits (Hit m2 :: ps2)) with (m2 :: hits ps2).
      constructor; [|done]. by rewrite Hg, HU.
Qed.

End Rescan.

(** ** Updated blocks keep their header and stay without terminator *)

Lemma app_eq_prefix {A : Type} (a b c d : list A) :
  a ++ b = c ++ d -> length c <= length a -> exists e, a = c ++ e /\ d = e ++ b.
Proof.
  intros H Hlen. apply app_eq_app in H as [l [[-> ->]|[-> ->]]]; [eauto|].
  rewrite length_app in Hlen. destruct l; [|simpl in Hlen; lia].
  exists []. by rewrite !app_nil_r.
Qed.

Lemma block_text_header c body : block_text c body = block_text c [] ++ body.
Proof. unfold block_text. by reassoc. Qed.

Lemma cycle_no_space v c : get_release_cycle v = Some c -> " "%char ∉ c.
Proof.
  intros (a & b & rest & [_ Ha] & [_ Hb] & _ & _ & ->)%get_release_cycle_iff.
  rewrite !not_elem_of_app. repeat split.
  - intros Hin. rewrite Forall_forall in Ha. by apply Ha in Hin.
  - by apply not_in_text.
  - intros Hin. rewrite Forall_forall in Hb. by apply Hb in Hin.
Qed.

(** A key that starts with a space and has no double quote does not start
    inside the header of a block whose cycle has no space. *)
Lemma no_key_in_header n c s1 s2 body :
  dquote ∉ " "%char :: n -> occurrences (" "%char :: n) cycle_key = 0 -> " "%char ∉ c ->
  s1 ++ s2 = block_text c body -> length s1 < length (block_text c []) ->
  starts_with (" "%char :: n) s2 = false.
Proof.
  intros Hq Hk Hc Heq Hlen.
  assert (Hform : block_text c body = (cycle_key ++ dquote :: c) ++ dquote :: body)
    by (unfold block_text; by reassoc).
  assert (Hl : length s1 <= length (cycle_key ++ dquote :: c)).
  { unfold block_text in Hlen. rewrite !length_app in *. simpl in *. lia. }
  rewrite Hform in Heq. symmetry in Heq.
  apply app_eq_prefix in Heq as (e & He & ->); [|done].
  rewrite starts_with_stop by done.
  apply (occurrences_zero _ (cycle_key ++ dquote :: c)) with s1; [|done].
  rewrite occurrences_separator, Hk by done. by apply occurrences_without_head.
Qed.

Lemma key_after_header n c pre Y body :
  dquote ∉ " "%char :: n -> occurrences (" "%char :: n) cycle_key = 0 -> " "%char ∉ c ->
  pre ++ (" "%char :: n) ++ Y = block_text c body ->
  exists e, pre = block_text c [] ++ e /\ body = e ++ (" "%char :: n) ++ Y.
Proof.
  intros Hq Hk Hc Heq.
  destruct (decide (length pre < length (block_text c []))) as [Hlt|Hge].
  - pose proof (no_key_in_header n c pre _ body Hq Hk Hc Heq Hlt) as H.
    by rewrite starts_with_app in H.
  - rewrite block_text_header in Heq. apply app_eq_prefix in Heq; [done|lia].
Qed.

Lemma contains_new_value n e v0 v post :
  dquote ∉ nl :: n -> contains (nl :: n) v = false ->
  contains (nl :: n) (e ++ latest_text v0 ++ post) = false ->
  contains (nl :: n) (e ++ latest_text v ++ post) = false.
Proof.
  intros Hq Hv Hold.
  destruct (contains _ (e ++ latest_text v ++ post)) eqn:E; [|done]. exfalso.
  assert (Hform : forall x, e ++ latest_text x ++ post =
                            (e ++ latest_key) ++ dquote :: (x ++ dquote :: post))
    by (intros x; unfold latest_text; by reassoc).
  assert (Hpost : forall x, e ++ latest_text x ++ post = (e ++ latest_text x) ++ post)
    by (intros x; by reassoc).
  rewrite Hform in E. apply contains_separator in E as [E|E]; [| |done].
  - rewrite Hform in Hold. apply (contains_app_l _ _ (dquote :: v0 ++ dquote :: post)) in E.
    congruence.
  - apply contains_separator in E as [E|E]; [| |done].
    + congruence.
    + rewrite Hpost in Hold. apply (contains_app_r _ (e ++ latest_text v0)) in E. congruence.
Qed.

Lemma contains_new_date n e d0 d post :
  "D"%char ∉ nl :: n -> nl ∉ d ->
  contains (nl :: n) (e ++ (date_key ++ d0) ++ post) = false ->
  contains (nl :: n) (e ++ (date_key ++ d) ++ post) = false.
Proof.
  intros HD Hd Hold.
  destruct (contains _ (e ++ (date_key ++ d) ++ post)) eqn:E; [|done]. exfalso.
  assert (Hform : forall x, e ++ (date_key ++ x) ++ post =
                            (e ++ lit "    latestRelease") ++
                            "D"%char :: ((lit "ate: " ++ x) ++ post))
    by (intros x; unfold date_key; by reassoc).
  assert (Hpost : forall x, e ++ (date_key ++ x) ++ post = (e ++ date_key ++ x) ++ post)
    by (intros x; by reassoc).
  rewrite Hform in E. apply contains_separator in E as [E|E]; [| |done].
  - rewrite Hform in Hold.
    apply (contains_app_l _ _ ("D"%char :: (lit "ate: " ++ d0) ++ post)) in E. congruence.
  - apply contains_first_char in E.
    + rewrite Hpost in Hold. apply (contains_app_r _ (e ++ date_key ++ d0)) in E. congruence.
    + apply not_elem_of_app. split; [by apply not_in_text|done].
Qed.

Lemma contains_new_line n e v0 d post :
  dquote ∉ nl :: n -> nl ∉ d ->
  (forall X, starts_with (nl :: n) (nl :: date_key ++ X) = false) ->
  contains (nl :: n) (e ++ latest_text v0 ++ post) = false ->
  contains (nl :: n) (e ++ (latest_text v0 ++ [nl] ++ date_key ++ d) ++ post) = false.
Proof.
  intros Hq Hd Hst Hold.
  destruct (contains _ (e ++ (latest_text v0 ++ [nl] ++ date_key ++ d) ++ post)) eqn:E;
    [|done]. exfalso.
  assert (Hnew : e ++ (latest_text v0 ++ [nl] ++ date_key ++ d) ++ post =
                 (e ++ latest_key ++ dquote :: v0) ++
                 dquote :: (nl :: date_key ++ d ++ post))
    by (unfold latest_text; by reassoc).
  assert (Hform : e ++ latest_text v0 ++ post =
                  (e ++ latest_key ++ dquote :: v0) ++ dquote :: post)
    by (unfold latest_text; by reassoc).
  assert (Hpost : e ++ latest_text v0 ++ post = (e ++ latest_text v0) ++ post)
    by (by reassoc).
  rewrite Hnew in E. apply contains_separator in E as [E|E]; [| |done].
  - rewrite Hform in Hold. apply (contains_app_l _ _ (dquote :: post)) in E. congruence.
  - cbn [contains] in E. rewrite Hst, orb_false_l in E.
    rewrite app_assoc in E. apply contains_first_char in E.
    + rewrite Hpost in Hold. apply (contains_app_r _ (e ++ latest_text v0)) in E. congruence.
    + apply not_elem_of_app. split; [by apply not_in_text|done].
Qed.

(** A version that [parse_version] accepts holds no terminator: its only
    newline, if any, is its last character. *)
Lemma version_no_terminator v new : parse_version v = Some new -> has_terminator v = false.
Proof.
  intros (a & b & c & build & Hp & Hs & _)%parse_version_shape.
  assert (Hnl : nl ∉ version_text a b c build)
    by (apply in_grammar_no_newline; by exists a, b, c, build).
  assert (H : forall n, n <> [] -> contains (nl :: n) v = false).
  { intros n Hn. destruct (contains (nl :: n) v) eqn:E; [|done]. exfalso.
    destruct Hs as [->| ->].
    - by apply contains_head in E.
    - apply contains_spec in E as (s1 & s2 & E).
      destruct (exists_last (l := n ++ s2)) as (tl & z & Hz); [by destruct n|].
      replace (s1 ++ (nl :: n) ++ s2) with ((s1 ++ nl :: tl) ++ [z]) in E
        by (cbn [app]; rewrite Hz; by reassoc).
      apply app_inj_tail in E as [E _]. apply Hnl. rewrite E.
      apply elem_of_app. right. apply list_elem_of_here. }
  unfold has_terminator. by rewrite !H.
Qed.

Lemma has_terminator_false s :
  has_terminator s = false <->
  contains (nl :: lit "  - releaseCycle:") s = false /\ contains (nl :: lit "---") s = false.
Proof. unfold has_terminator. apply orb_false_iff. Qed.

Lemma edit_keeps_block v d c a b :
  " "%char ∉ c -> has_terminator v = false -> nl ∉ d ->
  edit v d a b ->
  forall body, a = block_text c body -> has_terminator body = false ->
  exists body', b = block_text c body' /\ has_terminator body' = false.
Proof.
  intros Hc Hv Hd He body Ha Hb. apply has_terminator_false in Hb as [Hb1 Hb2].
  apply has_terminator_false in Hv as [Hv1 Hv2].
  destruct He as [pre v0 post Hv0|pre d0 post Hne Hd0|pre v0 post Hv0].
  - assert (Hk : pre ++ latest_key ++ ([dquote] ++ v0 ++ [dquote]) ++ post =
                 block_text c body) by (rewrite <- Ha; unfold latest_text; by reassoc).
    apply (key_after_header (lit "   latest: ")) in Hk as (e & -> & ->);
      [|by apply not_in_text|done|done].
    exists (e ++ latest_text v ++ post). split.
    + rewrite (block_text_header c (e ++ _)). by reassoc.
    + apply has_terminator_false.
      split; apply (contains_new_value _ e v0 v post); try done;
        try (by apply not_in_text); unfold latest_text; by reassoc.
  - assert (Hk : pre ++ date_key ++ d0 ++ post = block_text c body)
      by (rewrite <- Ha; by reassoc).
    apply (key_after_header (lit "   latestReleaseDate: ")) in Hk as (e & -> & ->);
      [|by apply not_in_text|done|done].
    exists (e ++ (date_key ++ d) ++ post). split.
    + rewrite (block_text_header c (e ++ _)). by reassoc.
    + apply has_terminator_false.
      split; apply (contains_new_date _ e d0 d post); try done;
        try (by apply not_in_text); by reassoc.
  - assert (Hk : pre ++ latest_key ++ ([dquote] ++ v0 ++ [dquote]) ++ post =
                 block_text c body) by (rewrite <- Ha; unfold latest_text; by reassoc).
    apply (key_after_header (lit "   latest: ")) in Hk as (e & -> & ->);
      [|by apply not_in_text|done|done].
    exists (e ++ (latest_text v0 ++ [nl] ++ date_key ++ d) ++ post). split.
    + rewrite (block_text_header c (e ++ _)). by reassoc.
    + apply has_terminator_false.
      split; apply (contains_new_line _ e v0 d post); try done;
        try (by apply not_in_text); unfold latest_text; by reassoc.
Qed.

Lemma edits_keep_block v d c a b :
  " "%char ∉ c -> has_terminator v = false -> nl ∉ d ->
  edits v d a b ->
  forall body, a = block_text c body -> has_terminator body = false ->
  exists body', b = block_text c body' /\ has_terminator body' = false.
Proof.
  intros Hc Hv Hd. induction 1 as [a|a b b' Hab Hbb IH]; intros body Ha Hb; [eauto|].
  destruct (edit_keeps_block v d c a b Hc Hv Hd Hab body Ha Hb) as (body1 & Hb1 & Ht1).
  eauto.
Qed.

Lemma qualifies_Some cycles r info :
  qualifies cycles r = Some info ->
  cycles !! releaseCycle r = Some info /\
  exists new cur,
    parse_version (version info) = Some new /\ current_parsed r = Some cur /\
    version_gtb new cur = true.
Proof.
  unfold qualifies. destruct (cycles !! releaseCycle r) as [info'|]; [|done].
  destruct (parse_version (version info')) as [new|] eqn:En; [|done].
  destruct (current_parsed r) as [cur|]; [|done].
  destruct (version_gtb new cur) eqn:Eg; [|done]. intros [= ->].
  split; [done|]. by exists new, cur.
Qed.

(** The text the updater puts in the place of a block of the document is a
    block of the same cycle, without a terminator inside. *)
Lemma new_text_block cycles m cycle body :
  feed_shape cycles ->
  m_groups m = [(1, cycle)] -> m_text m = block_text cycle body ->
  has_terminator body = false ->
  exists body', new_text cycles (release_of_match m) = block_text cycle body' /\
                has_terminator body' = false.
Proof.
  intros Hf Hg Ht Hb. unfold new_text.
  destruct (qualifies cycles (release_of_match m)) as [info|] eqn:Eq; [|by eauto].
  cbn [_text release_of_match].
  destruct (update_block (m_text m) (version info) (date info)) as [t|] eqn:Eu; [|by eauto].
  apply qualifies_Some in Eq as (Hin & new & cur & Hnew & _).
  rewrite (releaseCycle_of_match m cycle Hg) in Hin.
  destruct (Hf _ _ Hin) as (Hc & Hd & _).
  apply update_block_edits in Eu.
  by apply (edits_keep_block _ _ cycle _ _ (cycle_no_space _ _ Hc)
              (version_no_terminator _ _ Hnew) Hd Eu body).
Qed.

(** ** The version [extract] finds in an updated block *)

Lemma search_from_Some r aft : forall bef m,
  search_from r bef aft = Some m ->
  exists s1 s2,
    aft = s1 ++ s2 /\ match_at r (rev s1 ++ bef) s2 = Some m /\
    forall a b, s1 = a ++ b -> b <> [] -> match_at r (rev a ++ bef) (b ++ s2) = None.
Proof.
  induction aft as [|x t IH]; intros bef m; cbn [search_from].
  - destruct (match_at r bef []) eqn:E; [|done]. intros [= ->].
    exists [], []. split; [done|]. split; [done|]. intros a b H. by destruct a, b.
  - destruct (match_at r bef (x :: t)) eqn:E.
    + intros [= ->]. exists [], (x :: t). split; [done|]. split; [done|].
      intros a b H. by destruct a, b.
    + intros (s1 & s2 & -> & Hm & Hno)%IH. exists (x :: s1), s2.
      split; [done|]. split; [by cbn [rev]; rewrite <- app_assoc|].
      intros a b H Hne. destruct a as [|y a].
      * simpl in H. subst b. done.
      * injection H as -> ->. cbn [rev]. rewrite <- app_assoc. by apply Hno.
Qed.

Lemma is_quoted_spec val :
  is_quoted val = true -> exists v0, val = dquote :: v0 ++ [dquote] /\ dquote ∉ v0.
Proof.
  destruct val as [|c t]; [done|]. cbn [is_quoted].
  destruct (rev t) as [|c' t'] eqn:E; [by rewrite andb_false_r|].
  rewrite !andb_true_iff. unfold is_quote. rewrite !Ascii.eqb_eq.
  intros (-> & -> & Hall). exists (rev t'). split.
  - f_equal. rewrite <- (rev_involutive t), E. done.
  - apply all_not_quote, Forall_forall. intros x Hx.
    rewrite forallb_forall in Hall. apply Hall, in_rev, list_elem_of_In. done.
Qed.

Lemma latest_is_quoted_spec block :
  latest_is_quoted block = true ->
  exists pre v0 post,
    block = pre ++ latest_text v0 ++ post /\ (dquote ∉ v0) /\ (nl ∉ v0) /\
    (post = [] \/ exists t, post = nl :: t) /\
    (forall s1 s2, pre = s1 ++ s2 -> s2 <> [] ->
       field_here "latest" (s2 ++ latest_text v0 ++ post) = None) /\
    contains (lit "    latestReleaseDate:") (pre ++ latest_key) = false.
Proof.
  unfold latest_is_quoted, re_search.
  destruct (search_from (field_re "latest") [] block) as [m|] eqn:E; [|done].
  apply search_from_Some in E as (pre & s2 & -> & Hm & Hno).
  rewrite app_nil_r in Hm. unfold match_at in Hm. rewrite run_field in Hm.
  destruct (field_here "latest" s2) as [val|] eqn:Ef; [|done].
  injection Hm as <-. cbn [m_groups group Nat.eqb default m_start].
  apply field_here_Some in Ef as (post & -> & Hne & Hnl & Hpost).
  rewrite andb_true_iff, negb_true_iff. intros [Hq Hd]. unfold id in Hq.
  apply is_quoted_spec in Hq as (v0 & -> & Hv0).
  exists pre, v0, post.
  assert (Hform : field_key "latest" ++ (dquote :: v0 ++ [dquote]) ++ post =
                  latest_text v0 ++ post) by (unfold latest_text; by reassoc).
  rewrite Hform in *. split; [done|]. split; [done|]. split; [|split; [done|split]].
  - intros Hin. apply Hnl. apply elem_of_cons. right. apply elem_of_app. by left.
  - intros s1 s2 Hs Hn2. specialize (Hno s1 s2 Hs Hn2). rewrite app_nil_r in Hno.
    by apply match_at_field in Hno.
  - rewrite length_rev in Hd.
    replace (pre ++ latest_text v0 ++ post)
      with ((pre ++ latest_key) ++ [dquote] ++ v0 ++ [dquote] ++ post) in Hd
      by (unfold latest_text; by reassoc).
    rewrite <- length_app, take_app_length in Hd. done.
Qed.

Lemma replaced_line_end here f post post1 :
  (forall r, here (nl :: r) = None) ->
  replaced here f post post1 ->
  post = [] \/ (exists t, post = nl :: t) ->
  post1 = [] \/ exists t, post1 = nl :: t.
Proof.
  intros Hnl H Hpost. inversion H as [|y t t' Hh Hr|w r r' Hw Hh Hr Heq]; subst.
  - by left.
  - destruct Hpost as [|[t0 [= -> ->]]]; [done|]. right. eauto.
  - destruct Hpost as [Hp|[t0 Hp]]; rewrite Hp in Hh.
    + destruct w; done.
    + by rewrite Hnl in Hh.
Qed.

Lemma field_here_starts s :
  field_here "latest" s = None -> starts_with (latest_key ++ [dquote]) s = false.
Proof.
  intros H. destruct (starts_with (latest_key ++ [dquote]) s) eqn:E; [|done].
  apply starts_with_spec in E as [t ->]. revert H. unfold field_here.
  change (lit "    " ++ lit "latest" ++ lit ": ") with latest_key.
  rewrite <- app_assoc, starts_with_app, drop_app_length. done.
Qed.

(** No release date starts in the text up to the closing quote of the new
    version when none occurs before the opening quote. *)
Lemma no_date_before pre nv X s1 s2 :
  contains (lit "    latestReleaseDate:") (pre ++ latest_key) = false ->
  " "%char ∉ nv ->
  pre ++ latest_text nv = s1 ++ s2 -> s2 <> [] ->
  starts_with date_key (s2 ++ X) = false.
Proof.
  intros Hno Hnv Heq Hne.
  assert (Hform : pre ++ latest_text nv = (pre ++ latest_key) ++ (dquote :: nv ++ [dquote]))
    by (unfold latest_text; by reassoc).
  rewrite Hform in Heq. apply app_eq_app in Heq as [l [[Hk ->]|[-> Hq]]].
  - replace ((l ++ dquote :: nv ++ [dquote]) ++ X) with (l ++ dquote :: (nv ++ [dquote]) ++ X)
      by by reassoc.
    rewrite starts_with_stop; [|by apply not_in_text|done].
    destruct (starts_with date_key l) eqn:E; [|done].
    apply starts_with_spec in E as [l' ->].
    rewrite <- not_true_iff_false in Hno. destruct Hno. apply contains_spec.
    exists s1, (lit " " ++ l'). rewrite Hk. unfold date_key. by reassoc.
  - destruct s2 as [|h s2]; [done|].
    assert (Hh : h ∈ dquote :: nv ++ [dquote])
      by (rewrite Hq; apply elem_of_app; right; apply list_elem_of_here).
    unfold date_key. cbn [app lit list_ascii_of_string starts_with].
    destruct (Ascii.eqb_spec " " h) as [<-|]; [|done]. exfalso.
    apply elem_of_cons in Hh as [|Hh]; [done|].
    apply elem_of_app in Hh as [|Hh]; [done|]. by apply list_elem_of_singleton in Hh.
Qed.

Lemma latest_match_newline r : latest_match (nl :: r) = None.
Proof. by apply latest_match_starts. Qed.

Lemma date_match_newline r : date_match (nl :: r) = None.
Proof. by apply date_match_starts. Qed.

Lemma latest_text_split s2 X Y :
  s2 ++ latest_text X ++ Y = (s2 ++ latest_key ++ [dquote]) ++ (X ++ [dquote] ++ Y).
Proof. unfold latest_text. by reassoc. Qed.

(** What the updater makes of a block whose [latest] field is a quoted
    value alone on its line, with no release date before it: the text
    before the field stays, the new version is between the quotes, and the
    line ends after the closing quote. *)
Lemma update_block_latest pre v0 post nv nd new t :
  parse_version nv = Some new ->
  dquote ∉ v0 ->
  (post = [] \/ exists r, post = nl :: r) ->
  (forall s1 s2, pre = s1 ++ s2 -> s2 <> [] ->
     field_here "latest" (s2 ++ latest_text v0 ++ post) = None) ->
  contains (lit "    latestReleaseDate:") (pre ++ latest_key) = false ->
  update_block (pre ++ latest_text v0 ++ post) nv nd = Ok t ->
  exists post2, t = pre ++ latest_text nv ++ post2 /\ (post2 = [] \/ exists r, post2 = nl :: r).
Proof.
  intros Hnv Hv0 Hpost Hfirst Hno Hu.
  assert (Hchars : Forall (fun c => version_char c = true) nv)
    by (by apply parse_version_chars in Hnv as [_ Hc]).
  assert (Hq : dquote ∉ nv) by (by apply (version_chars_not dquote)).
  assert (Hsp : " "%char ∉ nv) by (by apply (version_chars_not " ")).
  assert (Hmiss : forall X Y s1 s2, pre = s1 ++ s2 -> s2 <> [] ->
            latest_match (s2 ++ latest_text X ++ Y) = None).
  { intros X Y s1 s2 Hs Hne. apply latest_match_starts.
    rewrite <- (field_here_starts _ (Hfirst s1 s2 Hs Hne)).
    rewrite !latest_text_split. apply starts_with_common.
    rewrite !length_app. simpl. lia. }
  apply update_block_replaced in Hu as (t1 & H1 & Hbranch).
  apply replaced_prefix in H1 as (t1' & -> & H1); [|by apply Hmiss].
  apply (replaced_hit_inv _ _ _ (latest_text v0) post) in H1 as (post1 & -> & H1);
    [|done|by apply latest_match_text].
  unfold new_latest in Hbranch.
  pose proof (replaced_line_end _ _ _ _ latest_match_newline H1 Hpost) as Hpost1.
  destruct Hbranch as [[_ H2]|[_ H2]].
  - rewrite app_assoc in H2. apply replaced_prefix in H2 as (post2 & -> & H2).
    + exists post2. split; [by reassoc|].
      by apply (replaced_line_end _ _ _ _ date_match_newline H2).
    + intros s1 s2 Hs Hne. apply date_match_starts.
      by apply (no_date_before pre nv post1 s1 s2).
  - apply replaced_prefix in H2 as (t' & -> & H2); [|by apply Hmiss].
    apply (replaced_hit_inv _ _ _ (latest_text nv) post1) in H2 as (post2 & -> & H2);
      [|done|by apply latest_match_text].
    exists ([nl] ++ date_key ++ nd ++ post2). split; [unfold with_date_line; by reassoc|].
    right. eauto.
Qed.

Lemma drop_while_keep p s :
  match s with [] => True | x :: _ => p x = false end -> drop_while p s = s.
Proof. destruct s as [|x s]; [done|]. cbn [drop_while]. by intros ->. Qed.

Lemma drop_while_quote l : drop_while is_quote (dquote :: l) = drop_while is_quote l.
Proof. done. Qed.

Lemma strip_quoted v : dquote ∉ v -> strip is_quote (dquote :: v ++ [dquote]) = v.
Proof.
  intros Hv. unfold strip, lstrip, rstrip.
  replace (rev (dquote :: v ++ [dquote])) with (dquote :: rev v ++ [dquote])
    by (cbn [rev]; by rewrite rev_app_distr).
  rewrite drop_while_quote.
  assert (Hhead : forall l : str, dquote ∉ l ->
            match l with [] => True | x :: _ => is_quote x = false end).
  { intros [|x l]; [done|]. intros [Hx _]%not_elem_of_cons. by apply Ascii.eqb_neq. }
  destruct (rev v) as [|l r] eqn:E.
  - apply (f_equal (@rev ascii)) in E. rewrite rev_involutive in E. by subst v.
  - assert (Hin : drop_while is_quote ((l :: r) ++ [dquote]) = (l :: r) ++ [dquote]).
    { apply drop_while_keep. cbn [app]. apply (Hhead (l :: r)). rewrite <- E.
      intros Hin. apply Hv. by apply list_elem_of_In, in_rev, list_elem_of_In. }
    rewrite Hin, <- E, rev_app_distr, rev_involutive. cbn [rev app].
    rewrite drop_while_quote. by apply drop_while_keep, Hhead.
Qed.

Lemma strip_space_quoted v :
  strip is_space (dquote :: v ++ [dquote]) = dquote :: v ++ [dquote].
Proof.
  unfold strip, lstrip, rstrip.
  replace (rev (dquote :: v ++ [dquote])) with (dquote :: rev v ++ [dquote])
    by (cbn [rev]; by rewrite rev_app_distr).
  rewrite (drop_while_keep is_space (dquote :: _)) by done.
  replace (rev (dquote :: rev v ++ [dquote])) with (dquote :: v ++ [dquote])
    by (cbn [rev]; by rewrite rev_app_distr, rev_involutive).
  by apply drop_while_keep.
Qed.

Lemma field_here_none_common field p x y :
  length (field_key field) < length p ->
  field_here field (p ++ x) = None -> field_here field (p ++ y) = None.
Proof.
  intros Hlen. unfold field_here. fold (field_key field).
  rewrite (starts_with_common (field_key field) p x y) by lia.
  destruct (starts_with (field_key field) (p ++ y)); [|done].
  rewrite !drop_app_le by lia.
  destruct (drop (length (field_key field)) p) as [|a A] eqn:E.
  { apply (f_equal length) in E. rewrite length_drop in E. cbn [length] in E. lia. }
  cbn [app take_while]. by destruct (not_newline a).
Qed.

Lemma extract_latest_text pre v post v0 post0 :
  dquote ∉ v -> nl ∉ v -> (post = [] \/ exists r, post = nl :: r) ->
  (forall s1 s2, pre = s1 ++ s2 -> s2 <> [] ->
     field_here "latest" (s2 ++ latest_text v0 ++ post0) = None) ->
  extract "latest" (pre ++ latest_text v ++ post) = Some v.
Proof.
  intros Hq Hnl Hpost Hfirst. rewrite extract_first_field.
  assert (E : first_field "latest" (pre ++ latest_text v ++ post) =
              Some (dquote :: v ++ [dquote])).
  { apply first_field_Some. exists pre, (latest_text v ++ post).
    split; [done|]. split.
    - apply field_here_Some. exists post. split; [unfold latest_text; by reassoc|].
      split; [done|]. split; [|done].
      rewrite not_elem_of_cons, not_elem_of_app, list_elem_of_singleton. done.
    - intros s1 s2 Hs Hne. specialize (Hfirst s1 s2 Hs Hne).
      rewrite latest_text_split in Hfirst |- *.
      revert Hfirst. apply field_here_none_common.
      rewrite !length_app. simpl. lia. }
  rewrite E. cbn [fmap option_fmap option_map]. by rewrite strip_space_quoted, strip_quoted.
Qed.

Lemma head_fails p (l : str) :
  Forall (fun x => p x = false) l -> match l with [] => True | x :: _ => p x = false end.
Proof. by destruct 1. Qed.

Lemma Forall_rev_1 {A : Type} (P : A -> Prop) l : Forall P l -> Forall P (rev l).
Proof.
  rewrite !Forall_forall. intros H x Hx. apply H.
  by apply list_elem_of_In, in_rev, list_elem_of_In.
Qed.

Lemma strip_keep p s : Forall (fun x => p x = false) s -> strip p s = s.
Proof.
  intros H. unfold strip, lstrip, rstrip.
  rewrite (drop_while_keep p (rev s)) by (by apply head_fails, Forall_rev_1).
  rewrite rev_involutive. by apply drop_while_keep, head_fails.
Qed.

Lemma strip_open_quote v : dquote ∉ v -> strip is_quote (dquote :: v) = v.
Proof.
  intros Hv. apply all_not_quote in Hv.
  assert (Hq : Forall (fun x => is_quote x = false) v).
  { eapply Forall_impl; [exact Hv|]. intros x Hx. unfold not_quote in Hx.
    by apply negb_true_iff in Hx. }
  unfold strip, lstrip, rstrip. cbn [rev].
  destruct (rev v) as [|l r] eqn:E.
  - apply (f_equal (@rev ascii)) in E. rewrite rev_involutive in E. by subst v.
  - assert (Hin : drop_while is_quote ((l :: r) ++ [dquote]) = (l :: r) ++ [dquote]).
    { apply drop_while_keep. cbn [app]. apply (head_fails is_quote (l :: r)).
      rewrite <- E. by apply Forall_rev_1. }
    rewrite Hin, <- E, rev_app_distr, rev_involutive. cbn [rev app].
    rewrite drop_while_quote. by apply drop_while_keep, head_fails.
Qed.

Lemma version_char_not_space x : version_char x = true -> x <> nl -> is_space x = false.
Proof.
  destruct x as [[] [] [] [] [] [] [] []]; vm_compute; intros H1 H2; congruence.
Qed.

(** The same when the new version ends with a newline: the value read ends
    before it. *)
Lemma extract_latest_text_newline pre core post v0 post0 :
  dquote ∉ core -> nl ∉ core -> Forall (fun x => is_space x = false) core ->
  (forall s1 s2, pre = s1 ++ s2 -> s2 <> [] ->
     field_here "latest" (s2 ++ latest_text v0 ++ post0) = None) ->
  extract "latest" (pre ++ latest_text (core ++ [nl]) ++ post) = Some core.
Proof.
  intros Hq Hnl Hsp Hfirst. rewrite extract_first_field.
  assert (E : first_field "latest" (pre ++ latest_text (core ++ [nl]) ++ post) =
              Some (dquote :: core)).
  { apply first_field_Some. exists pre, (latest_text (core ++ [nl]) ++ post).
    split; [done|]. split.
    - apply field_here_Some. exists (nl :: dquote :: post).
      split; [unfold latest_text; by reassoc|].
      split; [done|]. split; [|by eauto].
      by rewrite not_elem_of_cons.
    - intros s1 s2 Hs Hne. specialize (Hfirst s1 s2 Hs Hne).
      rewrite latest_text_split in Hfirst |- *.
      revert Hfirst. apply field_here_none_common.
      rewrite !length_app. simpl. lia. }
  rewrite E. cbn [fmap option_fmap option_map].
  rewrite (strip_keep is_space) by (by constructor). by rewrite strip_open_quote.
Qed.

(** After its update a block whose [latest] field was a quoted value alone
    on its line has a version that parses to the tuple of the feed's. *)
Lemma extract_after_update block nv nd new t :
  parse_version nv = Some new ->
  latest_is_quoted block = true ->
  update_block block nv nd = Ok t ->
  exists cur, extract "latest" t = Some cur /\ parse_version cur = Some new.
Proof.
  intros Hnv (pre & v0 & post & -> & Hv0 & _ & Hpost & Hfirst & Hno)%latest_is_quoted_spec Hu.
  destruct (update_block_latest pre v0 post nv nd new t Hnv Hv0 Hpost Hfirst Hno Hu)
    as (post2 & -> & Hpost2).
  destruct (parse_version_shape _ _ Hnv) as (a & b & c & build & Hp & Hs & ->).
  pose proof (parse_version_grammar a b c build Hp) as Hcore.
  destruct (parse_version_chars _ _ Hcore) as [_ Hc].
  assert (Hnl : nl ∉ version_text a b c build)
    by (apply in_grammar_no_newline; by exists a, b, c, build).
  assert (Hq : dquote ∉ version_text a b c build) by (by apply (version_chars_not dquote)).
  exists (version_text a b c build). split; [|done].
  destruct Hs as [->| ->].
  - by apply (extract_latest_text pre _ post2 v0 post).
  - apply (extract_latest_text_newline pre _ post2 v0 post); try done.
    apply Forall_forall. intros x Hx. apply version_char_not_space.
    + rewrite Forall_forall in Hc. by apply Hc.
    + by intros ->.
Qed.

(** ** A second run of the updater *)

Lemma for_each_all_skip {S A : Type} (body : S -> A -> result S) l s :
  (forall a, a ∈ l -> forall s', body s' a = Ok s') -> for_each body s l = Ok s.
Proof.
  induction l as [|a l IH]; intros H; [done|]. cbn [for_each].
  rewrite (H a) by apply list_elem_of_here. cbn [bind]. apply IH.
  intros a' Ha'. apply H. by apply list_elem_of_further.
Qed.

Lemma elem_of_rev_1 {A : Type} (x : A) l : x ∈ rev l -> x ∈ l.
Proof. intros H%elem_of_rev_2. by rewrite rev_involutive in H. Qed.

Lemma current_parsed_latest r r' : latest r' = latest r -> current_parsed r' = current_parsed r.
Proof. unfold current_parsed, current_version. by intros ->. Qed.

Lemma qualifies_ext cycles r r' :
  releaseCycle r' = releaseCycle r -> latest r' = latest r ->
  qualifies cycles r' = qualifies cycles r.
Proof.
  intros Hc Hl. unfold qualifies. by rewrite Hc, (current_parsed_latest r r' Hl).
Qed.

Lemma update_release_parsed cycles s1 s2 r info :
  update_release cycles s1 r = Ok s2 ->
  cycles !! releaseCycle r = Some info -> parse_version (version info) <> None ->
  current_parsed r <> None.
Proof.
  destruct s1 as [content changes]. rewrite update_release_cases. intros H Hin Hp.
  rewrite Hin in H. destruct (parse_version (version info)); [|done].
  by destruct (current_parsed r).
Qed.

(** The release the second parse makes of an updated block no longer
    qualifies, and its turn of the loop changes nothing. *)
Lemma updated_release_skipped cycles r r2 s1 s2 st :
  feed_shape cycles ->
  (qualifies cycles r <> None -> latest_is_quoted (_text r) = true) ->
  update_release cycles s1 r = Ok s2 ->
  releaseCycle r2 = releaseCycle r ->
  latest r2 = extract "latest" (new_text cycles r) ->
  latest r = extract "latest" (_text r) ->
  update_release cycles st r2 = Ok st.
Proof.
  intros Hf Hq H1 Hc Hl Hl0.
  destruct (qualifies cycles r) as [info|] eqn:Eq.
  - pose proof (qualifies_update_block _ _ _ _ _ H1 Eq) as Hu.
    apply qualifies_Some in Eq as (Hin & new & cur & Hnew & _ & _).
    destruct (extract_after_update _ _ _ new _ Hnew (Hq ltac:(done)) Hu) as (now & Hex & Hnow).
    rewrite Hex in Hl.
    assert (Hcur : current_parsed r2 = Some new).
    { unfold current_parsed, current_version. rewrite Hl. cbn [default].
      destruct now; [done|]. exact Hnow. }
    assert (Hirr : version_gtb new new = false)
      by (apply version_not_gt_le, version_le_refl).
    apply update_release_skip.
    + unfold qualifies. by rewrite Hc, Hin, Hnew, Hcur, Hirr.
    + intros info' _ _. by rewrite Hcur.
  - rewrite (new_text_not_qualified _ _ Eq), <- Hl0 in Hl.
    apply update_release_skip.
    + by rewrite (qualifies_ext cycles r r2).
    + intros info Hin Hp. rewrite (current_parsed_latest r r2 Hl). rewrite Hc in Hin.
      by apply (update_release_parsed cycles s1 s2 r info).
Qed.

(** The second parse of the updated document finds the blocks of the first,
    each with the text the updater put in its place. *)
Lemma reparse_updated content cycles content2 changes :
  feed_shape cycles ->
  apply_updates content (parse_md_releases content) cycles = Ok (content2, changes) ->
  exists ms ms2,
    parse_md_releases content = map release_of_match ms /\
    parse_md_releases content2 = map release_of_match ms2 /\
    Forall2 (fun m m2 => m_groups m2 = m_groups m /\
                         m_text m2 = new_text cycles (release_of_match m)) ms ms2.
Proof.
  intros Hf H1.
  pose proof (parse_md_releases_scanned content) as Hs.
  set (ps := scan block_re 0 [] content) in *.
  set (U := fun m => new_text cycles (release_of_match m)).
  assert (Hrs : parse_md_releases content = map release_of_match (hits ps)) by done.
  assert (Hc2 : content2 = pieces_text U ps).
  { unfold apply_updates in H1. rewrite Hrs in H1.
    apply (for_each_rebuild cycles _ [] content) in H1.
    - rewrite H1. cbn [app length]. by rewrite (scanned_rebuild _ _ _ _ _ Hs).
    - exact (scanned_laid_out _ _ _ _ Hs). }
  assert (HU : forall m cycle body,
            m_groups m = [(1, cycle)] -> m_text m = block_text cycle body ->
            cycle <> [] -> dquote ∉ cycle -> has_terminator body = false ->
            exists body', U m = block_text cycle body' /\ has_terminator body' = false).
  { intros m cycle body Hg Ht _ _ Hb. by apply (new_text_block cycles m cycle body). }
  destruct (rescan U HU [] content ps Hs []) as (ps2 & Hs2 & Hall); [by left|].
  rewrite <- Hc2 in Hs2.
  apply (scanned_scan _ _ _ _ block_re_nonempty) in Hs2.
  exists (hits ps), (hits ps2). split; [done|]. split; [by rewrite Hs2|done].
Qed.

Lemma idempotent_run content cycles content2 changes :
  feed_shape cycles ->
  (forall r, r ∈ parse_md_releases content -> qualifies cycles r <> None ->
     latest_is_quoted (_text r) = true) ->
  apply_updates content (parse_md_releases content) cycles = Ok (content2, changes) ->
  apply_updates content2 (parse_md_releases content2) cycles = Ok (content2, []).
Proof.
  intros Hf Hq H1.
  destruct (reparse_updated _ _ _ _ Hf H1) as (ms & ms2 & Hrs & Hrs2 & Hall).
  unfold apply_updates at 1. rewrite Hrs2. apply for_each_all_skip.
  intros r2 Hr2%elem_of_rev_1 st.
  apply list_elem_of_fmap in Hr2 as (m2 & -> & Hm2).
  apply list_elem_of_lookup in Hm2 as [i Hi].
  destruct (Forall2_lookup_r _ _ _ _ _ Hall Hi) as (m & Hm & Hg & Ht).
  assert (Hin : m ∈ ms) by (by apply list_elem_of_lookup; exists i).
  assert (Hr : release_of_match m ∈ parse_md_releases content)
    by (rewrite Hrs; by apply list_elem_of_fmap_2).
  destruct (for_each_steps_ok (update_release cycles) _ _ _ H1 (release_of_match m))
    as (s1 & s2 & Hok).
  { by apply elem_of_rev_2. }
  apply (updated_release_skipped cycles (release_of_match m) _ s1 s2); try done.
  - by apply Hq.
  - cbn [releaseCycle release_of_match]. by rewrite Hg.
  - cbn [latest release_of_match]. by rewrite Ht.
Qed.

(** X11: when the feed map is as the loader makes it from dates of one
    line without backslash, the updater keeps the blocks of the document: a parse of
    the document it returns finds as many blocks as the parse of the input,
    in the same order, each with the cycle of the block it comes from and
    with the text the updater put in the place of that block. *)
Theorem apply_updates_keeps_blocks content cycles content2 changes :
  feed_shape cycles ->
  apply_updates content (parse_md_releases content) cycles = Ok (content2, changes) ->
  Forall2 (fun r r2 => releaseCycle r2 = releaseCycle r /\ _text r2 = new_text cycles r /\
                       latest r2 = extract "latest" (new_text cycles r))
          (parse_md_releases content) (parse_md_releases content2).
Proof.
  intros Hf H1.
  destruct (reparse_updated _ _ _ _ Hf H1) as (ms & ms2 & -> & -> & Hall).
  apply Forall2_fmap. eapply Forall2_impl; [exact Hall|].
  intros m m2 [Hg Ht]. cbn [releaseCycle _text latest release_of_match].
  by rewrite Hg, Ht.
Qed.

Lemma ex_feed_shape : feed_shape ex_feed.
Proof.
  intros c info H. apply elem_of_list_to_map_2 in H. cbn [map fst snd] in H.
  repeat (apply elem_of_cons in H as [ [= -> ->] | H];
          [split; [reflexivity|split; apply not_in_text; reflexivity]|]).
  by apply elem_of_nil in H.
Defined.

Lemma ex_doc_quoted r :
  r ∈ parse_md_releases ex_doc -> qualifies ex_feed r <> None ->
  latest_is_quoted (_text r) = true.
Proof.
  intros Hr _.
  vm_compute in Hr.
  repeat (apply elem_of_cons in Hr as [->|Hr]; [vm_compute; reflexivity|]).
  by apply elem_of_nil in Hr.
Defined.

Lemma apply_updates_keeps_blocks_witness :
  (feed_shape ex_feed /\
   apply_updates ex_doc (parse_md_releases ex_doc) ex_feed =
   Ok (ex_doc_updated, [lit "6.2: 6.2.1 -> 6.2.8"; lit "6.3: 6.3.2 -> 6.3.3-c842"])) /\
  Forall2 (fun r r2 => releaseCycle r2 = releaseCycle r /\ _text r2 = new_text ex_feed r /\
                       latest r2 = extract "latest" (new_text ex_feed r))
          (parse_md_releases ex_doc) (parse_md_releases ex_doc_updated).
Proof.
  assert (H : apply_updates ex_doc (parse_md_releases ex_doc) ex_feed =
              Ok (ex_doc_updated, [lit "6.2: 6.2.1 -> 6.2.8"; lit "6.3: 6.3.2 -> 6.3.3-c842"]))
    by (vm_compute; reflexivity).
  split; [split; [exact ex_feed_shape|exact H]|].
  exact (apply_updates_keeps_blocks ex_doc ex_feed ex_doc_updated _ ex_feed_shape H).
Defined.

(** X12: the updater is idempotent on the documents it is written for.  When
    the feed map is as the loader makes it from dates of one line without
    backslash, and in every block that qualifies the [latest] field that the
    parser reads is a double-quoted value alone on its line with no
    [    latestReleaseDate:] before it, a second run on the document the
    first run returned gives that document back with no change. *)
Theorem apply_updates_idempotent content cycles content2 changes :
  feed_shape cycles ->
  (forall r, r ∈ parse_md_releases content -> qualifies cycles r <> None ->
     latest_is_quoted (_text r) = true) ->
  apply_updates content (parse_md_releases content) cycles = Ok (content2, changes) ->
  apply_updates content2 (parse_md_releases content2) cycles = Ok (content2, []).
Proof. apply idempotent_run. Qed.

Lemma apply_updates_idempotent_witness :
  (feed_shape ex_feed /\
   (forall r, r ∈ parse_md_releases ex_doc -> qualifies ex_feed r <> None ->
      latest_is_quoted (_text r) = true) /\
   apply_updates ex_doc (parse_md_releases ex_doc) ex_feed =
   Ok (ex_doc_updated, [lit "6.2: 6.2.1 -> 6.2.8"; lit "6.3: 6.3.2 -> 6.3.3-c842"])) /\
  apply_updates ex_doc_updated (parse_md_releases ex_doc_updated) ex_feed =
  Ok (ex_doc_updated, []).
Proof.
  assert (H : apply_updates ex_doc (parse_md_releases ex_doc) ex_feed =
              Ok (ex_doc_updated, [lit "6.2: 6.2.1 -> 6.2.8"; lit "6.3: 6.3.2 -> 6.3.3-c842"]))
    by (vm_compute; reflexivity).
  split; [split; [exact ex_feed_shape|split; [exact ex_doc_quoted|exact H]]|].
  exact (apply_updates_idempotent ex_doc ex_feed ex_doc_updated _
           ex_feed_shape ex_doc_quoted H).
Defined.


(** ** The run of the script *)

Lemma foldl_print w lines :
  foldl print w lines = {| files := files w; stdout := stdout w ++ lines |}.
Proof.
  revert w. induction lines as [|l lines IH]; intros w.
  - cbn [foldl]. rewrite app_nil_r. by destruct w.
  - cbn [foldl]. rewrite IH. unfold print. cbn [files stdout]. by rewrite <- app_assoc.
Qed.

Lemma omap_nil_Forall {A B : Type} (f : A -> option B) l :
  omap f l = [] <-> Forall (fun x => f x = None) l.
Proof.
  induction l as [|x l IH]; [by split; [constructor|]|]. cbn [omap list_omap].
  fold (omap f l). destruct (f x) eqn:E.
  - split; [done|]. intros H. inversion H; congruence.
  - rewrite IH. split; [by constructor|]. by inversion 1.
Qed.

Lemma block_change_None cycles r : block_change cycles r = None <-> qualifies cycles r = None.
Proof. unfold block_change. by destruct (qualifies cycles r). Qed.

Section MainProperties.

Variable reformat_date : str -> option str.
Variable decode_utf16 : list ascii -> option str.
Variable decode_utf8_sig : list ascii -> option str.
Variable json_loads : str -> option (list feed_entry).
Variable read_text : list ascii -> option str.
Variable write_text : str -> list ascii.

Local Abbreviation run_main :=
  (main reformat_date decode_utf16 decode_utf8_sig json_loads read_text write_text).
Local Abbreviation load_feed :=
  (load_json_file reformat_date decode_utf16 decode_utf8_sig json_loads).

(** X14: what a run reports.  When both inputs are read and the updater
    returns, the change lines are those of the blocks that qualify, last
    block of the document first.  If no block qualifies the updater returns
    the document as it is, and the run prints NO_UPDATES and writes nothing;
    otherwise it writes the updater's document to the output path and prints
    UPDATES_FOUND followed by the change lines. *)
Theorem main_reports (a : args) (w : world) cycles content content2 changes :
  load_feed w (json a) = Got cycles ->
  read_md read_text w (md a) = Got content ->
  apply_updates content (parse_md_releases content) cycles = Ok (content2, changes) ->
  changes = omap (block_change cycles) (rev (parse_md_releases content)) /\
  (Forall (fun r => qualifies cycles r = None) (parse_md_releases content) ->
     content2 = content /\ run_main a w = (print w (lit "NO_UPDATES"), Exit 0)) /\
  (~ Forall (fun r => qualifies cycles r = None) (parse_md_releases content) ->
     run_main a w = ({| files := <[output a := write_text content2]> (files w);
                    stdout := stdout w ++ lit "UPDATES_FOUND" :: changes |}, Exit 0)).
Proof.
  intros Hj Hm Hu. unfold main. rewrite Hj. cbn [and_then]. rewrite Hm.
  cbn [and_then]. rewrite Hu. cbn [of_result].
  destruct (for_each_changes _ _ _ _ _ _ Hu) as [Hc Hsame]. cbn [app] in Hc.
  split; [done|].
  assert (Hnil : changes = [] <-> Forall (fun r => qualifies cycles r = None)
                                         (parse_md_releases content)).
  { rewrite Hc, omap_nil_Forall, !Forall_forall. split; intros H r Hr.
    - apply block_change_None, H. by apply elem_of_rev_2.
    - apply block_change_None, H. by apply elem_of_rev_1. }
  split.
  - intros Hall. split.
    + apply Hsame. apply Forall_forall. intros r Hr%elem_of_rev_1. revert r Hr.
      by apply Forall_forall.
    + apply Hnil in Hall. by rewrite Hall.
  - intros Hex. destruct changes as [|c changes]; [by destruct Hex; apply Hnil|].
    rewrite foldl_print. cbn [files stdout print write_file]. by rewrite <- app_assoc.
Qed.

End MainProperties.

Lemma main_reports_witness :
  (load_json_file ex_reformat (fun _ => None) Some (fun _ => Some ex_entries)
                  ex_world (json ex_args) = Got ex_feed /\
   read_md Some ex_world (md ex_args) = Got ex_doc /\
   apply_updates ex_doc (parse_md_releases ex_doc) ex_feed =
   Ok (ex_doc_updated, [lit "6.2: 6.2.1 -> 6.2.8"; lit "6.3: 6.3.2 -> 6.3.3-c842"])) /\
  [lit "6.2: 6.2.1 -> 6.2.8"; lit "6.3: 6.3.2 -> 6.3.3-c842"] =
    omap (block_change ex_feed) (rev (parse_md_releases ex_doc)) /\
  (Forall (fun r => qualifies ex_feed r = None) (parse_md_releases ex_doc) ->
     ex_doc_updated = ex_doc /\
     ex_main ex_args ex_world = (print ex_world (lit "NO_UPDATES"), Exit 0)) /\
  (~ Forall (fun r => qualifies ex_feed r = None) (parse_md_releases ex_doc) ->
     ex_main ex_args ex_world =
     ({| files := <[output ex_args := id ex_doc_updated]> (files ex_world);
         stdout := stdout ex_world ++
                   lit "UPDATES_FOUND" :: [lit "6.2: 6.2.1 -> 6.2.8";
                                           lit "6.3: 6.3.2 -> 6.3.3-c842"] |}, Exit 0)).
Proof.
  assert (H1 : load_json_file ex_reformat (fun _ => None) Some (fun _ => Some ex_entries)
                              ex_world (json ex_args) = Got ex_feed)
    by (vm_compute; reflexivity).
  assert (H2 : read_md Some ex_world (md ex_args) = Got ex_doc) by (vm_compute; reflexivity).
  assert (H3 : apply_updates ex_doc (parse_md_releases ex_doc) ex_feed =
               Ok (ex_doc_updated, [lit "6.2: 6.2.1 -> 6.2.8"; lit "6.3: 6.3.2 -> 6.3.3-c842"]))
    by (vm_compute; reflexivity).
  split; [done|].
  exact (main_reports ex_reformat (fun _ => None) Some (fun _ => Some ex_entries) Some id
           ex_args ex_world ex_feed ex_doc ex_doc_updated _ H1 H2 H3).
Defined.

(** ** Two runs of the script *)

Lemma loaded_keys reformat_date entries cycles :
  load_json_versions reformat_date entries = Ok cycles ->
  forall c info, cycles !! c = Some info -> get_release_cycle (version info) = Some c.
Proof.
  intros H c info Hc.
  assert (Hinv : feed_invariant reformat_date entries cycles).
  { apply (load_entries_invariant reformat_date entries [] ∅ cycles); [|exact H].
    intros c'. rewrite lookup_empty. intros j vs v (e & Hl & _). done. }
  specialize (Hinv c). rewrite Hc in Hinv.
  by destruct Hinv as (i & e & ro & v & _ & _ & _ & _ & Hcyc & _).
Qed.

Section TwoRuns.

Variable reformat_date : str -> option str.
Variable decode_utf16 : list ascii -> option str.
Variable decode_utf8_sig : list ascii -> option str.
Variable json_loads : str -> option (list feed_entry).
Variable read_text : list ascii -> option str.
Variable write_text : str -> list ascii.

Local Abbreviation run_main :=
  (main reformat_date decode_utf16 decode_utf8_sig json_loads read_text write_text).
Local Abbreviation load_feed :=
  (load_json_file reformat_date decode_utf16 decode_utf8_sig json_loads).

Lemma load_feed_shape w path cycles :
  load_feed w path = Got cycles ->
  (forall c info, cycles !! c = Some info -> (nl ∉ date info) /\ (backslash ∉ date info)) ->
  feed_shape cycles.
Proof.
  unfold load_json_file. intros H Hd.
  destruct (files w !! path) as [raw|]; [|done]. cbn [of_option and_then] in H.
  destruct (if has_utf16_mark raw then _ else _) as [text|]; [|done].
  cbn [of_option and_then] in H.
  destruct (json_loads text) as [entries|]; [|done]. cbn [of_option and_then] in H.
  destruct (load_json_versions reformat_date entries) as [cycles'|] eqn:E; [|done].
  injection H as ->. intros c info Hc. split; [|by apply (Hd c)].
  by apply (loaded_keys reformat_date entries cycles).
Qed.

Lemma load_feed_files w w' path :
  files w' !! path = files w !! path -> load_feed w' path = load_feed w path.
Proof. intros H. unfold load_json_file. by rewrite H. Qed.

(** X15: a second run of the script on the document the first run wrote.
    When the first run found updates, the document it wrote reads back as
    it was written, the output path is not the path of the feed, the dates
    of the loaded feed hold no newline and no backslash, and in every block of
    the input that qualifies the [latest] field that the parser reads is a
    double-quoted value alone on its line with no [    latestReleaseDate:]
    before it, then a run with the written document as its input prints
    NO_UPDATES, ends with status 0 and writes nothing. *)
Theorem main_second_run (a : args) (w : world) cycles content content2 changes out2 :
  load_feed w (json a) = Got cycles ->
  read_md read_text w (md a) = Got content ->
  apply_updates content (parse_md_releases content) cycles = Ok (content2, changes) ->
  changes <> [] ->
  read_text (write_text content2) = Some content2 ->
  output a <> json a ->
  (forall c info, cycles !! c = Some info -> (nl ∉ date info) /\ (backslash ∉ date info)) ->
  (forall r, r ∈ parse_md_releases content -> qualifies cycles r <> None ->
     latest_is_quoted (_text r) = true) ->
  let w1 := fst (run_main a w) in
  files w1 !! output a = Some (write_text content2) /\
  run_main {| json := json a; md := output a; output := out2 |} w1 =
  (print w1 (lit "NO_UPDATES"), Exit 0).
Proof.
  intros Hj Hm Hu Hch Hrw Hout Hd Hq w1.
  assert (Hw1 : w1 = {| files := <[output a := write_text content2]> (files w);
                        stdout := stdout w ++ lit "UPDATES_FOUND" :: changes |}).
  { unfold w1, main. rewrite Hj. cbn [and_then]. rewrite Hm. cbn [and_then].
    rewrite Hu. cbn [of_result]. destruct changes as [|c changes]; [done|].
    rewrite foldl_print. cbn [fst files stdout print write_file]. by rewrite <- app_assoc. }
  pose proof (load_feed_shape _ _ _ Hj Hd) as Hf.
  pose proof (idempotent_run _ _ _ _ Hf Hq Hu) as H2.
  rewrite Hw1. cbn [files]. split; [by rewrite lookup_insert_eq|].
  unfold main. cbn [json md output].
  rewrite (load_feed_files w) by (cbn [files]; by rewrite lookup_insert_ne).
  rewrite Hj.
  cbn [and_then]. unfold read_md. cbn [files]. rewrite lookup_insert_eq.
  cbn [of_option and_then]. rewrite Hrw. cbn [of_option and_then].
  rewrite H2. done.
Qed.

End TwoRuns.

Lemma main_second_run_witness :
  (load_json_file ex_reformat (fun _ => None) Some (fun _ => Some ex_entries)
                  ex_world (json ex_args) = Got ex_feed /\
   read_md Some ex_world (md ex_args) = Got ex_doc /\
   apply_updates ex_doc (parse_md_releases ex_doc) ex_feed =
   Ok (ex_doc_updated, [lit "6.2: 6.2.1 -> 6.2.8"; lit "6.3: 6.3.2 -> 6.3.3-c842"]) /\
   [lit "6.2: 6.2.1 -> 6.2.8"; lit "6.3: 6.3.2 -> 6.3.3-c842"] <> [] /\
   Some (id ex_doc_updated) = Some ex_doc_updated /\
   output ex_args <> json ex_args /\
   (forall c info, ex_feed !! c = Some info -> (nl ∉ date info) /\ (backslash ∉ date info)) /\
   (forall r, r ∈ parse_md_releases ex_doc -> qualifies ex_feed r <> None ->
      latest_is_quoted (_text r) = true)) /\
  let w1 := fst (ex_main ex_args ex_world) in
  files w1 !! output ex_args = Some (id ex_doc_updated) /\
  ex_main {| json := json ex_args; md := output ex_args; output := lit "out2.md" |} w1 =
  (print w1 (lit "NO_UPDATES"), Exit 0).
Proof.
  assert (H1 : load_json_file ex_reformat (fun _ => None) Some (fun _ => Some ex_entries)
                              ex_world (json ex_args) = Got ex_feed)
    by (vm_compute; reflexivity).
  assert (H2 : read_md Some ex_world (md ex_args) = Got ex_doc) by (vm_compute; reflexivity).
  assert (H3 : apply_updates ex_doc (parse_md_releases ex_doc) ex_feed =
               Ok (ex_doc_updated, [lit "6.2: 6.2.1 -> 6.2.8"; lit "6.3: 6.3.2 -> 6.3.3-c842"]))
    by (vm_compute; reflexivity).
  assert (H4 : [lit "6.2: 6.2.1 -> 6.2.8"; lit "6.3: 6.3.2 -> 6.3.3-c842"] <> []) by done.
  assert (H5 : output ex_args <> json ex_args) by done.
  assert (H6 : forall c info, ex_feed !! c = Some info ->
                 (nl ∉ date info) /\ (backslash ∉ date info))
    by (intros c info Hc; exact (proj2 (ex_feed_shape c info Hc))).
  split; [by pose proof ex_doc_quoted|].
  exact (main_second_run ex_reformat (fun _ => None) Some (fun _ => Some ex_entries) Some id
           ex_args ex_world ex_feed ex_doc ex_doc_updated _ (lit "out2.md")
           H1 H2 H3 H4 eq_refl H5 H6 ex_doc_quoted).
Defined.

(** ** When the updater raises *)

Lemma update_release_outcome cycles st r :
  (forall c info, cycles !! c = Some info -> interpolate (date info) = Ok (date info)) ->
  if compares_with_none cycles r then update_release cycles st r = Raise TypeError
  else exists st', update_release cycles st r = Ok st'.
Proof.
  intros Hd. destruct st as [content changes]. rewrite update_release_cases.
  unfold compares_with_none.
  destruct (cycles !! releaseCycle r) as [info|] eqn:Ei; [|by eauto].
  destruct (parse_version (version info)) as [new|] eqn:En; [|by eauto].
  destruct (current_parsed r) as [cur|]; [|done].
  destruct (version_gtb new cur); [|by eauto].
  destruct (update_block_total (_text r) _ _ new En (Hd _ _ Ei)) as [t ->].
  cbn [bind]. eauto.
Qed.

Lemma for_each_update_outcome cycles l : forall st,
  (forall c info, cycles !! c = Some info -> interpolate (date info) = Ok (date info)) ->
  match for_each (update_release cycles) st l with
  | Ok _ => Forall (fun r => compares_with_none cycles r = false) l
  | Raise e => e = TypeError /\ Exists (fun r => compares_with_none cycles r = true) l
  end.
Proof.
  induction l as [|r l IH]; intros st Hd; [by constructor|]. cbn [for_each].
  pose proof (update_release_outcome cycles st r Hd) as Hr.
  destruct (compares_with_none cycles r) eqn:Er.
  - rewrite Hr. cbn [bind]. split; [done|]. by constructor.
  - destruct Hr as [st' ->]. cbn [bind]. specialize (IH st' Hd).
    destruct (for_each _ st' l) as [res|e].
    + by constructor.
    + destruct IH as [-> Hex]. split; [done|]. by apply Exists_cons_tl.
Qed.

(** X16: when the updater raises.  For a feed map whose dates hold no
    backslash and whose versions, as the recorded versions of the blocks,
    are within the limit of [int], apply_updates returns exactly when no
    block is compared with
    [None], and otherwise raises TypeError: some block has its cycle in the
    feed with a version that [parse_version] accepts and a [latest] value,
    not empty, that it does not accept.  One such block anywhere in the
    document makes the whole call fail, whatever the other blocks are. *)
Theorem apply_updates_outcome content releases cycles :
  (forall c info, cycles !! c = Some info -> interpolate (date info) = Ok (date info)) ->
  (forall c info, cycles !! c = Some info -> length (version info) <= int_max_str_digits) ->
  Forall (fun r => length (current_version r) <= int_max_str_digits) releases ->
  match apply_updates content releases cycles with
  | Ok _ => Forall (fun r => compares_with_none cycles r = false) releases
  | Raise e => e = TypeError /\ Exists (fun r => compares_with_none cycles r = true) releases
  end.
Proof.
  intros Hd _ _. unfold apply_updates.
  pose proof (for_each_update_outcome cycles (rev releases) (content, []) Hd) as H.
  destruct (for_each _ _ (rev releases)) as [res|e].
  - apply Forall_rev_1 in H. by rewrite rev_involutive in H.
  - destruct H as [-> H]. split; [done|]. apply Exists_exists in H as (r & Hr & Hc).
    apply Exists_exists. exists r. split; [|done]. by apply elem_of_rev_1.
Qed.

Lemma ex_feed_dates c info :
  ex_feed !! c = Some info -> interpolate (date info) = Ok (date info).
Proof.
  intros H. apply elem_of_list_to_map_2 in H. cbn [map fst snd] in H.
  repeat (apply elem_of_cons in H as [ [= -> ->] | H]; [reflexivity|]).
  by apply elem_of_nil in H.
Defined.

Lemma ex_feed_within_limit c info :
  ex_feed !! c = Some info -> length (version info) <= int_max_str_digits.
Proof.
  intros H. apply elem_of_list_to_map_2 in H. cbn [map fst snd] in H.
  repeat (apply elem_of_cons in H as [ [= -> ->] | H];
          [unfold int_max_str_digits; simpl; lia|]).
  by apply elem_of_nil in H.
Defined.

Lemma apply_updates_outcome_witness :
  ((forall c info, ex_feed !! c = Some info -> interpolate (date info) = Ok (date info)) /\
   (forall c info, ex_feed !! c = Some info -> length (version info) <= int_max_str_digits) /\
   Forall (fun r => length (current_version r) <= int_max_str_digits)
          (parse_md_releases ex_doc_tbd)) /\
  apply_updates ex_doc_tbd (parse_md_releases ex_doc_tbd) ex_feed = Raise TypeError /\
  match apply_updates ex_doc_tbd (parse_md_releases ex_doc_tbd) ex_feed with
  | Ok _ => Forall (fun r => compares_with_none ex_feed r = false) (parse_md_releases ex_doc_tbd)
  | Raise e =>
      e = TypeError /\
      Exists (fun r => compares_with_none ex_feed r = true) (parse_md_releases ex_doc_tbd)
  end.
Proof.
  assert (L : Forall (fun r => length (current_version r) <= int_max_str_digits)
                     (parse_md_releases ex_doc_tbd)).
  { set (l := parse_md_releases ex_doc_tbd). vm_compute in l. subst l.
    repeat (constructor; [unfold int_max_str_digits; simpl; lia|]).
    constructor. }
  split; [exact (conj ex_feed_dates (conj ex_feed_within_limit L))|].
  split; [vm_compute; reflexivity|].
  exact (apply_updates_outcome ex_doc_tbd (parse_md_releases ex_doc_tbd) ex_feed
           ex_feed_dates ex_feed_within_limit L).
Defined.

(** ** The version written and read back *)

(** X17: the version the updater writes is the version the parser reads
    back.  For a block whose [latest] field, as [extract] reads it, is a
    double-quoted value alone on its line with no [    latestReleaseDate:]
    before it, and a new version that [parse_version] accepts, [extract] on
    the updated block gives a value with the tuple of the new version: the
    new version itself, or the new version without its last character when
    that is a newline. *)
Theorem update_then_extract block nv nd new t :
  parse_version nv = Some new ->
  latest_is_quoted block = true ->
  update_block block nv nd = Ok t ->
  exists cur,
    extract "latest" t = Some cur /\ parse_version cur = Some new /\
    (nv = cur \/ nv = cur ++ [nl]).
Proof.
  intros Hnv (pre & v0 & post & -> & Hv0 & _ & Hpost & Hfirst & Hno)%latest_is_quoted_spec Hu.
  destruct (update_block_latest pre v0 post nv nd new t Hnv Hv0 Hpost Hfirst Hno Hu)
    as (post2 & -> & Hpost2).
  destruct (parse_version_shape _ _ Hnv) as (a & b & c & build & Hp & Hs & ->).
  pose proof (parse_version_grammar a b c build Hp) as Hcore.
  destruct (parse_version_chars _ _ Hcore) as [_ Hc].
  assert (Hnl : nl ∉ version_text a b c build)
    by (apply in_grammar_no_newline; by exists a, b, c, build).
  assert (Hq : dquote ∉ version_text a b c build) by (by apply (version_chars_not dquote)).
  exists (version_text a b c build). split; [|done].
  destruct Hs as [->| ->].
  - by apply (extract_latest_text pre _ post2 v0 post).
  - apply (extract_latest_text_newline pre _ post2 v0 post); try done.
    apply Forall_forall. intros x Hx. apply version_char_not_space.
    + rewrite Forall_forall in Hc. by apply Hc.
    + by intros ->.
Qed.

Lemma update_then_extract_witness :
  (parse_version (lit "6.2.8") = Some (6, 2, 8, 0)%N /\
   latest_is_quoted ex_block = true /\
   update_block ex_block (lit "6.2.8") (lit "2025-10-10") =
   Ok (cycle_line "6.2" ++ [nl] ++ latest_line "6.2.8" ++ [nl] ++
       date_line "2025-10-10" ++ [nl] ++ lit "    link: y")) /\
  exists cur,
    extract "latest" (cycle_line "6.2" ++ [nl] ++ latest_line "6.2.8" ++ [nl] ++
                      date_line "2025-10-10" ++ [nl] ++ lit "    link: y") = Some cur /\
    parse_version cur = Some (6, 2, 8, 0)%N /\
    (lit "6.2.8" = cur \/ lit "6.2.8" = cur ++ [nl]).
Proof.
  assert (H1 : parse_version (lit "6.2.8") = Some (6, 2, 8, 0)%N) by reflexivity.
  assert (H2 : latest_is_quoted ex_block = true) by (vm_compute; reflexivity).
  assert (H3 : update_block ex_block (lit "6.2.8") (lit "2025-10-10") =
               Ok (cycle_line "6.2" ++ [nl] ++ latest_line "6.2.8" ++ [nl] ++
                   date_line "2025-10-10" ++ [nl] ++ lit "    link: y"))
    by (vm_compute; reflexivity).
  split; [done|].
  exact (update_then_extract ex_block (lit "6.2.8") (lit "2025-10-10") _ _ H1 H2 H3).
Defined.

(** ** The order of the entries of the feed *)

Lemma version_le_antisym a b : version_le a b -> version_le b a -> a = b.
Proof.
  intros [->|H1] [H2|H2]; try done.
  destruct (version_lt_irrefl a). by apply (version_lt_trans a b a).
Qed.

Lemma feed_version_at_perm entries1 entries2 j c vs v :
  entries1 ≡ₚ entries2 -> feed_version_at entries1 j c vs v ->
  exists j', feed_version_at entries2 j' c vs v.
Proof.
  intros Hp (e & Hl & He). apply list_elem_of_lookup_2 in Hl. rewrite Hp in Hl.
  apply list_elem_of_lookup in Hl as [j' Hl]. exists j', e. done.
Qed.

Lemma load_json_versions_loads reformat_date entries :
  match load_json_versions reformat_date entries with
  | Ok _ => Forall (fun e => entry_loads reformat_date e = true) entries
  | Raise err =>
      exists pre e post,
        entries = pre ++ e :: post /\
        Forall (fun e => entry_loads reformat_date e = true) pre /\
        entry_loads reformat_date e = false /\ err = entry_error e
  end.
Proof. apply for_each_load_outcome. intros c info. by rewrite lookup_empty. Qed.

Section FeedOrder.

Variable reformat_date : str -> option str.

Lemma loaded_invariant entries cycles :
  load_json_versions reformat_date entries = Ok cycles ->
  feed_invariant reformat_date entries cycles.
Proof.
  intros H. apply (load_entries_invariant reformat_date entries [] ∅ cycles); [|exact H].
  intros c. rewrite lookup_empty. intros j vs v (e & Hl & _). done.
Qed.

Lemma first_maximal_at entries c info :
  first_maximal reformat_date entries c info ->
  exists i v,
    feed_version_at entries i c (version info) v /\
    parse_version (version info) = Some v /\
    forall j vs v', feed_version_at entries j c vs v' -> version_le v' v.
Proof.
  intros (i & e & ro & v & Hl & Hv & _ & _ & Hc & Hp & Hmax).
  exists i, v. split; [by exists e|]. split; [done|].
  intros j vs v' H. by apply (Hmax j vs v').
Qed.

(** X18: the versions of the map do not depend on the order of the entries.
    If the loader returns a map for a feed, it returns one for every
    reordering of the feed, with the same cycles, and for each cycle a
    version of the same tuple (the text of the version and the date are
    those of the first entry with that tuple, so they may differ). *)
Theorem load_json_versions_order (entries1 entries2 : list feed_entry) cycles1 :
  entries1 ≡ₚ entries2 ->
  load_json_versions reformat_date entries1 = Ok cycles1 ->
  exists cycles2,
    load_json_versions reformat_date entries2 = Ok cycles2 /\
    forall c,
      match cycles1 !! c, cycles2 !! c with
      | Some info1, Some info2 =>
          parse_version (version info1) = parse_version (version info2)
      | None, None => True
      | _, _ => False
      end.
Proof.
  intros Hp H1.
  pose proof (load_json_versions_loads reformat_date entries1) as Ho1.
  pose proof (load_json_versions_loads reformat_date entries2) as Ho2.
  rewrite H1 in Ho1.
  destruct (load_json_versions reformat_date entries2) as [cycles2|err] eqn:H2.
  - exists cycles2. split; [done|]. intros c.
    pose proof (loaded_invariant _ _ H1 c) as I1.
    pose proof (loaded_invariant _ _ H2 c) as I2.
    destruct (cycles1 !! c) as [info1|], (cycles2 !! c) as [info2|].
    + apply first_maximal_at in I1 as (i1 & v1 & Hat1 & Hv1 & Hmax1).
      apply first_maximal_at in I2 as (i2 & v2 & Hat2 & Hv2 & Hmax2).
      rewrite Hv1, Hv2. f_equal.
      destruct (feed_version_at_perm _ _ _ _ _ _ Hp Hat1) as [j2 Hj2].
      symmetry in Hp.
      destruct (feed_version_at_perm _ _ _ _ _ _ Hp Hat2) as [j1 Hj1].
      apply version_le_antisym; eauto.
    + apply first_maximal_at in I1 as (i1 & v1 & Hat1 & _).
      destruct (feed_version_at_perm _ _ _ _ _ _ Hp Hat1) as [j2 Hj2]. exact (I2 _ _ _ Hj2).
    + apply first_maximal_at in I2 as (i2 & v2 & Hat2 & _). symmetry in Hp.
      destruct (feed_version_at_perm _ _ _ _ _ _ Hp Hat2) as [j1 Hj1]. exact (I1 _ _ _ Hj1).
    + done.
  - exfalso. destruct Ho2 as (pre & e & post & -> & _ & He & _).
    rewrite Forall_forall in Ho1. rewrite (Ho1 e) in He; [done|].
    rewrite Hp. apply elem_of_app. right. apply list_elem_of_here.
Qed.

End FeedOrder.

Lemma load_json_versions_order_witness :
  (ex_entries ≡ₚ rev ex_entries /\
   load_json_versions ex_reformat ex_entries = Ok ex_feed) /\
  exists cycles2,
    load_json_versions ex_reformat (rev ex_entries) = Ok cycles2 /\
    forall c,
      match ex_feed !! c, cycles2 !! c with
      | Some info1, Some info2 =>
          parse_version (version info1) = parse_version (version info2)
      | None, None => True
      | _, _ => False
      end.
Proof.
  assert (H1 : ex_entries ≡ₚ rev ex_entries) by apply Permutation_rev.
  assert (H2 : load_json_versions ex_reformat ex_entries = Ok ex_feed)
    by (vm_compute; reflexivity).
  split; [done|].
  exact (load_json_versions_order ex_reformat ex_entries (rev ex_entries) ex_feed H1 H2).
Defined.

(** ** Every place where a block could start *)

Lemma scanned_hit_span r bef aft ps :
  scanned r bef aft ps ->
  forall m, m ∈ hits ps -> m_end m = m_start m + length (m_text m).
Proof.
  induction 1 as [bef|bef x t ps Hm Hs IH|bef w rest m0 ps Hw Hm Hst Hen Htx Hs IH];
    intros m Hin.
  - by apply elem_of_nil in Hin.
  - by apply IH.
  - change (hits (Hit m0 :: ps)) with (m0 :: hits ps) in Hin.
    apply elem_of_cons in Hin as [->|Hin]; [|by apply IH]. rewrite Hst, Hen, Htx. done.
Qed.

Lemma block_at_functional content p c1 b1 c2 b2 :
  block_at content p c1 b1 -> block_at content p c2 b2 -> c1 = c2 /\ b1 = b2.
Proof.
  intros (_ & _ & Hn1 & Hq1 & r1 & Hd1 & Ht1 & Hno1) (_ & _ & Hn2 & Hq2 & r2 & Hd2 & Ht2 & Hno2).
  pose proof (block_here_complete c1 b1 r1 Hn1 Hq1 Ht1 Hno1) as H1.
  pose proof (block_here_complete c2 b2 r2 Hn2 Hq2 Ht2 Hno2) as H2.
  rewrite <- Hd1 in H1. rewrite <- Hd2, H1 in H2. by injection H2 as -> -> _.
Qed.

(** A header at a line start after the start of a block and before its end
    lies in the header of that block, whose quoted cycle then goes over more
    than one line. *)
Lemma header_inside_block content ms cyc body p cycle' body' :
  block_at content ms cyc body ->
  block_at content p cycle' body' ->
  ms < p < ms + length (block_text cyc body) ->
  p < ms + length (block_text cyc []) /\ nl ∈ cyc.
Proof.
  intros (_ & Hlen & _ & _ & rest & Hd & _ & Hno) (Hbol & Hlen' & _ & _ & rest' & Hd' & _) Hp.
  remember (length (block_text cyc [])) as h eqn:Eh.
  assert (Hbt : length (block_text cyc body) = h + length body).
  { rewrite Eh, (block_text_header cyc body), length_app. done. }
  destruct (lookup_lt_is_Some_2 content (p - 1)) as [x Hx]; [lia|].
  assert (Hxn : x = nl).
  { replace p with (S (p - 1)) in Hbol by lia.
    rewrite (take_S_r _ _ _ Hx), rev_app_distr in Hbol. cbn [rev app at_line_start] in Hbol.
    by apply Ascii.eqb_eq in Hbol. }
  subst x.
  assert (Hterm : is_terminator (drop (p - 1) content) = true).
  { rewrite (drop_S _ _ _ Hx). replace (S (p - 1)) with p by lia. rewrite Hd'.
    unfold is_terminator, block_text. apply orb_true_iff. left.
    apply starts_with_spec. exists (lit " " ++ [dquote] ++ cycle' ++ [dquote] ++ body' ++ rest').
    unfold cycle_key. by reassoc. }
  remember (p - 1 - ms) as q eqn:Eq.
  assert (Hdq : drop (p - 1) content = drop q (block_text cyc [] ++ body ++ rest)).
  { replace (p - 1) with (ms + q) by lia.
    rewrite <- drop_drop, Hd, (block_text_header cyc body). by rewrite <- app_assoc. }
  assert (Hq : q < h).
  { destruct (decide (q < h)) as [|Hge]; [done|]. exfalso.
    rewrite drop_app_ge in Hdq by lia. rewrite <- Eh in Hdq.
    rewrite drop_app_le in Hdq by lia. rewrite Hdq in Hterm.
    rewrite (Hno (take (q - h) body) (drop (q - h) body)) in Hterm; [done| |].
    - by rewrite take_drop.
    - intros E. apply (f_equal length) in E. rewrite length_drop in E. simpl in E. lia. }
  assert (Hhq : block_text cyc [] !! q = Some nl).
  { rewrite <- Hx. replace (p - 1) with (ms + q) by lia.
    rewrite <- (lookup_drop content ms q), Hd, (block_text_header cyc body), <- app_assoc.
    rewrite lookup_app_l by lia. done. }
  assert (Hform : block_text cyc [] = (cycle_key ++ dquote :: cyc) ++ [dquote])
    by (unfold block_text; by reassoc).
  split.
  - destruct (decide (q = h - 1)) as [Heq|]; [|lia]. exfalso.
    rewrite Hform in Hhq. rewrite Eh, Hform, length_app in Heq. cbn [length] in Heq.
    rewrite lookup_app_r in Hhq by lia.
    replace (q - length (cycle_key ++ dquote :: cyc)) with 0 in Hhq by lia. done.
  - apply list_elem_of_lookup_2 in Hhq. rewrite Hform in Hhq.
    apply elem_of_app in Hhq as [Hhq|Hhq]; [|by apply list_elem_of_singleton in Hhq].
    apply elem_of_app in Hhq as [Hhq|Hhq].
    + exfalso. revert Hhq. by apply not_in_text.
    + by apply elem_of_cons in Hhq as [|].
Qed.

Lemma scanned_starts content ps :
  scanned block_re [] content ps ->
  forall p cycle body,
    block_at content p cycle body ->
    exists m, m ∈ hits ps /\
      (m_start m = p /\ m_groups m = [(1, cycle)] /\ m_text m = block_text cycle body \/
       exists cyc, m_groups m = [(1, cyc)] /\
                   m_start m < p < m_start m + length (block_text cyc []) /\ nl ∈ cyc).
Proof.
  intros Hs p cycle body Hb.
  destruct (scanned_exhaustive _ _ _ Hs p cycle body) as (m & Hin & Hrange);
    [simpl; lia|done|].
  destruct (scanned_blocks _ _ _ Hs m Hin) as (cyc & bd & Ht & Hg & Hbm).
  pose proof (scanned_hit_span _ _ _ _ Hs m Hin) as Hend.
  cbn [rev app] in Hbm. exists m. split; [done|].
  destruct (decide (m_start m = p)) as [Heq|Hne].
  - left. rewrite Heq in Hbm. destruct (block_at_functional _ _ _ _ _ _ Hbm Hb) as [-> ->]. done.
  - right. exists cyc. split; [done|].
    destruct (header_inside_block content (m_start m) cyc bd p cycle body Hbm Hb) as [H1 H2].
    + rewrite <- Ht. lia.
    + split; [lia|done].
Qed.

(** C4, as the code has it: the blocks returned are in the order of the
    document, their offset ranges follow one another without overlap and
    their texts are the text between their offsets; each starts at a line
    start with the header of its cycle and ends before the first terminator
    (a newline followed by [  - releaseCycle:] or by [---]) after the header;
    and every place where such a block could start is the start of a block
    that is returned, with that cycle and that text, unless it lies inside
    the quoted cycle of the header of a returned block, a cycle that then
    holds a newline.  A header that no terminator follows gives no block. *)
Theorem C4_blocks_of_document (content : str) :
  laid_out 0 content (parse_md_releases content) /\
  (forall r, r ∈ parse_md_releases content ->
     exists body,
       _text r = block_text (releaseCycle r) body /\
       block_at content (_start r) (releaseCycle r) body) /\
  (forall p cycle body,
     block_at content p cycle body ->
     exists r, r ∈ parse_md_releases content /\
       (_start r = p /\ releaseCycle r = cycle /\ _text r = block_text cycle body \/
        _start r < p < _start r + length (block_text (releaseCycle r) []) /\
        (nl ∈ releaseCycle r))).
Proof.
  pose proof (parse_md_releases_scanned content) as Hs.
  unfold parse_md_releases, finditer. fold (hits (scan block_re 0 [] content)).
  split; [|split].
  - apply (scanned_laid_out _ _ _ _ Hs).
  - intros r (m & -> & Hin)%list_elem_of_fmap.
    destruct (scanned_blocks _ _ _ Hs m Hin) as (cycle & body & H1 & H2 & H3).
    exists body. rewrite (releaseCycle_of_match m cycle H2). done.
  - intros p cycle body Hb.
    destruct (scanned_starts _ _ Hs p cycle body Hb) as (m & Hin & Hm).
    exists (release_of_match m). split; [apply list_elem_of_fmap; by eauto|].
    destruct Hm as [(Hp & Hg & Ht)|(cyc & Hg & Hp & Hn)].
    + left. by rewrite (releaseCycle_of_match m cycle Hg).
    + right. by rewrite (releaseCycle_of_match m cyc Hg).
Qed.

(** C4 as it is stated fails, in four ways.  The header of a last block that
    no terminator follows is in the document, and no block is returned for
    it.  A line that starts with [---] and goes on ends a block, and so does
    a line with [  - releaseCycle:] and a cycle without quotes: the block
    does not reach the [---] line after them.  And a header line that lies
    inside the quoted cycle of the header before it, where a block could
    start, starts no block: the one block returned starts at the first
    header and has both lines in its cycle. *)
Lemma C4_counterexamples :
  (header_at ex_doc_open 0 /\ parse_md_releases ex_doc_open = []) /\
  _text <$> parse_md_releases ex_doc_rule =
    [cycle_line "6.3" ++ [nl] ++ latest_line "6.3.2"] /\
  _text <$> parse_md_releases ex_doc_unquoted_cycle =
    [cycle_line "6.3" ++ [nl] ++ latest_line "6.3.2"] /\
  (header_at ex_doc_split_cycle 21 /\
   block_at ex_doc_split_cycle 21 (lit "b") [] /\
   _start <$> parse_md_releases ex_doc_split_cycle = [0] /\
   releaseCycle <$> parse_md_releases ex_doc_split_cycle =
     [lit "a" ++ [nl] ++ lit "  - releaseCycle: "]).
Proof.
  split; [split; [split|]; vm_compute; done|].
  split; [vm_compute; done|]. split; [vm_compute; done|].
  split; [split; vm_compute; done|]. split; [|split; vm_compute; done].
  split; [vm_compute; done|]. split; [vm_compute; lia|]. split; [done|].
  split; [apply not_in_text; reflexivity|].
  exists ([nl] ++ lit "---" ++ [nl]). split; [vm_compute; done|].
  split; [vm_compute; done|].
  intros b1 b2 Hb Hne. symmetry in Hb. apply app_eq_nil in Hb as [_ ->]. done.
Qed.
